(** * qibolab / qiboicarusq: pulse scheduling, calibration and readout

    A shallow embedding of the scheduling and signal-reduction code of
    [src/qiboicarusq/circuit.py] and [src/qibolab/instruments/icarusqfpga.py].

    Conventions.
    - A Python call that may raise is a value of [result A = exn + A];
      [raise e] is [inl e] and a normal return is [ok v = inr v].
    - [float64] clock values of the timing scheduler are only added,
      subtracted and compared by the code; they are modelled in [Z]
      (exact arithmetic on a fixed time grid), which keeps the scheduler
      executable.  Sampled signals and IQ points are modelled in [R].
    - numpy arrays are lists; Python dicts are [gmap]s. *)

From Stdlib Require Import ZArith Reals Lra Lia.
From stdpp Require Import base option list gmap strings.

(** ** Python exceptions *)

(** The exception classes the modelled code can raise.  [InvalidGateError]
    is the name used by the specification's error taxonomy; no path of the
    source constructs it. *)
Inductive exn : Set :=
| IndexError
| KeyError
| TypeError
| ValueError
| RuntimeError
| NotImplementedError
| InvalidGateError
| ZeroDivisionError.

#[global] Instance exn_eq_dec : EqDecision exn.
Proof. solve_decision. Defined.

Definition result : Type -> Type := sum exn.

Definition ok {A} (a : A) : result A := inr a.
Definition raise {A} (e : exn) : result A := inl e.

#[global] Instance result_ret : MRet result := fun _ a => inr a.
#[global] Instance result_bind : MBind result := fun _ _ f m =>
  match m with
  | inl e => inl e
  | inr a => f a
  end.

(** Sequence subscripting: [l[i]] and [l[i] = v] raise [IndexError] out of
    range.  Indices are qubit numbers, hence naturals (no negative
    wrap-around is modelled). *)
Definition getitem {A} (l : list A) (i : nat) : result A :=
  match l !! i with
  | Some x => ok x
  | None => raise IndexError
  end.

Definition setitem {A} (l : list A) (i : nat) (v : A) : result (list A) :=
  if decide (i < length l) then ok (<[i:=v]> l) else raise IndexError.

(** ** Python objects

    Objects as far as the modelled control flow inspects them: their
    truth value, their [len] and whether they are [None]. *)
#[warnings="-register-all"]
Inductive pyobj : Set :=
| PyNone
| PyBool (b : bool)
| PyInt (n : Z)
| PyStr (s : string)
| PyTuple (items : list pyobj)
| PyList (items : list pyobj)
| PyObject (id : nat).

(** [PyObject id] is an instance of a class that defines neither
    [__len__], [__bool__] nor an ordering (a [Sweeper], say), known by its
    identity. *)

Definition is_none (o : pyobj) : bool :=
  match o with
  | PyNone => true
  | _ => false
  end.

(** Truth-value testing: [None], [False], zero and empty containers are
    false. *)
Definition truthy (o : pyobj) : bool :=
  match o with
  | PyNone => false
  | PyBool b => b
  | PyInt n => negb (n =? 0)%Z
  | PyStr s => negb (String.length s =? 0)%nat
  | PyTuple items | PyList items => negb (length items =? 0)%nat
  | PyObject _ => true
  end.

(** [a or b] evaluates to [a] when [a] is true, else to [b]. *)
Definition py_or (a b : pyobj) : pyobj := if truthy a then a else b.

(** [len(o)]: defined for sized objects only; [bool], [int], [None] and
    plain instances have no [__len__] and raise [TypeError]. *)
Definition py_len (o : pyobj) : result nat :=
  match o with
  | PyStr s => ok (String.length s)
  | PyTuple items | PyList items => ok (length items)
  | PyNone | PyBool _ | PyInt _ | PyObject _ => raise TypeError
  end.

(** [bool] is a subclass of [int]. *)
Definition as_number (o : pyobj) : option Z :=
  match o with
  | PyBool b => Some (if b then 1 else 0)%Z
  | PyInt n => Some n
  | _ => None
  end.

(** [a == b]. *)
Fixpoint py_eq (a b : pyobj) : bool :=
  match a, b with
  | PyNone, PyNone => true
  | PyStr s, PyStr t => String.eqb s t
  | PyTuple xs, PyTuple ys | PyList xs, PyList ys =>
      (fix all_eq (xs ys : list pyobj) : bool :=
         match xs, ys with
         | [], [] => true
         | x :: xs', y :: ys' => py_eq x y && all_eq xs' ys'
         | _, _ => false
         end) xs ys
  | PyObject i, PyObject k => (i =? k)%nat
  | _, _ =>
      match as_number a, as_number b with
      | Some x, Some y => (x =? y)%Z
      | _, _ => false
      end
  end.

(** [a > b]: numbers compare by value, strings and sequences of one type
    lexicographically; for every other pair of operands both [a.__gt__(b)]
    and the reflected [b.__lt__(a)] return [NotImplemented] and Python
    raises [TypeError]. *)
Fixpoint py_gt (a b : pyobj) : result bool :=
  match a, b with
  | PyStr s, PyStr t => ok (String.ltb t s)
  | PyTuple xs, PyTuple ys | PyList xs, PyList ys =>
      (fix first_difference (xs ys : list pyobj) : result bool :=
         match xs, ys with
         | x :: xs', y :: ys' => if py_eq x y then first_difference xs' ys' else py_gt x y
         | _ :: _, [] => ok true
         | [], _ => ok false
         end) xs ys
  | _, _ =>
      match as_number a, as_number b with
      | Some x, Some y => ok (y <? x)%Z
      | _, _ => raise TypeError
      end
  end.

(** Calls to collaborators outside the repository's sources are recorded
    in a trace; [prog A] is a computation that makes such calls and then
    returns or raises. *)
Definition prog (call A : Type) : Type := (list call * result A)%type.

Definition prog_ret {call A} (a : A) : prog call A := ([], ok a).
Definition prog_raise {call A} (e : exn) : prog call A := ([], raise e).
Definition prog_lift {call A} (r : result A) : prog call A := ([], r).
Definition prog_call {call A} (c : call) (answer : A) : prog call A := ([c], ok answer).
Definition prog_bind {call A B} (m : prog call A) (f : A -> prog call B) : prog call B :=
  match m with
  | (t, inl e) => (t, inl e)
  | (t, inr a) => let '(t', r) := f a in (t ++ t', r)
  end.

Declare Scope prog_scope.
Delimit Scope prog_scope with prog.
Notation "x <~ m ;; k" := (prog_bind m (fun x => k))
  (at level 100, m at next level, right associativity) : prog_scope.
Notation "m ;;; k" := (prog_bind m (fun _ => k))
  (at level 100, right associativity) : prog_scope.

(** ** Basic facts about fallible results *)

Lemma bind_ok {A B} (f : A -> result B) (m : result A) (b : B) :
  m ≫= f = ok b <-> exists a, m = ok a /\ f a = ok b.
Proof.
  destruct m as [e|a]; simpl; split.
  - discriminate.
  - intros (a & Ha & _). discriminate.
  - eauto.
  - intros (a' & [= <-] & H). exact H.
Qed.

Lemma bind_raise {A B} (f : A -> result B) (m : result A) (e : exn) :
  m ≫= f = raise e <-> m = raise e \/ exists a, m = ok a /\ f a = raise e.
Proof.
  destruct m as [e'|a]; simpl; split.
  - intros [= ->]. now left.
  - intros [[= ->] | (a & Ha & _)]; [reflexivity | discriminate].
  - intros H. right. eauto.
  - intros [H | (a' & [= <-] & H)]; [discriminate | exact H].
Qed.

Lemma getitem_ok {A} (l : list A) i x : getitem l i = ok x <-> l !! i = Some x.
Proof.
  unfold getitem. destruct (l !! i); split; intros H; try discriminate.
  - now inversion H.
  - now inversion H.
Qed.

Lemma getitem_raise {A} (l : list A) i e : getitem l i = raise e -> e = IndexError.
Proof. unfold getitem. destruct (l !! i); [discriminate | now intros [= <-]]. Qed.

Lemma setitem_ok {A} (l l' : list A) i v :
  setitem l i v = ok l' <-> i < length l /\ l' = <[i:=v]> l.
Proof.
  unfold setitem. destruct (decide (i < length l)); split.
  - intros [= <-]. auto.
  - intros [_ ->]. reflexivity.
  - discriminate.
  - intros [? _]. contradiction.
Qed.

Lemma setitem_raise {A} (l : list A) i v e : setitem l i v = raise e -> e = IndexError.
Proof. unfold setitem. destruct (decide _); [discriminate | now intros [= <-]]. Qed.

(** ** Timing scheduler ([HardwareCircuit._calculate_sequence_duration]) *)

Module Circuit.

#[local] Open Scope Z_scope.

(** The scheduler dispatches on [isinstance(gate, gates.Align)] and
    [isinstance(gate, gates.CNOT)]; every other gate class takes the
    default branch. *)
Inductive gate_class : Set := Align | CNOT | OtherGate.

(** A gate as the scheduler sees it.  [duration] is the value of
    [gate.duration(self.qubit_config)] for the calibration in force. *)
Record Gate : Set := mkGate {
  gate_class_of : gate_class;
  target_qubits : list nat;
  control_qubits : list nat;
  duration : Z
}.

(** Python's two-argument [max(a, b)]: [b] only when [b > a]. *)
Definition py_max (a b : Z) : Z := if a <? b then b else a.

(** [m = 0; for q in gate.target_qubits: m = max(m, qubit_times[q])] *)
Fixpoint align_max (qubit_times : list Z) (qs : list nat) (m : Z) : result Z :=
  match qs with
  | [] => ok m
  | q :: qs' => t ← getitem qubit_times q; align_max qubit_times qs' (py_max m t)
  end.

(** [for q in gate.target_qubits: qubit_times[q] = m] *)
Fixpoint align_assign (qubit_times : list Z) (qs : list nat) (m : Z) : result (list Z) :=
  match qs with
  | [] => ok qubit_times
  | q :: qs' => qt ← setitem qubit_times q m; align_assign qt qs' m
  end.

(** One iteration of the loop body of [_calculate_sequence_duration]. *)
Definition schedule_gate (qubit_times : list Z) (gate : Gate) : result (list Z) :=
  q ← getitem (target_qubits gate) 0%nat;
  match gate_class_of gate with
  | Align =>
      m ← align_max qubit_times (target_qubits gate) 0;
      align_assign qubit_times (target_qubits gate) m
  | CNOT =>
      control ← getitem (control_qubits gate) 0%nat;
      tq ← getitem qubit_times q;
      tc ← getitem qubit_times control;
      let start := py_max tq tc in
      qt ← setitem qubit_times q (start + duration gate);
      v ← getitem qt q;
      setitem qt control v
  | OtherGate =>
      t ← getitem qubit_times q;
      setitem qubit_times q (t + duration gate)
  end.

Fixpoint schedule (qubit_times : list Z) (gate_sequence : list Gate) : result (list Z) :=
  match gate_sequence with
  | [] => ok qubit_times
  | gate :: rest => qt ← schedule_gate qubit_times gate; schedule qt rest
  end.

(** [qubit_times = np.zeros(self.nqubits); for gate in gate_sequence: ...;
    return qubit_times] *)
Definition _calculate_sequence_duration (nqubits : nat) (gate_sequence : list Gate)
  : result (list Z) :=
  schedule (replicate nqubits 0) gate_sequence.

(** The [qubit_times] handed to [create_pulse_sequence] by
    [_execute_sequence]:
    [experiment.static.readout_start_time - self._calculate_sequence_duration(self.queue)].
    The constant lives in the experiment configuration and is a parameter
    here. *)
Definition execute_sequence_qubit_times (readout_start_time : Z) (nqubits : nat)
    (queue : list Gate) : result (list Z) :=
  d ← _calculate_sequence_duration nqubits queue;
  ok ((fun x => readout_start_time - x) <$> d).

(** *** [PulseSequence.compile] *)

(** A waveform array of shape (nchannels, sample_size). *)
Definition waveform_zeros (nchannels sample_size : nat) : list (list R) :=
  replicate nchannels (replicate sample_size 0%R).

(** [waveform = np.zeros((self.nchannels, self.sample_size));
     for pulse in self.pulses: waveform = pulse.compile(waveform, self)].
    The pulse classes live in [qiboicarusq.pulses], outside the sources;
    [pulse_compile] stands for their [compile] method. *)
Definition PulseSequence_compile {Pulse : Type}
    (pulse_compile : Pulse -> list (list R) -> list (list R))
    (nchannels sample_size : nat) (pulses : list Pulse) : list (list R) :=
  foldl (fun waveform pulse => pulse_compile pulse waveform)
        (waveform_zeros nchannels sample_size) pulses.

(** Element-wise sum of two waveform arrays. *)
Definition waveform_add (a b : list (list R)) : list (list R) :=
  zip_with (zip_with Rplus) a b.

Definition has_shape (nchannels sample_size : nat) (w : list (list R)) : Prop :=
  length w = nchannels /\ Forall (fun row => length row = sample_size) w.

(** *** Calibration frame rotation ([HardwareCircuit._probability_extraction]) *)

(** [np.sign]: -1, 0 or 1. *)
Definition np_sign (x : R) : R :=
  if Rlt_dec x 0 then (-1)%R else if Rlt_dec 0 x then 1%R else 0%R.

(** The three arguments are arrays of two floats, modelled as pairs of
    reals; [x[0]] is [fst x] and [x[1]] is [snd x]. *)
Definition _probability_extraction (data refer_0 refer_1 : R * R) : R :=
  let move := refer_0 in
  let refer_1 := (fst refer_1 - fst move, snd refer_1 - snd move)%R in
  let data := (fst data - fst move, snd data - snd move)%R in
  let angle :=
    (acos (fst refer_1 / sqrt (fst refer_1 ^ 2 + snd refer_1 ^ 2)) * np_sign (snd refer_1))%R in
  let new_data :=
    (fst data * cos angle + snd data * sin angle,
     - fst data * sin angle + snd data * cos angle)%R in
  let new_refer_1 :=
    (fst refer_1 * cos angle + snd refer_1 * sin angle,
     - fst refer_1 * sin angle + snd refer_1 * cos angle)%R in
  let new_data_0 :=
    if Rlt_dec (fst new_data) 0 then 0%R
    else if Rlt_dec (fst new_refer_1) (fst new_data) then fst new_refer_1
    else fst new_data in
  (new_data_0 / fst new_refer_1)%R.

(** *** Circuit execution ([HardwareCircuit.execute], [__call__]) *)

(** The fields of [HardwareCircuit] the execution path reads.
    [measurement_gate] is [None] until a measurement is registered; a
    registered gate is represented by its [target_qubits]. *)
Record HardwareCircuit : Set := mkHardwareCircuit {
  nqubits : nat;
  _density_matrix : pyobj;
  queue : list Gate;
  measurement_gate : option (list nat)
}.

(** A pulse sequence before compilation: [create_pulse_sequence] asks
    every gate of the queue and then the measurement gate for its pulses,
    with the arguments [qubit_times] and [qubit_phases]. *)
Record PulseSequenceRequest : Set := mkPulseSequenceRequest {
  request_queue : list Gate;
  request_qubit_times : list Z;
  request_qubit_phases : list Z
}.

(** Calls into [qiboicarusq.scheduler], in program order. *)
Inductive scheduler_call : Set :=
| fetch_config
| check_tomography_required
| execute_pulse_sequence (pulse_sequence : PulseSequenceRequest) (nshots : pyobj)
| execute_tomography (ps_array : list PulseSequenceRequest) (nshots : pyobj).

(** Which reduction produced the [MeasurementResult] that is returned. *)
Inductive MeasurementResult : Set :=
| probabilities_from_projection (target_qubits : list nat) (nshots : pyobj)
| probabilities_from_density_matrix (target_qubits : list nat) (nstates : nat) (nshots : pyobj).

(** The builtin [max] over a one-dimensional array: [ValueError] on an
    empty one. *)
Definition py_max_list (l : list Z) : result Z :=
  match l with
  | [] => raise ValueError
  | x :: rest => ok (foldl py_max x rest)
  end.

Section Execute.

(** [experiment.static.readout_start_time]. *)
Variable readout_start_time : Z.
(** The object returned by [scheduler.check_tomography_required()]. *)
Variable tomography_required : pyobj.
(** [tomography.Tomography.basis_states] and [.gate_sequence]. *)
Variable basis_states : nat -> list (list Gate).
Variable gate_sequence : nat -> list (list Gate).

#[local] Open Scope prog_scope.

Definition create_pulse_sequence (queue : list Gate) (qubit_times qubit_phases : list Z)
  : PulseSequenceRequest :=
  mkPulseSequenceRequest queue qubit_times qubit_phases.

Definition _execute_sequence (self : HardwareCircuit) (target_qubits : list nat)
    (nshots : pyobj) : prog scheduler_call MeasurementResult :=
  let qubit_phases := replicate (nqubits self) 0 in
  qubit_times <~ prog_lift (execute_sequence_qubit_times readout_start_time
                              (nqubits self) (queue self));;
  let pulse_sequence := create_pulse_sequence (queue self) qubit_times qubit_phases in
  prog_call (execute_pulse_sequence pulse_sequence nshots) tt;;;
  prog_ret (probabilities_from_projection target_qubits nshots).

(** [qubit_times = np.zeros(self.nqubits) - max(self._calculate_sequence_duration(seq))] *)
Definition tomography_request (self : HardwareCircuit) (seq : list Gate)
  : result PulseSequenceRequest :=
  d ← _calculate_sequence_duration (nqubits self) seq;
  m ← py_max_list d;
  let qubit_times := replicate (nqubits self) (0 - m) in
  let qubit_phases := replicate (nqubits self) 0 in
  ok (create_pulse_sequence seq qubit_times qubit_phases).

Fixpoint tomography_requests (self : HardwareCircuit) (seqs : list (list Gate))
  : result (list PulseSequenceRequest) :=
  match seqs with
  | [] => ok []
  | seq :: rest =>
      r ← tomography_request self seq;
      rs ← tomography_requests self rest;
      ok (r :: rs)
  end.

Definition _execute_tomography_sequence (self : HardwareCircuit) (target_qubits : list nat)
    (nshots : pyobj) : prog scheduler_call MeasurementResult :=
  let nstates := Nat.pow 2 (length target_qubits) in
  let ps_states := basis_states nstates in
  let prerotation := gate_sequence nstates in
  states <~ prog_lift (tomography_requests self ps_states);;
  let align_all := mkGate Align (seq 0 (nqubits self)) [] 0 in
  rotated <~ prog_lift (tomography_requests self
               ((fun prerotation_sequence => queue self ++ [align_all] ++ prerotation_sequence)
                  <$> prerotation));;
  prog_call (execute_tomography (states ++ rotated) nshots) tt;;;
  prog_ret (probabilities_from_density_matrix target_qubits nstates nshots).

Definition execute (self : HardwareCircuit) (initial_state nshots : pyobj)
  : prog scheduler_call MeasurementResult :=
  if negb (is_none initial_state) then prog_raise ValueError
  else
    match measurement_gate self with
    | None => prog_raise RuntimeError
    | Some target_qubits =>
        prog_call fetch_config tt;;;
        required <~ prog_call check_tomography_required tomography_required;;
        n <~ prog_lift (py_len (py_or required (_density_matrix self)));;
        if negb (n =? 0)%nat
        then _execute_tomography_sequence self target_qubits nshots
        else _execute_sequence self target_qubits nshots
    end.

(** Binding positional arguments to
    [execute(self, initial_state=None, nshots=None)]: at most two besides
    [self]; a call with more raises [TypeError] before the body runs. *)
Definition call_execute (self : HardwareCircuit) (args : list pyobj)
  : prog scheduler_call MeasurementResult :=
  match args with
  | [] => execute self PyNone PyNone
  | [initial_state] => execute self initial_state PyNone
  | [initial_state; nshots] => execute self initial_state nshots
  | _ => prog_raise TypeError
  end.

(** [return self.execute(initial_state, nshots, measurement_level)] *)
Definition __call__ (self : HardwareCircuit) (initial_state nshots measurement_level : pyobj)
  : prog scheduler_call MeasurementResult :=
  call_execute self [initial_state; nshots; measurement_level].

End Execute.

(** *** The definitions on small inputs *)

Example schedule_three_gates :
  _calculate_sequence_duration 2
    [mkGate OtherGate [0%nat] [] 3; mkGate OtherGate [1%nat] [] 8;
     mkGate CNOT [1%nat] [0%nat] 2]
  = ok [10; 10].
Proof. reflexivity. Qed.

Example schedule_align_then_gate :
  _calculate_sequence_duration 3
    [mkGate OtherGate [2%nat] [] 5; mkGate Align [0%nat; 2%nat] [] 0;
     mkGate OtherGate [0%nat] [] 1]
  = ok [6; 0; 5].
Proof. reflexivity. Qed.

Example schedule_out_of_range :
  _calculate_sequence_duration 1 [mkGate OtherGate [1%nat] [] 3] = raise IndexError.
Proof. reflexivity. Qed.

Example start_times_backward :
  execute_sequence_qubit_times 100 2
    [mkGate OtherGate [0%nat] [] 3; mkGate OtherGate [1%nat] [] 8]
  = ok [97; 92].
Proof. reflexivity. Qed.

Example len_of_boolean : py_len (py_or (PyBool false) (PyBool false)) = raise TypeError.
Proof. reflexivity. Qed.

Example len_of_list : py_len (py_or (PyList []) (PyList [PyInt 0])) = ok 1%nat.
Proof. reflexivity. Qed.

Example gt_numbers : py_gt (PyInt 2) (PyBool true) = ok true.
Proof. reflexivity. Qed.

Example gt_tuples :
  py_gt (PyTuple [PyInt 1; PyInt 2]) (PyTuple [PyInt 1; PyInt 1]) = ok true.
Proof. reflexivity. Qed.

Example gt_tuple_int : py_gt (PyTuple [PyObject 0]) (PyInt 1) = raise TypeError.
Proof. reflexivity. Qed.

(** *** Specification vocabulary for the scheduler *)

Definition Zsum (l : list Z) : Z := foldr Z.add 0 l.

(** The sum of the durations of the gates of [queue] that target qubit [q]. *)
Definition total_duration (q : nat) (queue : list Gate) : Z :=
  Zsum (duration <$> filter (fun g => q ∈ target_qubits g) queue).

(** A gate on one qubit of an [n]-qubit register that is neither a barrier
    nor a CNOT. *)
Definition single_qubit_gate (n : nat) (g : Gate) : Prop :=
  gate_class_of g = OtherGate /\ exists q, target_qubits g = [q] /\ (q < n)%nat.

#[global] Instance single_qubit_gate_dec n g : Decision (single_qubit_gate n g).
Proof.
  unfold single_qubit_gate.
  destruct (gate_class_of g); try (right; intros [? _]; discriminate).
  destruct (target_qubits g) as [|q [|q' l]].
  - right. intros (_ & q & ? & _). discriminate.
  - destruct (decide (q < n)%nat).
    + left. split; [reflexivity|]. exists q. auto.
    + right. intros (_ & q' & [= <-] & ?). contradiction.
  - right. intros (_ & q0 & ? & _). discriminate.
Defined.

(** [m] is the maximum over the qubits [Q] of the clock values
    [qubit_times]: it is attained on [Q] and bounds every clock of [Q]. *)
Definition is_max_over (qubit_times : list Z) (Q : list nat) (m : Z) : Prop :=
  (exists q, q ∈ Q /\ qubit_times !! q = Some m) /\
  forall q t, q ∈ Q -> qubit_times !! q = Some t -> t <= m.

(** *** Properties of the scheduler *)

Lemma py_max_spec a b : py_max a b = Z.max a b.
Proof. unfold py_max. destruct (Z.ltb_spec a b); lia. Qed.

Lemma schedule_app qt l1 l2 :
  schedule qt (l1 ++ l2) = schedule qt l1 ≫= fun qt' => schedule qt' l2.
Proof.
  revert qt. induction l1 as [|g l1 IH]; intros qt; simpl; [reflexivity|].
  destruct (schedule_gate qt g) as [e|qt1]; simpl; [reflexivity | apply IH].
Qed.

Lemma schedule_snoc qt l g after :
  schedule qt (l ++ [g]) = ok after <->
  exists before, schedule qt l = ok before /\ schedule_gate before g = ok after.
Proof.
  rewrite schedule_app, bind_ok. simpl.
  split; intros (before & H1 & H2); exists before; split; try exact H1.
  - destruct (schedule_gate before g); [discriminate | exact H2].
  - now rewrite H2.
Qed.

Lemma align_max_spec qt qs m0 m :
  align_max qt qs m0 = ok m ->
  m0 <= m /\
  (forall q, q ∈ qs -> exists t, qt !! q = Some t /\ t <= m) /\
  (m = m0 \/ exists q, q ∈ qs /\ qt !! q = Some m).
Proof.
  revert m0. induction qs as [|q qs IH]; intros m0; simpl.
  - intros [= <-]. split; [lia|]. split; [|now left].
    intros q Hq. inversion Hq.
  - intros H. apply bind_ok in H as (t & Ht & H).
    apply getitem_ok in Ht. apply IH in H as (Hle & Hall & Hatt).
    rewrite py_max_spec in Hle, Hatt.
    split; [lia|]. split.
    + intros q' Hq'. apply elem_of_cons in Hq' as [-> | Hq'].
      * exists t. split; [exact Ht | lia].
      * apply Hall, Hq'.
    + destruct Hatt as [-> | (q' & Hq' & Hm)].
      * destruct (Z.max_spec m0 t) as [[_ ->] | [_ ->]].
        -- right. exists q. split; [left | exact Ht].
        -- now left.
      * right. exists q'. split; [now right | exact Hm].
Qed.

Lemma align_assign_spec qs qt m qt' :
  align_assign qt qs m = ok qt' ->
  length qt' = length qt /\
  (forall q, q ∈ qs -> qt' !! q = Some m) /\
  (forall q, q ∉ qs -> qt' !! q = qt !! q).
Proof.
  revert qt. induction qs as [|q qs IH]; intros qt; simpl.
  - intros [= <-]. split; [reflexivity|]. split; [|reflexivity].
    intros q Hq. inversion Hq.
  - intros H. apply bind_ok in H as (qt1 & H1 & H).
    apply setitem_ok in H1 as [Hlt ->].
    apply IH in H as (Hlen & Hin & Hout).
    rewrite length_insert in Hlen. split; [exact Hlen|]. split.
    + intros q' Hq'. destruct (decide (q' ∈ qs)) as [Hmem|Hmem]; [now apply Hin|].
      apply elem_of_cons in Hq' as [-> | Hq']; [|contradiction].
      rewrite (Hout q Hmem). now apply list_lookup_insert_eq.
    + intros q' Hq'. apply not_elem_of_cons in Hq' as [Hne Hq'].
      rewrite (Hout q' Hq'). now apply list_lookup_insert_ne.
Qed.

Lemma schedule_gate_length qt g qt' :
  schedule_gate qt g = ok qt' -> length qt' = length qt.
Proof.
  unfold schedule_gate. intros H.
  apply bind_ok in H as (q & _ & H).
  destruct (gate_class_of g).
  - apply bind_ok in H as (m & _ & H). now apply align_assign_spec in H.
  - apply bind_ok in H as (c & _ & H). apply bind_ok in H as (tq & _ & H).
    apply bind_ok in H as (tc & _ & H). cbv zeta in H.
    apply bind_ok in H as (qt1 & H1 & H). apply bind_ok in H as (v & _ & H).
    apply setitem_ok in H1 as [_ ->]. apply setitem_ok in H as [_ ->].
    now rewrite !length_insert.
  - apply bind_ok in H as (t & _ & H). apply setitem_ok in H as [_ ->].
    now rewrite length_insert.
Qed.

Lemma schedule_length qt l qt' : schedule qt l = ok qt' -> length qt' = length qt.
Proof.
  revert qt. induction l as [|g l IH]; intros qt; simpl.
  - now intros [= <-].
  - intros H. apply bind_ok in H as (qt1 & H1 & H).
    rewrite (IH _ H). now apply schedule_gate_length in H1.
Qed.

(** Every failure of the scheduler is an [IndexError]. *)
Lemma align_max_raise qt qs m0 e : align_max qt qs m0 = raise e -> e = IndexError.
Proof.
  revert m0. induction qs as [|q qs IH]; intros m0; simpl; [discriminate|].
  intros H. apply bind_raise in H as [H | (t & _ & H)].
  - now apply getitem_raise in H.
  - now apply IH in H.
Qed.

Lemma align_assign_raise qt qs m e : align_assign qt qs m = raise e -> e = IndexError.
Proof.
  revert qt. induction qs as [|q qs IH]; intros qt; simpl; [discriminate|].
  intros H. apply bind_raise in H as [H | (t & _ & H)].
  - now apply setitem_raise in H.
  - now apply IH in H.
Qed.

Lemma schedule_gate_raise qt g e : schedule_gate qt g = raise e -> e = IndexError.
Proof.
  unfold schedule_gate. intros H.
  apply bind_raise in H as [H | (q & _ & H)]; [now apply getitem_raise in H|].
  destruct (gate_class_of g).
  - apply bind_raise in H as [H | (m & _ & H)].
    + now apply align_max_raise in H.
    + now apply align_assign_raise in H.
  - apply bind_raise in H as [H | (c & _ & H)]; [now apply getitem_raise in H|].
    apply bind_raise in H as [H | (tq & _ & H)]; [now apply getitem_raise in H|].
    apply bind_raise in H as [H | (tc & _ & H)]; [now apply getitem_raise in H|].
    cbv zeta in H.
    apply bind_raise in H as [H | (qt1 & _ & H)]; [now apply setitem_raise in H|].
    apply bind_raise in H as [H | (v & _ & H)]; [now apply getitem_raise in H|].
    now apply setitem_raise in H.
  - apply bind_raise in H as [H | (t & _ & H)]; [now apply getitem_raise in H|].
    now apply setitem_raise in H.
Qed.

Lemma schedule_raise qt l e : schedule qt l = raise e -> e = IndexError.
Proof.
  revert qt. induction l as [|g l IH]; intros qt; simpl; [discriminate|].
  intros H. apply bind_raise in H as [H | (qt1 & _ & H)].
  - now apply schedule_gate_raise in H.
  - now apply IH in H.
Qed.

Lemma schedule_gate_empty_targets qt g :
  target_qubits g = [] -> schedule_gate qt g = raise IndexError.
Proof. intros H. unfold schedule_gate. now rewrite H. Qed.

Lemma schedule_empty_targets qt l g :
  g ∈ l -> target_qubits g = [] -> schedule qt l = raise IndexError.
Proof.
  intros Hin Hg. revert qt. induction l as [|g' l IH]; intros qt; [inversion Hin|].
  simpl. destruct (schedule_gate qt g') as [e|qt1] eqn:E; simpl.
  - now rewrite (schedule_gate_raise _ _ _ E).
  - apply elem_of_cons in Hin as [<- | Hin].
    + rewrite (schedule_gate_empty_targets qt g Hg) in E. discriminate.
    + now apply IH.
Qed.

Lemma schedule_gate_other qt g q rest t :
  gate_class_of g = OtherGate -> target_qubits g = q :: rest -> qt !! q = Some t ->
  schedule_gate qt g = ok (<[q := t + duration g]> qt).
Proof.
  intros Hc Ht Hq. unfold schedule_gate, getitem, setitem. rewrite Hc, Ht. simpl.
  rewrite Hq. simpl. apply lookup_lt_Some in Hq.
  destruct (decide (q < length qt)%nat); [reflexivity | contradiction].
Qed.

Lemma total_duration_cons q g queue :
  total_duration q (g :: queue) =
  if decide (q ∈ target_qubits g) then duration g + total_duration q queue
  else total_duration q queue.
Proof.
  unfold total_duration.
  destruct (decide (q ∈ target_qubits g)) as [Hin|Hin].
  - now rewrite filter_cons_True.
  - now rewrite filter_cons_False.
Qed.

Lemma schedule_single_qubit queue : forall qt,
  Forall (single_qubit_gate (length qt)) queue ->
  exists qt', schedule qt queue = ok qt' /\
    forall q t, qt !! q = Some t -> qt' !! q = Some (t + total_duration q queue).
Proof.
  induction queue as [|g queue IH]; intros qt Hall.
  - exists qt. split; [reflexivity|]. intros q t Hq.
    unfold total_duration. simpl. rewrite Hq. f_equal. lia.
  - apply Forall_cons in Hall as [(Hc & q0 & Ht & Hlt) Hall].
    destruct (lookup_lt_is_Some_2 qt q0 Hlt) as [t0 Hq0].
    pose proof (schedule_gate_other qt g q0 [] t0 Hc Ht Hq0) as Hstep.
    destruct (IH (<[q0 := t0 + duration g]> qt)) as (qt' & Hs & Hval).
    { now rewrite length_insert. }
    exists qt'. split; [simpl; now rewrite Hstep|].
    intros q t Hq. rewrite total_duration_cons, Ht.
    destruct (decide (q ∈ [q0])) as [Hin|Hin].
    + apply list_elem_of_singleton in Hin as ->.
      rewrite Hq0 in Hq. injection Hq as <-.
      rewrite (Hval q0 (t0 + duration g)); [f_equal; lia|].
      now apply list_lookup_insert_eq.
    + rewrite (Hval q t); [reflexivity|].
      rewrite list_lookup_insert_ne; [exact Hq|].
      intros ->. apply Hin. now left.
Qed.

(** C1. For a queue of single-qubit gates (no two-qubit gate, no barrier)
    on [n] qubits, [_calculate_sequence_duration] returns for every qubit
    the sum of the durations of the gates that target it, and
    [_execute_sequence] computes [qubit_times] as [readout_start_time]
    minus that vector: qubit [q] starts at [readout_start_time] minus its
    total duration, so its drive ends at the readout instant. *)
Theorem single_qubit_queue_start_times (readout_start_time : Z) (n : nat) (queue : list Gate) :
  Forall (single_qubit_gate n) queue ->
  exists d,
    _calculate_sequence_duration n queue = ok d /\
    execute_sequence_qubit_times readout_start_time n queue
      = ok ((fun x => readout_start_time - x) <$> d) /\
    length d = n /\
    forall q, (q < n)%nat ->
      d !! q = Some (total_duration q queue) /\
      exists start,
        ((fun x => readout_start_time - x) <$> d) !! q = Some start /\
        start = readout_start_time - total_duration q queue /\
        start + total_duration q queue = readout_start_time.
Proof.
  intros Hall. unfold execute_sequence_qubit_times, _calculate_sequence_duration.
  destruct (schedule_single_qubit queue (replicate n 0)) as (d & Hs & Hval).
  { now rewrite length_replicate. }
  exists d. rewrite Hs. split; [reflexivity|]. split; [reflexivity|].
  split.
  { apply schedule_length in Hs. now rewrite length_replicate in Hs. }
  intros q Hq.
  assert (Hd : d !! q = Some (total_duration q queue)).
  { rewrite (Hval q 0); [f_equal; lia|]. now apply lookup_replicate_2. }
  split; [exact Hd|].
  exists (readout_start_time - total_duration q queue).
  rewrite list_lookup_fmap, Hd. simpl. repeat split. lia.
Qed.

Lemma single_qubit_queue_start_times_witness :
  exists d,
    _calculate_sequence_duration 2
      [mkGate OtherGate [0%nat] [] 3; mkGate OtherGate [1%nat] [] 5;
       mkGate OtherGate [0%nat] [] 4] = ok d /\
    d = [7; 5] /\ (fun x => 100 - x) <$> d = [93; 95].
Proof.
  destruct (single_qubit_queue_start_times 100 2
      [mkGate OtherGate [0%nat] [] 3; mkGate OtherGate [1%nat] [] 5;
       mkGate OtherGate [0%nat] [] 4]) as (d & Hd & _).
  - repeat apply List.Forall_cons; try apply List.Forall_nil;
      (split; [reflexivity | eexists; split; [reflexivity | lia]]).
  - exists d. split; [exact Hd|].
    vm_compute in Hd. injection Hd as <-. split; reflexivity.
Defined.

(** Clocks never become negative when durations are not. *)
Lemma schedule_gate_nonneg qt g qt' :
  Forall (fun t => 0 <= t) qt -> 0 <= duration g ->
  schedule_gate qt g = ok qt' -> Forall (fun t => 0 <= t) qt'.
Proof.
  intros Hqt Hd H. unfold schedule_gate in H.
  apply bind_ok in H as (q & _ & H).
  destruct (gate_class_of g).
  - apply bind_ok in H as (m & Hm & H).
    apply align_max_spec in Hm as (Hm & _).
    apply align_assign_spec in H as (_ & Hin & Hout).
    apply Forall_lookup. intros i x Hi.
    destruct (decide (i ∈ target_qubits g)) as [Hmem|Hmem].
    + rewrite (Hin i Hmem) in Hi. injection Hi as <-. exact Hm.
    + rewrite (Hout i Hmem) in Hi. revert Hi. now apply Forall_lookup.
  - apply bind_ok in H as (c & _ & H). apply bind_ok in H as (tq & Htq & H).
    apply bind_ok in H as (tc & Htc & H). cbv zeta in H.
    apply bind_ok in H as (qt1 & H1 & H). apply bind_ok in H as (v & Hv & H).
    apply getitem_ok in Htq, Htc, Hv.
    apply setitem_ok in H1 as [Hlt ->]. apply setitem_ok in H as [_ ->].
    rewrite list_lookup_insert_eq in Hv by exact Hlt. injection Hv as <-.
    assert (0 <= tq) by (revert Htq; now apply Forall_lookup).
    rewrite py_max_spec.
    apply Forall_insert; [apply Forall_insert; [exact Hqt|] |]; lia.
  - apply bind_ok in H as (t & Ht & H). apply getitem_ok in Ht.
    apply setitem_ok in H as [_ ->].
    assert (0 <= t) by (revert Ht; now apply Forall_lookup).
    apply Forall_insert; [exact Hqt | lia].
Qed.

Lemma schedule_nonneg l : forall qt qt',
  Forall (fun t => 0 <= t) qt -> Forall (fun g => 0 <= duration g) l ->
  schedule qt l = ok qt' -> Forall (fun t => 0 <= t) qt'.
Proof.
  induction l as [|g l IH]; intros qt qt' Hqt Hl; simpl.
  - now intros [= <-].
  - intros H. apply bind_ok in H as (qt1 & H1 & H).
    apply Forall_cons in Hl as [Hg Hl].
    apply (IH qt1 qt'); [|exact Hl|exact H].
    now apply (schedule_gate_nonneg qt g).
Qed.

(** What the [Align] branch does from an arbitrary state: the common value
    is the larger of 0 (the seed of [m]) and the clocks of [Q]. *)
Lemma schedule_gate_align before g after :
  gate_class_of g = Align -> schedule_gate before g = ok after ->
  exists m,
    0 <= m /\
    (forall q, q ∈ target_qubits g -> exists t, before !! q = Some t /\ t <= m) /\
    (m = 0 \/ exists q, q ∈ target_qubits g /\ before !! q = Some m) /\
    (exists q, q ∈ target_qubits g) /\
    (forall q, q ∈ target_qubits g -> after !! q = Some m) /\
    (forall q, q ∉ target_qubits g -> after !! q = before !! q).
Proof.
  intros Hc H. unfold schedule_gate in H. rewrite Hc in H.
  apply bind_ok in H as (q0 & Hq0 & H). apply getitem_ok in Hq0.
  apply bind_ok in H as (m & Hm & H).
  apply align_max_spec in Hm as (Hle & Hbound & Hatt).
  apply align_assign_spec in H as (_ & Hin & Hout).
  exists m. repeat split; try assumption.
  exists q0. now apply list_elem_of_lookup_2 in Hq0.
Qed.

(** C3 (amended). When [_calculate_sequence_duration] processes an [Align]
    gate over the qubits [Q] after a prefix of gates with non-negative
    durations, every qubit of [Q] holds the same clock value immediately
    afterwards, and that value is the maximum over [Q] of the clock values
    held just before the [Align]. *)
Theorem align_sets_common_maximum (n : nat) (pre : list Gate) (gate : Gate)
    (before after : list Z) :
  Forall (fun g => 0 <= duration g) pre ->
  gate_class_of gate = Align ->
  _calculate_sequence_duration n pre = ok before ->
  _calculate_sequence_duration n (pre ++ [gate]) = ok after ->
  exists m,
    is_max_over before (target_qubits gate) m /\
    forall q, q ∈ target_qubits gate -> after !! q = Some m.
Proof.
  unfold _calculate_sequence_duration. intros Hpre Hc Hb Ha.
  apply schedule_snoc in Ha as (before' & Hb' & Hstep).
  rewrite Hb in Hb'. injection Hb' as <-.
  assert (Hnn : Forall (fun t => 0 <= t) before).
  { apply (schedule_nonneg pre (replicate n 0)); [|exact Hpre|exact Hb].
    apply Forall_replicate. lia. }
  destruct (schedule_gate_align _ _ _ Hc Hstep)
    as (m & Hm0 & Hbound & Hatt & (q0 & Hq0) & Hin & _).
  exists m. split; [|exact Hin]. split.
  - destruct Hatt as [-> | Hatt]; [|exact Hatt].
    exists q0. split; [exact Hq0|].
    destruct (Hbound q0 Hq0) as (t & Ht & Hle).
    assert (0 <= t) by (revert Ht; now apply Forall_lookup).
    rewrite Ht. f_equal. lia.
  - intros q t Hq Ht. destruct (Hbound q Hq) as (t' & Ht' & Hle).
    rewrite Ht in Ht'. injection Ht' as <-. exact Hle.
Qed.

Lemma align_sets_common_maximum_witness :
  exists m,
    is_max_over [3; 8; 5] [0%nat; 2%nat] m /\
    forall q, q ∈ [0%nat; 2%nat] -> [5; 8; 5] !! q = Some m.
Proof.
  apply (align_sets_common_maximum 3
           [mkGate OtherGate [0%nat] [] 3; mkGate OtherGate [1%nat] [] 8;
            mkGate OtherGate [2%nat] [] 5]
           (mkGate Align [0%nat; 2%nat] [] 0) [3; 8; 5] [5; 8; 5]).
  - repeat apply List.Forall_cons; try apply List.Forall_nil; simpl; lia.
  - reflexivity.
  - reflexivity.
  - reflexivity.
Defined.

(** C3 as stated fails when a gate before the [Align] has a negative
    duration: the accumulator [m] starts at 0, so the clocks -3 and -1
    are both set to 0, which neither of the two qubits held before the
    [Align] and which is not their maximum -1. *)
Lemma align_negative_durations_counterexample :
  _calculate_sequence_duration 2
    [mkGate OtherGate [0%nat] [] (-3); mkGate OtherGate [1%nat] [] (-1)] = ok [-3; -1] /\
  _calculate_sequence_duration 2
    ([mkGate OtherGate [0%nat] [] (-3); mkGate OtherGate [1%nat] [] (-1)]
     ++ [mkGate Align [0%nat; 1%nat] [] 0]) = ok [0; 0] /\
  ~ is_max_over [-3; -1] [0%nat; 1%nat] 0.
Proof.
  split; [reflexivity|]. split; [reflexivity|].
  intros [(q & Hq & Hl) _].
  apply elem_of_cons in Hq as [-> | Hq]; [discriminate|].
  apply elem_of_cons in Hq as [-> | Hq]; [discriminate|].
  inversion Hq.
Qed.

(** The [Align] branch without any assumption on durations: the common
    value is the larger of 0 and the clocks of [Q] (the accumulator [m]
    starts at 0), and the qubits outside [Q] keep their clocks. *)
Theorem align_from_any_state (n : nat) (pre : list Gate) (gate : Gate)
    (before after : list Z) :
  gate_class_of gate = Align ->
  _calculate_sequence_duration n pre = ok before ->
  _calculate_sequence_duration n (pre ++ [gate]) = ok after ->
  exists m,
    (forall q, q ∈ target_qubits gate -> after !! q = Some m) /\
    (forall q, q ∉ target_qubits gate -> after !! q = before !! q) /\
    0 <= m /\
    (forall q t, q ∈ target_qubits gate -> before !! q = Some t -> t <= m) /\
    (m = 0 \/ exists q, q ∈ target_qubits gate /\ before !! q = Some m).
Proof.
  unfold _calculate_sequence_duration. intros Hc Hb Ha.
  apply schedule_snoc in Ha as (before' & Hb' & Hstep).
  rewrite Hb in Hb'. injection Hb' as <-.
  destruct (schedule_gate_align _ _ _ Hc Hstep)
    as (m & Hm0 & Hbound & Hatt & _ & Hin & Hout).
  exists m. repeat split; try assumption.
  intros q t Hq Ht. destruct (Hbound q Hq) as (t' & Ht' & Hle).
  rewrite Ht in Ht'. injection Ht' as <-. exact Hle.
Qed.

Lemma align_from_any_state_witness :
  exists m,
    (forall q, q ∈ [0%nat; 1%nat] -> [0; 0] !! q = Some m) /\
    (forall q, q ∉ [0%nat; 1%nat] -> ([0; 0] : list Z) !! q = [-3; -1] !! q) /\
    0 <= m /\
    (forall q t, q ∈ [0%nat; 1%nat] -> [-3; -1] !! q = Some t -> t <= m) /\
    (m = 0 \/ exists q, q ∈ [0%nat; 1%nat] /\ [-3; -1] !! q = Some m).
Proof.
  apply (align_from_any_state 2
           [mkGate OtherGate [0%nat] [] (-3); mkGate OtherGate [1%nat] [] (-1)]
           (mkGate Align [0%nat; 1%nat] [] 0) [-3; -1] [0; 0]);
    reflexivity.
Defined.

(** What the [CNOT] branch does from an arbitrary state. *)
Lemma schedule_gate_cnot before g after :
  gate_class_of g = CNOT -> schedule_gate before g = ok after ->
  exists target control t_target t_control,
    target_qubits g !! 0%nat = Some target /\
    control_qubits g !! 0%nat = Some control /\
    before !! target = Some t_target /\
    before !! control = Some t_control /\
    after = <[control := Z.max t_target t_control + duration g]>
              (<[target := Z.max t_target t_control + duration g]> before).
Proof.
  intros Hc H. unfold schedule_gate in H. rewrite Hc in H.
  apply bind_ok in H as (q & Hq & H). apply bind_ok in H as (c & Hcq & H).
  apply bind_ok in H as (tq & Htq & H). apply bind_ok in H as (tc & Htc & H).
  cbv zeta in H.
  apply bind_ok in H as (qt1 & H1 & H). apply bind_ok in H as (v & Hv & H).
  apply getitem_ok in Hq, Hcq, Htq, Htc, Hv.
  apply setitem_ok in H1 as [Hlt ->]. apply setitem_ok in H as [_ ->].
  rewrite list_lookup_insert_eq in Hv by exact Hlt. injection Hv as <-.
  rewrite py_max_spec.
  exists q, c, tq, tc. repeat split; assumption.
Qed.

(** C4 (amended). When [_calculate_sequence_duration] processes a [CNOT]
    gate on (control, target), immediately afterwards the clocks of
    control and target are equal, and both equal the maximum of the two
    clock values held before the gate plus the gate's duration. *)
Theorem cnot_synchronises_operands (n : nat) (pre : list Gate) (gate : Gate)
    (before after : list Z) :
  gate_class_of gate = CNOT ->
  _calculate_sequence_duration n pre = ok before ->
  _calculate_sequence_duration n (pre ++ [gate]) = ok after ->
  exists target control t_target t_control,
    target_qubits gate !! 0%nat = Some target /\
    control_qubits gate !! 0%nat = Some control /\
    before !! target = Some t_target /\
    before !! control = Some t_control /\
    after !! control = after !! target /\
    after !! target = Some (Z.max t_target t_control + duration gate).
Proof.
  unfold _calculate_sequence_duration. intros Hc Hb Ha.
  apply schedule_snoc in Ha as (before' & Hb' & Hstep).
  rewrite Hb in Hb'. injection Hb' as <-.
  destruct (schedule_gate_cnot _ _ _ Hc Hstep)
    as (q & c & tq & tc & Hq & Hcq & Htq & Htc & ->).
  exists q, c, tq, tc. repeat split; try assumption.
  - apply lookup_lt_Some in Htq, Htc.
    rewrite list_lookup_insert_eq by now rewrite length_insert.
    destruct (decide (c = q)) as [->|Hne].
    + rewrite list_lookup_insert_eq by now rewrite length_insert. reflexivity.
    + rewrite list_lookup_insert_ne by exact Hne.
      now rewrite list_lookup_insert_eq.
  - apply lookup_lt_Some in Htq, Htc.
    destruct (decide (c = q)) as [->|Hne].
    + rewrite list_lookup_insert_eq by now rewrite length_insert. reflexivity.
    + rewrite list_lookup_insert_ne by exact Hne.
      now rewrite list_lookup_insert_eq.
Qed.

Lemma cnot_synchronises_operands_witness :
  exists target control t_target t_control,
    [1%nat] !! 0%nat = Some target /\ [0%nat] !! 0%nat = Some control /\
    [3; 8] !! target = Some t_target /\ [3; 8] !! control = Some t_control /\
    [10; 10] !! control = [10; 10] !! target /\
    [10; 10] !! target = Some (Z.max t_target t_control + 2).
Proof.
  apply (cnot_synchronises_operands 2
           [mkGate OtherGate [0%nat] [] 3; mkGate OtherGate [1%nat] [] 8]
           (mkGate CNOT [1%nat] [0%nat] 2) [3; 8] [10; 10]);
    reflexivity.
Defined.

(** C4 as stated fails for a two-qubit controlled gate that is not an
    instance of [CNOT] (a CZ with control 0 and target 1, say): it takes
    the default branch, which advances the target only. *)
Lemma controlled_gate_not_cnot_counterexample :
  control_qubits (mkGate OtherGate [1%nat] [0%nat] 5) = [0%nat] /\
  target_qubits (mkGate OtherGate [1%nat] [0%nat] 5) = [1%nat] /\
  _calculate_sequence_duration 2 [mkGate OtherGate [1%nat] [0%nat] 5] = ok [0; 5] /\
  ([0; 5] : list Z) !! 0%nat <> ([0; 5] : list Z) !! 1%nat.
Proof. repeat split. discriminate. Qed.

(** C6 (amended). A queue that contains a gate with no target qubit makes
    [_calculate_sequence_duration] fail with [IndexError] (the subscript
    [gate.target_qubits[0]], or an earlier out-of-range subscript); and the
    empty queue yields the all-zero vector of length [n]. *)
Theorem empty_targets_raise_IndexError (n : nat) (queue : list Gate) (gate : Gate) :
  gate ∈ queue -> target_qubits gate = [] ->
  _calculate_sequence_duration n queue = raise IndexError /\
  _calculate_sequence_duration n [] = ok (replicate n 0).
Proof.
  intros Hin Hg. split.
  - unfold _calculate_sequence_duration. now apply (schedule_empty_targets _ _ gate).
  - reflexivity.
Qed.

Lemma empty_targets_raise_IndexError_witness :
  _calculate_sequence_duration 2
    [mkGate OtherGate [0%nat] [] 3; mkGate Align [] [] 0] = raise IndexError /\
  _calculate_sequence_duration 2 [] = ok [0; 0].
Proof.
  apply (empty_targets_raise_IndexError 2
           [mkGate OtherGate [0%nat] [] 3; mkGate Align [] [] 0] (mkGate Align [] [] 0)).
  - apply list_elem_of_In. simpl. auto.
  - reflexivity.
Defined.

(** C6 as stated fails: the error raised for an empty [target_qubits] is
    [IndexError], not [InvalidGateError]. *)
Lemma empty_targets_not_InvalidGateError_counterexample :
  _calculate_sequence_duration 1 [mkGate OtherGate [] [] 1] = raise IndexError /\
  _calculate_sequence_duration 1 [mkGate OtherGate [] [] 1] <> raise InvalidGateError.
Proof. split; [reflexivity | discriminate]. Qed.

(** *** Properties of the calibration frame rotation *)

Section Calibration.

#[local] Open Scope R_scope.

Lemma np_sign_neg y : y < 0 -> np_sign y = -1.
Proof. intros H. unfold np_sign. destruct (Rlt_dec y 0); [reflexivity | lra]. Qed.

Lemma np_sign_pos y : 0 < y -> np_sign y = 1.
Proof.
  intros H. unfold np_sign.
  destruct (Rlt_dec y 0); [lra|]. destruct (Rlt_dec 0 y); [reflexivity | lra].
Qed.

Lemma np_sign_zero : np_sign 0 = 0.
Proof.
  unfold np_sign. destruct (Rlt_dec 0 0); [lra|]. reflexivity.
Qed.

(** The body of [_probability_extraction] on the components of its
    arguments. *)
Lemma probability_extraction_unfold dx dy x0 y0 x1 y1 :
  let x := x1 - x0 in
  let y := y1 - y0 in
  let a := dx - x0 in
  let b := dy - y0 in
  let angle := acos (x / sqrt (x ^ 2 + y ^ 2)) * np_sign y in
  let nd := a * cos angle + b * sin angle in
  let nr := x * cos angle + y * sin angle in
  _probability_extraction (dx, dy) (x0, y0) (x1, y1)
  = (if Rlt_dec nd 0 then 0 else if Rlt_dec nr nd then nr else nd) / nr.
Proof. reflexivity. Qed.

(** Off the half-line where [refer_1 - refer_0] points along the negative
    x-axis, the computed angle is the polar angle of [refer_1 - refer_0]. *)
Lemma rotation_angle_polar x y :
  y <> 0 \/ 0 < x ->
  let r := sqrt (x ^ 2 + y ^ 2) in
  let angle := acos (x / r) * np_sign y in
  0 < r /\ cos angle = x / r /\ sin angle = y / r.
Proof.
  intros Hxy r angle.
  assert (Hpos : 0 < x ^ 2 + y ^ 2) by (destruct Hxy; nra).
  assert (Hr : 0 < r) by (apply sqrt_lt_R0; exact Hpos).
  assert (Hrr : r * r = x ^ 2 + y ^ 2) by (apply sqrt_sqrt; lra).
  assert (Hx : - r <= x <= r) by (split; nra).
  assert (Ht : -1 <= x / r <= 1).
  { assert (x / r * r = x) by (field; lra). split; nra. }
  assert (Hsin : sin (acos (x / r)) = Rabs y / r).
  { rewrite sin_acos by exact Ht.
    replace (1 - (x / r)²) with ((Rabs y / r) * (Rabs y / r)).
    - apply sqrt_square. apply Rmult_le_pos; [apply Rabs_pos|].
      left. now apply Rinv_0_lt_compat.
    - unfold Rsqr.
      assert (Habs : Rabs y * Rabs y = y * y).
      { unfold Rabs. destruct (Rcase_abs y); ring. }
      assert (Hy2 : y * y = r * r - x * x) by lra.
      replace (Rabs y / r * (Rabs y / r)) with ((Rabs y * Rabs y) / (r * r))
        by (field; lra).
      replace (1 - x / r * (x / r)) with ((r * r - x * x) / (r * r)) by (field; lra).
      now rewrite Habs, Hy2. }
  split; [exact Hr|].
  destruct (Rtotal_order y 0) as [Hy | [Hy | Hy]].
  - unfold angle. rewrite (np_sign_neg y Hy).
    replace (acos (x / r) * -1) with (- acos (x / r)) by ring.
    rewrite cos_neg, sin_neg, Hsin, (cos_acos _ Ht).
    split; [reflexivity|]. rewrite (Rabs_left y Hy). field. lra.
  - subst y. destruct Hxy as [Hxy | Hxy]; [contradiction|].
    unfold angle. rewrite np_sign_zero, Rmult_0_r, cos_0, sin_0.
    assert (Hrx : r = x).
    { unfold r. replace (x ^ 2 + 0 ^ 2) with (x * x) by ring.
      apply sqrt_square. lra. }
    rewrite Hrx. split; [symmetry; apply Rinv_r; lra | unfold Rdiv; ring].
  - unfold angle. rewrite (np_sign_pos y Hy), Rmult_1_r.
    rewrite Hsin, (cos_acos _ Ht).
    split; [reflexivity|]. rewrite (Rabs_right y) by lra. reflexivity.
Qed.

(** In that case the rotated [refer_1] is [(r, 0)] and the result is the
    projection of [data - refer_0] on the calibration axis, clipped to
    [[0, r]] and divided by [r]. *)
Lemma probability_extraction_polar dx dy x0 y0 x1 y1 :
  y1 <> y0 \/ x0 < x1 ->
  let r := sqrt ((x1 - x0) ^ 2 + (y1 - y0) ^ 2) in
  let p := ((dx - x0) * (x1 - x0) + (dy - y0) * (y1 - y0)) / r in
  0 < r /\
  _probability_extraction (dx, dy) (x0, y0) (x1, y1)
  = (if Rlt_dec p 0 then 0 else if Rlt_dec r p then r else p) / r.
Proof.
  intros H r p.
  destruct (rotation_angle_polar (x1 - x0) (y1 - y0)) as (Hr & Hcos & Hsin).
  { destruct H; [left | right]; lra. }
  fold r in Hr, Hcos, Hsin. split; [exact Hr|].
  rewrite probability_extraction_unfold. cbv zeta. fold r.
  rewrite Hcos, Hsin.
  assert (Hrr : r * r = (x1 - x0) ^ 2 + (y1 - y0) ^ 2).
  { apply sqrt_sqrt. apply Rplus_le_le_0_compat; apply pow2_ge_0. }
  replace ((x1 - x0) * ((x1 - x0) / r) + (y1 - y0) * ((y1 - y0) / r)) with r
    by (field_simplify_eq; [nra | lra]).
  replace ((dx - x0) * ((x1 - x0) / r) + (dy - y0) * ((y1 - y0) / r)) with p
    by (unfold p; field; lra).
  reflexivity.
Qed.

(** C2, at the failing input: with [refer_0 = (1, 0)] and
    [refer_1 = (0, 0)] the vector [refer_1 - refer_0] lies on the negative
    x-axis, [np.sign] of its y-coordinate is 0, no rotation is applied, and
    the two end points are exchanged: [data = refer_1] yields 0 and
    [data = refer_0] yields 1. *)
Theorem probability_extraction_negative_axis :
  _probability_extraction (0, 0) (1, 0) (0, 0) = 0 /\
  _probability_extraction (1, 0) (1, 0) (0, 0) = 1.
Proof.
  assert (Hangle : acos ((0 - 1) / sqrt ((0 - 1) ^ 2 + (0 - 0) ^ 2)) * np_sign (0 - 0) = 0).
  { replace (0 - 0) with 0 by ring. rewrite np_sign_zero. ring. }
  split; rewrite probability_extraction_unfold; cbv zeta;
    rewrite Hangle, cos_0, sin_0.
  - destruct (Rlt_dec ((0 - 1) * 1 + (0 - 0) * 0) 0); [|lra]. field.
  - destruct (Rlt_dec ((1 - 1) * 1 + (0 - 0) * 0) 0); [lra|].
    destruct (Rlt_dec ((0 - 1) * 1 + (0 - 0) * 0) ((1 - 1) * 1 + (0 - 0) * 0)); [|lra].
    field.
Qed.

(** On the negative x-axis in general: no rotation, end points exchanged. *)
Lemma probability_extraction_negative_axis_general dx dy x0 x1 y :
  x1 < x0 ->
  _probability_extraction (dx, dy) (x0, y) (x1, y)
  = if Rlt_dec (dx - x0) 0 then 0 else 1.
Proof.
  intros Hlt. rewrite probability_extraction_unfold. cbv zeta.
  replace (y - y) with 0 by ring.
  rewrite np_sign_zero, Rmult_0_r, cos_0, sin_0.
  replace ((dx - x0) * 1 + (dy - y) * 0) with (dx - x0) by ring.
  replace ((x1 - x0) * 1 + 0 * 0) with (x1 - x0) by ring.
  destruct (Rlt_dec (dx - x0) 0); [unfold Rdiv; ring|].
  destruct (Rlt_dec (x1 - x0) (dx - x0)); [|lra].
  apply Rinv_r. lra.
Qed.

(** The result lies in [[0, 1]] whenever the two reference points differ. *)
Theorem probability_extraction_in_unit_interval (data refer_0 refer_1 : R * R) :
  refer_0 <> refer_1 ->
  0 <= _probability_extraction data refer_0 refer_1 <= 1.
Proof.
  destruct data as [dx dy], refer_0 as [x0 y0], refer_1 as [x1 y1]. intros Hne.
  destruct (Req_dec y1 y0) as [Hy | Hy].
  - subst y1. destruct (Rtotal_order x0 x1) as [Hx | [Hx | Hx]].
    + destruct (probability_extraction_polar dx dy x0 y0 x1 y0) as (Hr & ->); [now right|].
      cbv zeta in *.
      set (r := sqrt ((x1 - x0) ^ 2 + (y0 - y0) ^ 2)) in *.
      set (p := ((dx - x0) * (x1 - x0) + (dy - y0) * (y0 - y0)) / r).
      destruct (Rlt_dec p 0); [unfold Rdiv; rewrite Rmult_0_l; lra|].
      destruct (Rlt_dec r p).
      * rewrite Rdiv_diag by lra. lra.
      * split.
        -- apply Rmult_le_pos; [lra|]. left. now apply Rinv_0_lt_compat.
        -- apply (Rmult_le_reg_r r); [exact Hr|].
           unfold Rdiv. rewrite Rmult_assoc, Rinv_l by lra. lra.
    + subst x1. now contradiction Hne.
    + rewrite probability_extraction_negative_axis_general by exact Hx.
      destruct (Rlt_dec (dx - x0) 0); lra.
  - destruct (probability_extraction_polar dx dy x0 y0 x1 y1) as (Hr & ->); [now left|].
    cbv zeta in *.
    set (r := sqrt ((x1 - x0) ^ 2 + (y1 - y0) ^ 2)) in *.
    set (p := ((dx - x0) * (x1 - x0) + (dy - y0) * (y1 - y0)) / r).
    destruct (Rlt_dec p 0); [unfold Rdiv; rewrite Rmult_0_l; lra|].
    destruct (Rlt_dec r p).
    + rewrite Rdiv_diag by lra. lra.
    + split.
      * apply Rmult_le_pos; [lra|]. left. now apply Rinv_0_lt_compat.
      * apply (Rmult_le_reg_r r); [exact Hr|].
        unfold Rdiv. rewrite Rmult_assoc, Rinv_l by lra. lra.
Qed.

Lemma probability_extraction_in_unit_interval_witness :
  0 <= _probability_extraction (3, 4) (0, 0) (1, 0) <= 1.
Proof.
  apply (probability_extraction_in_unit_interval (3, 4) (0, 0) (1, 0)).
  intros [= H]. lra.
Defined.

(** The two end points are mapped to 0 and 1 unless [refer_1 - refer_0]
    points along the negative x-axis. *)
Theorem probability_extraction_end_points (x0 y0 x1 y1 : R) :
  y1 <> y0 \/ x0 < x1 ->
  _probability_extraction (x0, y0) (x0, y0) (x1, y1) = 0 /\
  _probability_extraction (x1, y1) (x0, y0) (x1, y1) = 1.
Proof.
  intros H. split.
  - destruct (probability_extraction_polar x0 y0 x0 y0 x1 y1 H) as (Hr & ->).
    cbv zeta in *.
    set (r := sqrt ((x1 - x0) ^ 2 + (y1 - y0) ^ 2)) in *.
    replace (((x0 - x0) * (x1 - x0) + (y0 - y0) * (y1 - y0)) / r) with 0
      by (unfold Rdiv; ring).
    destruct (Rlt_dec 0 0); [lra|]. destruct (Rlt_dec r 0); [lra|].
    unfold Rdiv. ring.
  - destruct (probability_extraction_polar x1 y1 x0 y0 x1 y1 H) as (Hr & ->).
    cbv zeta in *.
    set (r := sqrt ((x1 - x0) ^ 2 + (y1 - y0) ^ 2)) in *.
    assert (Hrr : r * r = (x1 - x0) ^ 2 + (y1 - y0) ^ 2).
    { apply sqrt_sqrt. apply Rplus_le_le_0_compat; apply pow2_ge_0. }
    replace (((x1 - x0) * (x1 - x0) + (y1 - y0) * (y1 - y0)) / r) with r.
    + destruct (Rlt_dec r 0); [lra|]. destruct (Rlt_dec r r); [lra|].
      apply Rinv_r. lra.
    + apply (Rmult_eq_reg_r r); [|lra].
      unfold Rdiv. rewrite Rmult_assoc, Rinv_l by lra. lra.
Qed.

Lemma probability_extraction_end_points_witness :
  _probability_extraction (0, 0) (0, 0) (1, 0) = 0 /\
  _probability_extraction (1, 0) (0, 0) (1, 0) = 1.
Proof.
  apply (probability_extraction_end_points 0 0 1 0). right. lra.
Defined.

End Calibration.

(** *** [PulseSequence.compile] with additive pulses *)

Section PulseSequenceCompile.

#[local] Open Scope R_scope.

Variable Pulse : Type.
Variable pulse_compile : Pulse -> list (list R) -> list (list R).
Variable nchannels sample_size : nat.

(** Modelled from the spec: [pulse.compile] is missing from the sources;
    by section 4.2 a pulse renders its samples over its window on its
    channel and compilation must "accumulate (sum, not overwrite) into the
    destination channel's sample window".  [rendering pulse] is the array
    holding those samples and zero elsewhere. *)
Variable rendering : Pulse -> list (list R).
Hypothesis rendering_shape : forall pulse, has_shape nchannels sample_size (rendering pulse).
Hypothesis pulse_compile_accumulates :
  forall pulse waveform, pulse_compile pulse waveform = waveform_add waveform (rendering pulse).

Lemma zero_row_add (k : nat) (row : list R) :
  length row = k -> zip_with Rplus (replicate k 0) row = row.
Proof.
  intros <-. induction row as [|x row IH]; [reflexivity|].
  simpl. rewrite IH. f_equal. lra.
Qed.

Lemma waveform_zeros_add (w : list (list R)) :
  has_shape nchannels sample_size w ->
  waveform_add (waveform_zeros nchannels sample_size) w = w.
Proof.
  unfold has_shape, waveform_add, waveform_zeros. intros [Hn Hrows].
  rewrite <- Hn. clear Hn.
  induction w as [|row w IH]; [reflexivity|].
  apply Forall_cons in Hrows as [E Hrows]. simpl.
  rewrite (zero_row_add _ _ E). f_equal. now apply IH.
Qed.

(** With such pulses the fold of [PulseSequence.compile] superposes: the
    two-pulse waveform is the sum of the two single-pulse waveforms. *)
Lemma pulse_sequence_compile_superposition (pulse1 pulse2 : Pulse) :
  PulseSequence_compile pulse_compile nchannels sample_size [pulse1; pulse2]
  = waveform_add
      (PulseSequence_compile pulse_compile nchannels sample_size [pulse1])
      (PulseSequence_compile pulse_compile nchannels sample_size [pulse2]).
Proof.
  unfold PulseSequence_compile. simpl.
  rewrite !pulse_compile_accumulates.
  now rewrite (waveform_zeros_add (rendering pulse2)).
Qed.

End PulseSequenceCompile.

(** *** Properties of circuit execution *)

Section ExecuteProperties.

Variable readout_start_time : Z.
Variable basis_states : nat -> list (list Gate).
Variable gate_sequence : nat -> list (list Gate).

(** C7, at the failing inputs: when [check_tomography_required()] returns
    a boolean and the circuit's [_density_matrix] is a boolean (its
    default is [False]), [execute] fetches the configuration, consults the
    flag once and then raises [TypeError] from [len(...)]: neither
    [_execute_tomography_sequence] nor [_execute_sequence] runs. *)
Theorem execute_boolean_flag_raises_TypeError (n : nat) (queue : list Gate)
    (target_qubits : list nat) (nshots : pyobj) (required density_matrix : bool) :
  execute readout_start_time (PyBool required) basis_states gate_sequence
    (mkHardwareCircuit n (PyBool density_matrix) queue (Some target_qubits))
    PyNone nshots
  = ([fetch_config; check_tomography_required], raise TypeError).
Proof.
  unfold execute. simpl.
  destruct required, density_matrix; reflexivity.
Qed.

Lemma tomography_trace self target_qubits nshots :
  forall c, c ∈ (_execute_tomography_sequence basis_states gate_sequence
                   self target_qubits nshots).1 ->
    exists ps_array, c = execute_tomography ps_array nshots.
Proof.
  intros c. unfold _execute_tomography_sequence, prog_lift, prog_bind, prog_call, prog_ret.
  destruct (tomography_requests self _) as [e|states]; simpl; [intros H; inversion H|].
  destruct (tomography_requests self _) as [e|rotated]; simpl; [intros H; inversion H|].
  intros H. apply list_elem_of_singleton in H. eauto.
Qed.

(** A call that differs from every element of an explicit trace is not in
    it. *)
Ltac not_in_trace :=
  let H := fresh "H" in
  intros H; repeat (apply elem_of_cons in H as [H|H]; [discriminate|]);
  now inversion H.

Lemma not_in_tomography self target_qubits nshots pulse_sequence shots t r :
  _execute_tomography_sequence basis_states gate_sequence self target_qubits nshots = (t, r) ->
  execute_pulse_sequence pulse_sequence shots ∉ t.
Proof.
  intros E H.
  pose proof (tomography_trace self target_qubits nshots
                (execute_pulse_sequence pulse_sequence shots)) as Ht.
  rewrite E in Ht. destruct (Ht H) as (? & ?). discriminate.
Qed.

(** The same when the trace ends with that of the tomography path. *)
Ltac not_in_tomography_trace :=
  let E := fresh "E" in
  let H := fresh "H" in
  destruct (_execute_tomography_sequence _ _ _ _ _) as [? ?] eqn:E; simpl;
  intros H; repeat (apply elem_of_cons in H as [H|H]; [discriminate|]);
  exact (not_in_tomography _ _ _ _ _ _ _ E H).

(** With a boolean [_density_matrix], and a tomography flag that is
    [None], a [bool], an [int], a [str], a [tuple], a [list] or an
    instance of a class defining neither [__len__] nor [__bool__] (the
    objects of [pyobj], for which a true value never has length 0),
    [execute] never hands a single sequence to
    [scheduler.execute_pulse_sequence]. *)
Theorem execute_never_single_sequence (required : pyobj) (n : nat) (queue : list Gate)
    (measurement : option (list nat)) (initial_state nshots : pyobj)
    (density_matrix : bool) (pulse_sequence : PulseSequenceRequest) (shots : pyobj) :
  execute_pulse_sequence pulse_sequence shots ∉
    (execute readout_start_time required basis_states gate_sequence
       (mkHardwareCircuit n (PyBool density_matrix) queue measurement)
       initial_state nshots).1.
Proof.
  unfold execute. simpl.
  destruct (is_none initial_state); simpl; [|apply not_elem_of_nil].
  destruct measurement as [target_qubits|]; simpl; [|apply not_elem_of_nil].
  unfold py_or. destruct (truthy required) eqn:Htruthy.
  - destruct required as [|b|z|str|items|items|id]; simpl in *;
      try discriminate; try not_in_trace.
    + destruct (String.length str); simpl in *; [discriminate|].
      not_in_tomography_trace.
    + destruct (length items); simpl in *; [discriminate|].
      not_in_tomography_trace.
    + destruct (length items); simpl in *; [discriminate|].
      not_in_tomography_trace.
  - simpl. not_in_trace.
Qed.

(** C9. Every invocation of [HardwareCircuit.__call__] raises [TypeError]
    before any call into the scheduler: [__call__] passes three positional
    arguments to [execute], which accepts two. *)
Theorem call_raises_TypeError (tomography_required : pyobj) (self : HardwareCircuit)
    (initial_state nshots measurement_level : pyobj) :
  __call__ readout_start_time tomography_required basis_states gate_sequence
    self initial_state nshots measurement_level
  = ([], raise TypeError).
Proof.
  unfold __call__, call_execute, prog_raise. reflexivity.
Qed.

End ExecuteProperties.

(** *** Further properties of the scheduler *)

(** The subscripts a gate makes the scheduler evaluate are in range for a
    register of [n] qubits: the first target always, every target of an
    [Align], and the first control of a [CNOT]. *)
Definition first_in_range (n : nat) (qs : list nat) : bool :=
  match qs with
  | q :: _ => (q <? n)%nat
  | [] => false
  end.

Definition well_indexed (n : nat) (g : Gate) : bool :=
  match gate_class_of g with
  | Align => first_in_range n (target_qubits g) && forallb (fun q => (q <? n)%nat) (target_qubits g)
  | CNOT => first_in_range n (target_qubits g) && first_in_range n (control_qubits g)
  | OtherGate => first_in_range n (target_qubits g)
  end.

Lemma first_in_range_spec n qs :
  first_in_range n qs = true <-> exists q, qs !! 0%nat = Some q /\ (q < n)%nat.
Proof.
  destruct qs as [|q qs]; simpl.
  - split; [discriminate | intros (q & H & _); discriminate].
  - rewrite Nat.ltb_lt. split.
    + intros H. exists q. auto.
    + intros (q' & [= <-] & H). exact H.
Qed.

Lemma getitem_is_ok {A} (l : list A) (i : nat) :
  (exists x, getitem l i = ok x) <-> (i < length l)%nat.
Proof.
  unfold getitem. split.
  - intros (x & H). destruct (l !! i) eqn:E; [|discriminate].
    now apply lookup_lt_Some in E.
  - intros H. destruct (lookup_lt_is_Some_2 l i H) as (x & ->). eauto.
Qed.

Lemma setitem_lt {A} (l : list A) (i : nat) (v : A) :
  (i < length l)%nat -> setitem l i v = ok (<[i:=v]> l).
Proof.
  intros H. unfold setitem. destruct (decide (i < length l)%nat); [reflexivity | contradiction].
Qed.

Lemma align_max_is_ok qt qs m0 :
  (exists m, align_max qt qs m0 = ok m) <-> Forall (fun q => (q < length qt)%nat) qs.
Proof.
  revert m0. induction qs as [|q qs IH]; intros m0; simpl.
  - split; [constructor | eauto].
  - rewrite Forall_cons. split.
    + intros (m & H). apply bind_ok in H as (t & Ht & H).
      split; [apply getitem_is_ok; eauto | apply (IH (py_max m0 t)); eauto].
    + intros [Hq Hqs]. apply getitem_is_ok in Hq as (t & Ht).
      apply (IH (py_max m0 t)) in Hqs as (m & Hm).
      exists m. rewrite Ht. exact Hm.
Qed.

Lemma align_assign_is_ok qs : forall qt m,
  (exists qt', align_assign qt qs m = ok qt') <-> Forall (fun q => (q < length qt)%nat) qs.
Proof.
  induction qs as [|q qs IH]; intros qt m; simpl.
  - split; [constructor | eauto].
  - rewrite Forall_cons. unfold setitem.
    destruct (decide (q < length qt)%nat) as [Hq|Hq]; simpl.
    + rewrite (IH (<[q:=m]> qt) m), length_insert. tauto.
    + split; [intros (? & ?); discriminate | tauto].
Qed.

Lemma forallb_lt_spec n qs :
  forallb (fun q => (q <? n)%nat) qs = true <-> Forall (fun q => (q < n)%nat) qs.
Proof.
  induction qs as [|q qs IH]; simpl.
  - split; [constructor | reflexivity].
  - rewrite andb_true_iff, Forall_cons, IH, Nat.ltb_lt. tauto.
Qed.

(** One gate is scheduled without error exactly when it is well indexed. *)
Lemma schedule_gate_is_ok qt g :
  (exists qt', schedule_gate qt g = ok qt') <-> well_indexed (length qt) g = true.
Proof.
  unfold schedule_gate, well_indexed.
  destruct (gate_class_of g).
  - rewrite andb_true_iff, first_in_range_spec, forallb_lt_spec. split.
    + intros (qt' & H). apply bind_ok in H as (q & Hq & H). apply getitem_ok in Hq.
      apply bind_ok in H as (m & Hm & H).
      assert (Hall : Forall (fun q => (q < length qt)%nat) (target_qubits g))
        by (apply (align_max_is_ok qt _ 0); eauto).
      split; [|exact Hall]. exists q. split; [exact Hq|].
      apply list_elem_of_lookup_2 in Hq.
      revert q Hq. now apply Forall_forall.
    + intros [(q & Hq & _) Hall]. apply getitem_ok in Hq. rewrite Hq. simpl.
      destruct (proj2 (align_max_is_ok qt _ 0) Hall) as (m & ->). simpl.
      now apply align_assign_is_ok.
  - rewrite andb_true_iff, !first_in_range_spec. split.
    + intros (qt' & H). apply bind_ok in H as (q & Hq & H).
      apply bind_ok in H as (c & Hc & H). apply bind_ok in H as (tq & Htq & H).
      apply bind_ok in H as (tc & Htc & H).
      apply getitem_ok in Hq, Hc, Htq, Htc. apply lookup_lt_Some in Htq, Htc.
      split; eauto.
    + intros [(q & Hq & Hlt) (c & Hc & Hclt)].
      apply getitem_ok in Hq, Hc.
      destruct (lookup_lt_is_Some_2 qt q Hlt) as (tq & Htq).
      destruct (lookup_lt_is_Some_2 qt c Hclt) as (tc & Htc).
      apply getitem_ok in Htq, Htc.
      rewrite Hq. cbn [mbind result_bind ok]. rewrite Hc. cbn [mbind result_bind ok].
      rewrite Htq. cbn [mbind result_bind ok]. rewrite Htc. cbn [mbind result_bind ok].
      rewrite (setitem_lt qt q _ Hlt). cbn [mbind result_bind ok].
      rewrite (proj2 (getitem_ok _ q _) (list_lookup_insert_eq _ _ _ Hlt)).
      cbn [mbind result_bind ok].
      rewrite setitem_lt by (now rewrite length_insert). eauto.
  - rewrite first_in_range_spec. split.
    + intros (qt' & H). apply bind_ok in H as (q & Hq & H).
      apply bind_ok in H as (t & Ht & H). apply getitem_ok in Hq, Ht.
      apply lookup_lt_Some in Ht. eauto.
    + intros (q & Hq & Hlt). apply getitem_ok in Hq.
      destruct (lookup_lt_is_Some_2 qt q Hlt) as (t & Ht). apply getitem_ok in Ht.
      rewrite Hq. cbn [mbind result_bind ok]. rewrite Ht. cbn [mbind result_bind ok].
      rewrite (setitem_lt qt q _ Hlt). eauto.
Qed.

Lemma schedule_is_ok queue : forall qt,
  (exists qt', schedule qt queue = ok qt') <-> forallb (well_indexed (length qt)) queue = true.
Proof.
  induction queue as [|g queue IH]; intros qt; simpl.
  - split; [reflexivity | eauto].
  - rewrite andb_true_iff, <- schedule_gate_is_ok. split.
    + intros (qt' & H). apply bind_ok in H as (qt1 & H1 & H).
      split; [eauto|]. rewrite <- (schedule_gate_length _ _ _ H1). apply IH. eauto.
    + intros [(qt1 & H1) H]. rewrite H1. simpl.
      apply IH. now rewrite (schedule_gate_length _ _ _ H1).
Qed.

(** On natural-number indices the scheduler returns (a vector of length
    [n]) exactly when every gate of the queue is well indexed, and raises
    [IndexError] exactly when one is not. *)
Lemma schedule_succeeds_iff_well_indexed (n : nat) (queue : list Gate) :
  ((exists d, _calculate_sequence_duration n queue = ok d /\ length d = n) <->
   forallb (well_indexed n) queue = true) /\
  (_calculate_sequence_duration n queue = raise IndexError <->
   forallb (well_indexed n) queue = false).
Proof.
  unfold _calculate_sequence_duration.
  pose proof (schedule_is_ok queue (replicate n 0)) as Hok.
  rewrite length_replicate in Hok.
  assert (Hfirst : (exists d, schedule (replicate n 0) queue = ok d /\ length d = n) <->
                   forallb (well_indexed n) queue = true).
  { rewrite <- Hok. split.
    - intros (d & H & _). eauto.
    - intros (d & H). exists d. split; [exact H|].
      apply schedule_length in H. now rewrite length_replicate in H. }
  split; [exact Hfirst|].
  destruct (schedule (replicate n 0) queue) as [e|d] eqn:E.
  - rewrite (schedule_raise _ _ _ E). split; [|reflexivity].
    intros _. destruct (forallb (well_indexed n) queue); [|reflexivity].
    destruct (proj2 Hfirst eq_refl) as (d & Hd & _). discriminate.
  - split; [discriminate|]. intros Hf.
    assert (forallb (well_indexed n) queue = true) as Ht by (apply Hok; eauto).
    congruence.
Qed.

(** A gate leaves the clock of every qubit it does not name unchanged. *)
Lemma schedule_gate_untouched qt g qt' q :
  schedule_gate qt g = ok qt' ->
  q ∉ target_qubits g -> q ∉ control_qubits g ->
  qt' !! q = qt !! q.
Proof.
  intros H Ht Hc. destruct (gate_class_of g) eqn:Hclass.
  - destruct (schedule_gate_align _ _ _ Hclass H) as (m & _ & _ & _ & _ & _ & Hout).
    now apply Hout.
  - destruct (schedule_gate_cnot _ _ _ Hclass H)
      as (t & c & tt & tc & Htq & Hcq & _ & _ & ->).
    apply list_elem_of_lookup_2 in Htq, Hcq.
    rewrite !list_lookup_insert_ne; [reflexivity | congruence | congruence].
  - unfold schedule_gate in H. rewrite Hclass in H.
    apply bind_ok in H as (q0 & Hq0 & H). apply bind_ok in H as (t & _ & H).
    apply getitem_ok in Hq0. apply list_elem_of_lookup_2 in Hq0.
    apply setitem_ok in H as [_ ->].
    rewrite list_lookup_insert_ne; [reflexivity | congruence].
Qed.

(** With a non-negative duration, a gate never moves a clock backwards. *)
Lemma schedule_gate_monotone qt g qt' :
  Forall (fun t => 0 <= t) qt -> 0 <= duration g ->
  schedule_gate qt g = ok qt' ->
  forall q t t', qt !! q = Some t -> qt' !! q = Some t' -> t <= t'.
Proof.
  intros Hqt Hd H q t t' Hq Hq'. destruct (gate_class_of g) eqn:Hclass.
  - destruct (schedule_gate_align _ _ _ Hclass H) as (m & _ & Hbound & _ & _ & Hin & Hout).
    destruct (decide (q ∈ target_qubits g)) as [Hmem|Hmem].
    + rewrite (Hin q Hmem) in Hq'. injection Hq' as <-.
      destruct (Hbound q Hmem) as (t0 & Ht0 & Hle). congruence.
    + rewrite (Hout q Hmem) in Hq'. assert (t = t') by congruence. lia.
  - destruct (schedule_gate_cnot _ _ _ Hclass H)
      as (tg & c & tq & tc & _ & _ & Htq & Htc & ->).
    pose proof (lookup_lt_Some _ _ _ Htq) as Hlt.
    pose proof (lookup_lt_Some _ _ _ Htc) as Hltc.
    destruct (decide (q = c)) as [->|Hne].
    + rewrite list_lookup_insert_eq in Hq' by now rewrite length_insert.
      injection Hq' as <-. assert (t = tc) by congruence. lia.
    + rewrite list_lookup_insert_ne in Hq' by congruence.
      destruct (decide (q = tg)) as [->|Hne'].
      * rewrite list_lookup_insert_eq in Hq' by assumption.
        injection Hq' as <-. assert (t = tq) by congruence. lia.
      * rewrite list_lookup_insert_ne in Hq' by congruence.
        assert (t = t') by congruence. lia.
  - unfold schedule_gate in H. rewrite Hclass in H.
    apply bind_ok in H as (q0 & _ & H). apply bind_ok in H as (t0 & Ht0 & H).
    apply getitem_ok in Ht0. apply setitem_ok in H as [Hlt ->].
    destruct (decide (q = q0)) as [->|Hne].
    + rewrite list_lookup_insert_eq in Hq' by assumption.
      injection Hq' as <-. assert (t = t0) by congruence. lia.
    + rewrite list_lookup_insert_ne in Hq' by congruence.
      assert (t = t') by congruence. lia.
Qed.

Lemma schedule_monotone post : forall qt qt',
  Forall (fun t => 0 <= t) qt -> Forall (fun g => 0 <= duration g) post ->
  schedule qt post = ok qt' ->
  forall q t t', qt !! q = Some t -> qt' !! q = Some t' -> t <= t'.
Proof.
  induction post as [|g post IH]; intros qt qt' Hqt Hpost; simpl.
  - intros [= <-] q t t' Hq Hq'. assert (t = t') by congruence. lia.
  - intros H q t t' Hq Hq'. apply bind_ok in H as (qt1 & H1 & H).
    apply Forall_cons in Hpost as [Hg Hpost].
    assert (Hlen : length qt1 = length qt) by now apply schedule_gate_length in H1.
    destruct (lookup_lt_is_Some_2 qt1 q) as (t1 & Hq1).
    { rewrite Hlen. now apply lookup_lt_Some in Hq. }
    pose proof (schedule_gate_monotone _ _ _ Hqt Hg H1 q t t1 Hq Hq1).
    pose proof (IH qt1 qt' (schedule_gate_nonneg _ _ _ Hqt Hg H1) Hpost H q t1 t' Hq1 Hq').
    lia.
Qed.

(** When all durations are non-negative, scheduling more gates never
    decreases a qubit's clock, and no clock is ever negative. *)
Theorem clocks_never_decrease (n : nat) (pre post : list Gate) (before after : list Z) :
  Forall (fun g => 0 <= duration g) (pre ++ post) ->
  _calculate_sequence_duration n pre = ok before ->
  _calculate_sequence_duration n (pre ++ post) = ok after ->
  forall q, (q < n)%nat ->
    exists t t', before !! q = Some t /\ after !! q = Some t' /\ 0 <= t <= t'.
Proof.
  unfold _calculate_sequence_duration. intros Hdur Hb Ha q Hq.
  apply Forall_app in Hdur as [Hpre Hpost].
  rewrite schedule_app, Hb in Ha. simpl in Ha.
  assert (Hnn : Forall (fun t => 0 <= t) before).
  { apply (schedule_nonneg pre (replicate n 0)); [|exact Hpre|exact Hb].
    apply Forall_replicate. lia. }
  pose proof (schedule_length _ _ _ Hb) as Hlb. rewrite length_replicate in Hlb.
  pose proof (schedule_length _ _ _ Ha) as Hla.
  destruct (lookup_lt_is_Some_2 before q) as (t & Ht); [lia|].
  destruct (lookup_lt_is_Some_2 after q) as (t' & Ht'); [lia|].
  exists t, t'. repeat split; try assumption.
  - exact (Forall_lookup_1 _ _ _ _ Hnn Ht).
  - exact (schedule_monotone post before after Hnn Hpost Ha q t t' Ht Ht').
Qed.

Lemma clocks_never_decrease_witness :
  exists t t', [3; 0] !! 0%nat = Some t /\ [8; 8] !! 0%nat = Some t' /\ 0 <= t <= t'.
Proof.
  apply (clocks_never_decrease 2
           [mkGate OtherGate [0%nat] [] 3]
           [mkGate OtherGate [1%nat] [] 6; mkGate CNOT [0%nat] [1%nat] 2]
           [3; 0] [8; 8]).
  - repeat apply List.Forall_cons; try apply List.Forall_nil; simpl; lia.
  - reflexivity.
  - reflexivity.
  - lia.
Defined.

Lemma schedule_untouched queue : forall qt qt' q,
  schedule qt queue = ok qt' ->
  Forall (fun g => (q ∉ target_qubits g) /\ (q ∉ control_qubits g)) queue ->
  qt' !! q = qt !! q.
Proof.
  induction queue as [|g queue IH]; intros qt qt' q; simpl.
  - now intros [= <-].
  - intros H Hall. apply bind_ok in H as (qt1 & H1 & H).
    apply Forall_cons in Hall as [[Ht Hc] Hall].
    rewrite (IH _ _ _ H Hall). now apply (schedule_gate_untouched qt g).
Qed.

(** *** The scheduler on qibo's qubit indices *)

(** [target_qubits] and [control_qubits] hold Python integers.  A
    subscript [qubit_times[q]] on the numpy array accepts a negative [q],
    which counts from the end of the register; the definitions above take
    the indices as natural numbers, the ones below as [qibo] stores them. *)
Record SignedGate : Set := mkSignedGate {
  signed_class : gate_class;
  signed_targets : list Z;
  signed_controls : list Z;
  signed_duration : Z
}.

(** The position the subscript [i] denotes in an array of length [n]:
    [i] itself from 0 to [n - 1], [i + n] from [-n] to -1, and
    [IndexError] otherwise. *)
Definition np_index (n : nat) (i : Z) : result nat :=
  if (0 <=? i) && (i <? Z.of_nat n) then ok (Z.to_nat i)
  else if (- Z.of_nat n <=? i) && (i <? 0) then ok (Z.to_nat (i + Z.of_nat n))
  else raise IndexError.

(** [a[i]] and [a[i] = v] on a numpy array. *)
Definition np_getitem (a : list Z) (i : Z) : result Z :=
  k ← np_index (length a) i; getitem a k.

Definition np_setitem (a : list Z) (i v : Z) : result (list Z) :=
  k ← np_index (length a) i; setitem a k v.

(** [m = 0; for q in gate.target_qubits: m = max(m, qubit_times[q])] *)
Fixpoint signed_align_max (qubit_times : list Z) (qs : list Z) (m : Z) : result Z :=
  match qs with
  | [] => ok m
  | q :: qs' => t ← np_getitem qubit_times q; signed_align_max qubit_times qs' (py_max m t)
  end.

(** [for q in gate.target_qubits: qubit_times[q] = m] *)
Fixpoint signed_align_assign (qubit_times : list Z) (qs : list Z) (m : Z)
  : result (list Z) :=
  match qs with
  | [] => ok qubit_times
  | q :: qs' => qt ← np_setitem qubit_times q m; signed_align_assign qt qs' m
  end.

(** One iteration of the loop body of [_calculate_sequence_duration]. *)
Definition signed_schedule_gate (qubit_times : list Z) (gate : SignedGate)
  : result (list Z) :=
  q ← getitem (signed_targets gate) 0%nat;
  match signed_class gate with
  | Align =>
      m ← signed_align_max qubit_times (signed_targets gate) 0;
      signed_align_assign qubit_times (signed_targets gate) m
  | CNOT =>
      control ← getitem (signed_controls gate) 0%nat;
      tq ← np_getitem qubit_times q;
      tc ← np_getitem qubit_times control;
      let start := py_max tq tc in
      qt ← np_setitem qubit_times q (start + signed_duration gate);
      v ← np_getitem qt q;
      np_setitem qt control v
  | OtherGate =>
      t ← np_getitem qubit_times q;
      np_setitem qubit_times q (t + signed_duration gate)
  end.

Fixpoint signed_schedule (qubit_times : list Z) (gate_sequence : list SignedGate)
  : result (list Z) :=
  match gate_sequence with
  | [] => ok qubit_times
  | gate :: rest => qt ← signed_schedule_gate qubit_times gate; signed_schedule qt rest
  end.

(** [_calculate_sequence_duration] on gates with Python-integer indices. *)
Definition signed_sequence_duration (nqubits : nat) (gate_sequence : list SignedGate)
  : result (list Z) :=
  signed_schedule (replicate nqubits 0) gate_sequence.

(** A subscript numpy accepts on an array of length [n]. *)
Definition in_range (n : nat) (i : Z) : bool :=
  (- Z.of_nat n <=? i) && (i <? Z.of_nat n).

Definition signed_first_in_range (n : nat) (qs : list Z) : bool :=
  match qs with
  | q :: _ => in_range n q
  | [] => false
  end.

(** The subscripts a gate makes the scheduler evaluate are accepted: the
    first target always, every target of an [Align], and the first
    control of a [CNOT]. *)
Definition signed_well_indexed (n : nat) (g : SignedGate) : bool :=
  match signed_class g with
  | Align => signed_first_in_range n (signed_targets g)
             && forallb (in_range n) (signed_targets g)
  | CNOT => signed_first_in_range n (signed_targets g)
            && signed_first_in_range n (signed_controls g)
  | OtherGate => signed_first_in_range n (signed_targets g)
  end.

(** The gate [g] names the qubit [q] of a register of [n] qubits, as [q]
    or as [q - n]. *)
Definition names_qubit (n : nat) (g : SignedGate) (q : nat) : Prop :=
  exists i, (i ∈ signed_targets g \/ i ∈ signed_controls g) /\
            (i = Z.of_nat q \/ i = Z.of_nat q - Z.of_nat n).

(** A gate with natural-number indices, as a gate with integer indices. *)
Definition of_gate (g : Gate) : SignedGate :=
  mkSignedGate (gate_class_of g) (Z.of_nat <$> target_qubits g)
    (Z.of_nat <$> control_qubits g) (duration g).

(** The position of an accepted subscript; a rejected one is sent to a
    position past the end of the array. *)
Definition wrap (n : nat) (i : Z) : nat :=
  if 0 <=? i then Z.to_nat i
  else if - Z.of_nat n <=? i then Z.to_nat (i + Z.of_nat n)
  else n.

Definition wrap_gate (n : nat) (g : SignedGate) : Gate :=
  mkGate (signed_class g) (wrap n <$> signed_targets g) (wrap n <$> signed_controls g)
    (signed_duration g).

Lemma in_range_spec n i :
  in_range n i = true <-> - Z.of_nat n <= i < Z.of_nat n.
Proof. unfold in_range. rewrite andb_true_iff, Z.leb_le, Z.ltb_lt. tauto. Qed.

Lemma in_range_false n i :
  in_range n i = false <-> ~ (- Z.of_nat n <= i < Z.of_nat n).
Proof.
  rewrite <- in_range_spec. destruct (in_range n i); split; try congruence; tauto.
Qed.

Lemma np_index_in n i :
  in_range n i = true -> np_index n i = ok (wrap n i) /\ (wrap n i < n)%nat.
Proof.
  intros H. apply in_range_spec in H. unfold np_index, wrap.
  destruct (Z.leb_spec 0 i), (Z.ltb_spec i (Z.of_nat n)), (Z.ltb_spec i 0),
    (Z.leb_spec (- Z.of_nat n) i); simpl; try lia; (split; [reflexivity | lia]).
Qed.

Lemma np_index_out n i : in_range n i = false -> np_index n i = raise IndexError.
Proof.
  intros H. apply in_range_false in H. unfold np_index.
  destruct (Z.leb_spec 0 i), (Z.ltb_spec i (Z.of_nat n)), (Z.ltb_spec i 0),
    (Z.leb_spec (- Z.of_nat n) i); simpl; try reflexivity; lia.
Qed.

Lemma wrap_in_range n i : in_range n i = true <-> (wrap n i < n)%nat.
Proof.
  rewrite in_range_spec. unfold wrap.
  destruct (Z.leb_spec 0 i), (Z.leb_spec (- Z.of_nat n) i); lia.
Qed.

Lemma wrap_names n i q :
  (q < n)%nat -> wrap n i = q -> i = Z.of_nat q \/ i = Z.of_nat q - Z.of_nat n.
Proof.
  unfold wrap. intros Hq.
  destruct (Z.leb_spec 0 i), (Z.leb_spec (- Z.of_nat n) i); lia.
Qed.

Lemma wrap_of_nat n (k : nat) : wrap n (Z.of_nat k) = k.
Proof. unfold wrap. destruct (Z.leb_spec 0 (Z.of_nat k)); lia. Qed.

Lemma in_range_of_nat n (k : nat) : in_range n (Z.of_nat k) = (k <? n)%nat.
Proof.
  destruct (Nat.ltb_spec k n).
  - apply in_range_spec. lia.
  - apply in_range_false. lia.
Qed.

Lemma np_getitem_in qt i :
  in_range (length qt) i = true ->
  np_getitem qt i = getitem qt (wrap (length qt) i) /\
  exists t, getitem qt (wrap (length qt) i) = ok t.
Proof.
  intros H. destruct (np_index_in _ _ H) as [E Hlt]. unfold np_getitem. rewrite E.
  split; [reflexivity|]. now apply getitem_is_ok.
Qed.

Lemma np_getitem_out qt i :
  in_range (length qt) i = false -> np_getitem qt i = raise IndexError.
Proof. intros H. unfold np_getitem. now rewrite (np_index_out _ _ H). Qed.

Lemma np_setitem_in qt i v :
  in_range (length qt) i = true ->
  np_setitem qt i v = ok (<[wrap (length qt) i := v]> qt) /\
  setitem qt (wrap (length qt) i) v = ok (<[wrap (length qt) i := v]> qt).
Proof.
  intros H. destruct (np_index_in _ _ H) as [E Hlt]. unfold np_setitem. rewrite E.
  cbn [mbind result_bind ok]. now rewrite (setitem_lt _ _ _ Hlt).
Qed.

Lemma np_setitem_out qt i v :
  in_range (length qt) i = false -> np_setitem qt i v = raise IndexError.
Proof. intros H. unfold np_setitem. now rewrite (np_index_out _ _ H). Qed.

Lemma signed_align_max_spec qt qs : forall m,
  if forallb (in_range (length qt)) qs
  then signed_align_max qt qs m = align_max qt (wrap (length qt) <$> qs) m
  else signed_align_max qt qs m = raise IndexError.
Proof.
  induction qs as [|q qs IH]; intros m; simpl; [reflexivity|].
  destruct (in_range (length qt) q) eqn:E; simpl.
  - destruct (np_getitem_in qt q E) as [-> (t & Ht)]. rewrite Ht.
    cbn [mbind result_bind ok]. apply IH.
  - now rewrite (np_getitem_out qt q E).
Qed.

Lemma signed_align_assign_spec qs : forall qt m,
  if forallb (in_range (length qt)) qs
  then signed_align_assign qt qs m = align_assign qt (wrap (length qt) <$> qs) m
  else signed_align_assign qt qs m = raise IndexError.
Proof.
  induction qs as [|q qs IH]; intros qt m; simpl; [reflexivity|].
  destruct (in_range (length qt) q) eqn:E; simpl.
  - destruct (np_setitem_in qt q m E) as [-> ->]. cbn [mbind result_bind ok].
    specialize (IH (<[wrap (length qt) q := m]> qt) m).
    rewrite length_insert in IH. exact IH.
  - now rewrite (np_setitem_out qt q m E).
Qed.

(** On a well-indexed gate the scheduler does what it does on the gate
    with wrapped indices; on any other gate it raises [IndexError]. *)
Lemma signed_schedule_gate_spec qt g :
  if signed_well_indexed (length qt) g
  then signed_schedule_gate qt g = schedule_gate qt (wrap_gate (length qt) g)
  else signed_schedule_gate qt g = raise IndexError.
Proof.
  unfold signed_well_indexed, signed_schedule_gate, schedule_gate, wrap_gate.
  cbn [gate_class_of target_qubits control_qubits duration].
  destruct (signed_targets g) as [|q qs] eqn:Et.
  { destruct (signed_class g); reflexivity. }
  cbn [signed_first_in_range fmap list_fmap getitem lookup list_lookup mbind result_bind ok].
  change (getitem (wrap (length qt) q :: (wrap (length qt) <$> qs)) 0%nat)
    with (ok (wrap (length qt) q)).
  change (getitem (q :: qs) 0%nat) with (ok q).
  cbn [mbind result_bind ok].
  destruct (signed_class g).
  - cbn [forallb]. destruct (in_range (length qt) q) eqn:Eq; cbn [andb].
    2:{ cbn [signed_align_max]. now rewrite (np_getitem_out qt q Eq). }
    pose proof (signed_align_max_spec qt (q :: qs) 0) as Hmax.
    pose proof (fun m => signed_align_assign_spec (q :: qs) qt m) as Hassign.
    cbn [forallb] in Hmax, Hassign. rewrite Eq in Hmax, Hassign. cbn [andb] in Hmax, Hassign.
    destruct (forallb (in_range (length qt)) qs).
    + rewrite Hmax. cbn [fmap list_fmap].
      destruct (align_max qt _ 0) as [e|m]; [reflexivity|].
      cbn [mbind result_bind ok]. apply Hassign.
    + now rewrite Hmax.
  - destruct (signed_controls g) as [|c cs] eqn:Ec.
    { cbn [signed_first_in_range]. rewrite andb_false_r. reflexivity. }
    cbn [signed_first_in_range fmap list_fmap].
    change (getitem (wrap (length qt) c :: (wrap (length qt) <$> cs)) 0%nat)
      with (ok (wrap (length qt) c)).
    change (getitem (c :: cs) 0%nat) with (ok c).
    cbn [mbind result_bind ok].
    destruct (in_range (length qt) q) eqn:Eq; cbn [andb].
    2:{ now rewrite (np_getitem_out qt q Eq). }
    destruct (np_getitem_in qt q Eq) as [-> (tq & Htq)]. rewrite Htq.
    cbn [mbind result_bind ok].
    destruct (in_range (length qt) c) eqn:Ecr.
    2:{ now rewrite (np_getitem_out qt c Ecr). }
    destruct (np_getitem_in qt c Ecr) as [-> (tc & Htc)]. rewrite Htc.
    cbn [mbind result_bind ok]. cbv zeta.
    destruct (np_setitem_in qt q (py_max tq tc + signed_duration g) Eq) as [-> ->].
    cbn [mbind result_bind ok].
    set (qt1 := <[wrap (length qt) q := py_max tq tc + signed_duration g]> qt).
    assert (Hlen : length qt1 = length qt) by apply length_insert.
    assert (Eq1 : in_range (length qt1) q = true) by now rewrite Hlen.
    assert (Ec1 : in_range (length qt1) c = true) by now rewrite Hlen.
    destruct (np_getitem_in qt1 q Eq1) as [-> (v & Hv)]. rewrite Hlen. rewrite Hlen in Hv.
    rewrite Hv. cbn [mbind result_bind ok].
    destruct (np_setitem_in qt1 c v Ec1) as [-> Hs]. rewrite Hlen in *.
    now rewrite Hs.
  - destruct (in_range (length qt) q) eqn:Eq.
    2:{ now rewrite (np_getitem_out qt q Eq). }
    destruct (np_getitem_in qt q Eq) as [-> (t & Ht)]. rewrite Ht.
    cbn [mbind result_bind ok].
    destruct (np_setitem_in qt q (t + signed_duration g) Eq) as [-> ->]. reflexivity.
Qed.

Lemma wrap_gate_well_indexed n g :
  signed_well_indexed n g = true -> well_indexed n (wrap_gate n g) = true.
Proof.
  unfold signed_well_indexed, well_indexed, wrap_gate.
  cbn [gate_class_of target_qubits control_qubits].
  assert (Hfirst : forall qs, signed_first_in_range n qs = true ->
                              first_in_range n (wrap n <$> qs) = true).
  { intros [|q qs]; simpl; [discriminate|]. intros H.
    apply Nat.ltb_lt. now apply wrap_in_range. }
  destruct (signed_class g).
  - rewrite !andb_true_iff. intros [H1 H2]. split; [now apply Hfirst|].
    apply forallb_lt_spec. apply Forall_fmap, Forall_forall. intros i Hi.
    apply wrap_in_range. rewrite forallb_forall in H2. apply H2.
    now apply list_elem_of_In.
  - rewrite !andb_true_iff. intros [H1 H2]. split; now apply Hfirst.
  - apply Hfirst.
Qed.

Lemma signed_schedule_spec queue : forall qt,
  if forallb (signed_well_indexed (length qt)) queue
  then signed_schedule qt queue = schedule qt (wrap_gate (length qt) <$> queue) /\
       exists qt', schedule qt (wrap_gate (length qt) <$> queue) = ok qt'
  else signed_schedule qt queue = raise IndexError.
Proof.
  induction queue as [|g queue IH]; intros qt; simpl; [eauto|].
  pose proof (signed_schedule_gate_spec qt g) as Hg.
  destruct (signed_well_indexed (length qt) g) eqn:Ew; cbn [andb].
  - rewrite Hg.
    destruct (proj2 (schedule_gate_is_ok qt (wrap_gate (length qt) g))
                (wrap_gate_well_indexed _ _ Ew)) as (qt1 & H1).
    rewrite H1. cbn [mbind result_bind ok].
    specialize (IH qt1). rewrite (schedule_gate_length _ _ _ H1) in IH. exact IH.
  - now rewrite Hg.
Qed.

(** With qubit indices as Python integers, [_calculate_sequence_duration]
    returns (a vector of length [n]) exactly when every subscript it
    evaluates lies in [-n, n), and raises [IndexError] exactly when one
    does not; it has no other outcome. *)
Theorem signed_scheduling_succeeds_iff_in_range (n : nat) (queue : list SignedGate) :
  ((exists d, signed_sequence_duration n queue = ok d /\ length d = n) <->
   forallb (signed_well_indexed n) queue = true) /\
  (signed_sequence_duration n queue = raise IndexError <->
   forallb (signed_well_indexed n) queue = false).
Proof.
  unfold signed_sequence_duration.
  pose proof (signed_schedule_spec queue (replicate n 0)) as H.
  rewrite length_replicate in H.
  destruct (forallb (signed_well_indexed n) queue).
  - destruct H as [-> (d & Hd)]. rewrite Hd. split.
    + split; [reflexivity|]. intros _. exists d. split; [reflexivity|].
      apply schedule_length in Hd. now rewrite length_replicate in Hd.
    + split; discriminate.
  - rewrite H. split.
    + split; [intros (d & Hd & _); discriminate | discriminate].
    + split; reflexivity.
Qed.

(** With qubit indices as Python integers, a qubit [q] that no gate of the
    queue names, neither as [q] nor as [q - n], ends with duration 0. *)
Theorem unnamed_qubit_has_zero_duration (n : nat) (queue : list SignedGate)
    (d : list Z) (q : nat) :
  signed_sequence_duration n queue = ok d ->
  (q < n)%nat ->
  Forall (fun g => ~ names_qubit n g q) queue ->
  d !! q = Some 0.
Proof.
  unfold signed_sequence_duration. intros H Hq Hall.
  pose proof (signed_schedule_spec queue (replicate n 0)) as S.
  rewrite length_replicate in S.
  destruct (forallb (signed_well_indexed n) queue); [|rewrite S in H; discriminate].
  destruct S as [S _]. rewrite S in H.
  rewrite (schedule_untouched _ _ _ q H); [now apply lookup_replicate_2|].
  apply Forall_fmap. eapply Forall_impl; [exact Hall|].
  intros g Hg. cbn [wrap_gate target_qubits control_qubits]. unfold wrap_gate.
  cbn [target_qubits control_qubits].
  split; intros Hin; apply list_elem_of_fmap in Hin as (i & Hi & Hin);
    apply Hg; exists i; (split; [auto | now apply (wrap_names n i q)]).
Qed.

Lemma unnamed_qubit_has_zero_duration_witness :
  ([0; 3; 0] : list Z) !! 0%nat = Some 0.
Proof.
  apply (unnamed_qubit_has_zero_duration 3 [mkSignedGate OtherGate [-2] [] 3] [0; 3; 0] 0).
  - reflexivity.
  - lia.
  - apply List.Forall_cons; [|apply List.Forall_nil].
    intros (i & [Hi | Hi] & Hq); apply list_elem_of_In in Hi; simpl in Hi; lia.
Defined.

(** On gates whose indices are natural numbers the scheduler with integer
    indices and the scheduler with natural-number indices agree, results
    and errors alike. *)
Theorem natural_indices_agree (n : nat) (queue : list Gate) :
  signed_sequence_duration n (of_gate <$> queue) = _calculate_sequence_duration n queue.
Proof.
  unfold signed_sequence_duration.
  pose proof (signed_schedule_spec (of_gate <$> queue) (replicate n 0)) as S.
  rewrite length_replicate in S.
  assert (Hw : forall g, signed_well_indexed n (of_gate g) = well_indexed n g).
  { intros g. unfold signed_well_indexed, well_indexed, of_gate.
    cbn [signed_class signed_targets signed_controls].
    assert (Hfirst : forall qs, signed_first_in_range n (Z.of_nat <$> qs)
                                = first_in_range n qs).
    { intros [|k qs]; [reflexivity|]. apply in_range_of_nat. }
    assert (Hall : forall qs, forallb (in_range n) (Z.of_nat <$> qs)
                              = forallb (fun k => (k <? n)%nat) qs).
    { induction qs as [|k qs IH]; [reflexivity|]. rewrite fmap_cons. cbn [forallb].
      now rewrite in_range_of_nat, IH. }
    destruct (gate_class_of g); now rewrite ?Hfirst, ?Hall. }
  assert (Hf : forallb (signed_well_indexed n) (of_gate <$> queue)
               = forallb (well_indexed n) queue).
  { clear S. induction queue as [|g queue IH]; [reflexivity|].
    rewrite fmap_cons. cbn [forallb]. now rewrite Hw, IH. }
  rewrite Hf in S. unfold _calculate_sequence_duration.
  assert (Hwrap : wrap_gate n <$> (of_gate <$> queue) = queue).
  { rewrite <- list_fmap_compose. rewrite <- (list_fmap_id queue) at 2.
    apply list_fmap_ext. intros _ [c ts cs dur] _. unfold wrap_gate, of_gate. simpl.
    f_equal; rewrite <- list_fmap_compose; rewrite <- list_fmap_id;
      apply list_fmap_ext; intros _ k _; apply wrap_of_nat. }
  destruct (forallb (well_indexed n) queue) eqn:E.
  - destruct S as [-> _]. now rewrite Hwrap.
  - rewrite S. symmetry.
    now apply (proj2 (schedule_succeeds_iff_well_indexed n queue)).
Qed.

(** *** Further properties of circuit execution *)








Section MoreExecuteProperties.

Variable readout_start_time : Z.
Variable basis_states : nat -> list (list Gate).
Variable gate_sequence : nat -> list (list Gate).


(** [execute] validates its arguments before touching the backend: a
    non-[None] initial state raises [ValueError], and otherwise a missing
    measurement gate raises [RuntimeError]; in both cases the scheduler is
    never called. *)
Theorem execute_rejects_before_backend (tomography_required : pyobj)
    (self : HardwareCircuit) (initial_state nshots : pyobj) :
  is_none initial_state = false \/ measurement_gate self = None ->
  execute readout_start_time tomography_required basis_states gate_sequence
    self initial_state nshots
  = ([], raise (if is_none initial_state then RuntimeError else ValueError)).
Proof.
  unfold execute, prog_raise. intros [H | H].
  - rewrite H. reflexivity.
  - destruct (is_none initial_state); simpl; [|reflexivity]. now rewrite H.
Qed.


End MoreExecuteProperties.

Lemma execute_rejects_before_backend_witness :
  execute 100 (PyBool false) (fun _ => []) (fun _ => [])
    (mkHardwareCircuit 1 (PyBool false) [] None) (PyList []) PyNone
  = ([], raise ValueError).
Proof.
  apply (execute_rejects_before_backend 100 (fun _ => []) (fun _ => []) (PyBool false)
           (mkHardwareCircuit 1 (PyBool false) [] None) (PyList []) PyNone).
  left. reflexivity.
Defined.

Example execute_single_sequence_example :
  execute 100 (PyList []) (fun _ => []) (fun _ => [])
    (mkHardwareCircuit 2 (PyList []) [mkGate OtherGate [0%nat] [] 3] (Some [0%nat]))
    PyNone (PyInt 10)
  = ([fetch_config; check_tomography_required;
      execute_pulse_sequence
        (mkPulseSequenceRequest [mkGate OtherGate [0%nat] [] 3] [97; 100] [0; 0]) (PyInt 10)],
     ok (probabilities_from_projection [0%nat] (PyInt 10))).
Proof. reflexivity. Qed.

Example execute_tomography_example :
  execute 100 (PyList [PyInt 0]) (fun _ => [[mkGate OtherGate [0%nat] [] 3]]) (fun _ => [[]])
    (mkHardwareCircuit 2 (PyBool false) [mkGate OtherGate [1%nat] [] 5] (Some [0%nat]))
    PyNone (PyInt 10)
  = ([fetch_config; check_tomography_required;
      execute_tomography
        [mkPulseSequenceRequest [mkGate OtherGate [0%nat] [] 3] [-3; -3] [0; 0];
         mkPulseSequenceRequest
           [mkGate OtherGate [1%nat] [] 5; mkGate Align [0%nat; 1%nat] [] 0] [-5; -5] [0; 0]]
        (PyInt 10)],
     ok (probabilities_from_density_matrix [0%nat] 2 (PyInt 10))).
Proof. reflexivity. Qed.

End Circuit.

(** ** The IcarusQ RFSoC driver ([RFSOC], [RFSOC_RO]) *)

Module RFSOC.

#[local] Open Scope R_scope.

(** *** numpy and Python helpers *)

(** [d[k]] on a dict: [KeyError] when the key is absent. *)
Definition dict_get `{Countable K} {V} (d : gmap K V) (k : K) : result V :=
  match d !! k with
  | Some v => ok v
  | None => raise KeyError
  end.

(** [int(x)] on a float: truncation towards zero. *)
Definition py_int (x : R) : Z :=
  if Rle_dec 0 x then Int_part x else (- Int_part (- x))%Z.

(** [np.ceil]. *)
Definition np_ceil (x : R) : Z := (- Int_part (- x))%Z.

(** [np.arange(start, stop)] on integers: empty when [stop <= start]. *)
Definition arange (start stop : Z) : list Z :=
  (fun i => (start + Z.of_nat i)%Z) <$> seq 0 (Z.to_nat (stop - start)).

(** [np.ones(n)]: a negative dimension raises [ValueError]. *)
Definition np_ones (n : Z) : result (list R) :=
  if (n <? 0)%Z then raise ValueError else ok (replicate (Z.to_nat n) 1).

(** Element-wise binary operation with numpy broadcasting of
    one-dimensional operands: equal lengths, or one operand of length 1. *)
Definition broadcast (f : R -> R -> R) (a b : list R) : result (list R) :=
  if decide (length a = length b) then ok (zip_with f a b)
  else
    match a, b with
    | [x], _ => ok (f x <$> b)
    | _, [y] => ok ((fun x => f x y) <$> a)
    | _, _ => raise ValueError
    end.

(** In-place element-wise operation [a op= b]: the result keeps the shape
    of [a], so only [b] may be broadcast. *)
Definition broadcast_inplace (f : R -> R -> R) (a b : list R) : result (list R) :=
  if decide (length a = length b) then ok (zip_with f a b)
  else
    match b with
    | [y] => ok ((fun x => f x y) <$> a)
    | _ => raise ValueError
    end.

(** A slice bound [i] of [a[start:end]] on an array of length [n]:
    negative bounds count from the end, and bounds are clipped to
    [[0, n]]. *)
Definition slice_index (n i : Z) : Z :=
  if (i <? 0)%Z then Z.max (i + n) 0 else Z.min i n.

(** Add [v] into [arr] from position [lo] on. *)
Definition iadd_window (arr : list R) (lo : nat) (v : list R) : list R :=
  imap (fun i x =>
          if decide (lo <= i)%nat
          then match v !! (i - lo)%nat with
               | Some w => x + w
               | None => x
               end
          else x) arr.

(** The operand of [arr[start:end] += v] on an array of length [n]: the
    slice starts at the clipped [start] and has the clipped length; [v]
    must have that length, or length 1 (it is then repeated), otherwise
    numpy raises [ValueError]. *)
Definition slice_operand (n : nat) (start stop : Z) (v : list R) : result (nat * list R) :=
  let lo := slice_index (Z.of_nat n) start in
  let hi := slice_index (Z.of_nat n) stop in
  let len := Z.to_nat (hi - lo) in
  if decide (length v = len) then ok (Z.to_nat lo, v)
  else
    match v with
    | [w] => ok (Z.to_nat lo, replicate len w)
    | _ => raise ValueError
    end.

(** [arr[start:end] += v]. *)
Definition iadd_slice (arr : list R) (start stop : Z) (v : list R) : result (list R) :=
  operand ← slice_operand (length arr) start stop v;
  ok (iadd_window arr (fst operand) (snd operand)).

(** Python's [max(a, b)] on integers. *)
Definition py_max (a b : Z) : Z := if (a <? b)%Z then b else a.

(** *** Data *)

Inductive PulseType : Set := READOUT | DRIVE | FLUX.

Record PulseShape : Type := mkPulseShape {
  name : string;
  rel_sigma : R;
  beta : R
}.

Record Pulse : Type := mkPulse {
  start : R;
  duration : R;
  amplitude : R;
  frequency : R;
  relative_phase : R;
  channel : string;
  type : PulseType;
  shape : PulseShape;
  qubit : nat;
  serial : string
}.

(** What the driver reads of a [Qubit]: the DAC of each drive channel
    ([qubit.drive.ports[channel]]) and the DAC/ADC pair of the readout line
    ([qubit.readout.ports]). *)
Record Qubit : Type := mkQubit {
  drive_ports : gmap string nat;
  readout_ports : nat * nat
}.

Inductive AcquisitionType : Set := RAW | INTEGRATION | DISCRIMINATION.
Inductive AveragingMode : Set := CYCLIC | SINGLESHOT.

Record ExecutionParameters : Type := mkExecutionParameters {
  nshots : nat;
  relaxation_time : R;
  acquisition_type : AcquisitionType;
  averaging_mode : AveragingMode
}.

(** The board as seen through [icarusq_rfsoc_driver.IcarusQRFSoC]
    (outside the repository): sampling rates in MHz, the [max_samples] of
    each DAC (a DAC's [id] is its position in [device.dac], the number the
    driver also subscripts [device.dac] with), the full-scale amplitude and
    the ADC record length. *)
Record Device : Type := mkDevice {
  dac_sampling_rate : R;
  adc_sampling_rate : R;
  dac : list nat;
  dac_max_amplitude : R;
  adc_sample_size : nat
}.

(** Commands sent to the board. *)
Inductive device_call : Type :=
| set_dac_delay (dac : nat) (delay : Z)
| set_adc_delay (adc : nat) (delay : Z)
| program_qunit (readout_frequency readout_time : R) (qunit : nat)
| upload_waveform (payload : list (nat * list R * Z)).

(** A rendered pulse: destination DAC, sample window and samples. *)
Record Rendered : Type := mkRendered {
  rendered_dac : nat;
  rendered_start : Z;
  rendered_end : Z;
  rendered_wfm : list R
}.

(** The two dicts the loop of [play] updates. *)
Record Waveforms : Type := mkWaveforms {
  waveform_array : gmap nat (list R);
  dac_end_addr : gmap nat Z
}.

(** *** [RFSOC.play] *)

Section Play.

Variable device : Device.
(** [self.ports(name).dac] and [self.ports(name).adc]. *)
Variable ports_dac : string -> nat.
Variable ports_adc : string -> nat.
Variable channel_delay_offset_dac : Z.
Variable channel_delay_offset_adc : Z.
(** [scipy.signal.windows.gaussian] and [hamming]. *)
Variable gaussian : Z -> R -> list R.
Variable hamming : nat -> list R.

#[local] Open Scope prog_scope.

(** [f(2 * np.pi * pulse.frequency * t + pulse.relative_phase)] *)
Definition carrier (f : R -> R) (pulse : Pulse) (t : list R) : list R :=
  (fun tk => f (2 * PI * frequency pulse * tk + relative_phase pulse)) <$> t.

(** [options.acquisition_type is AcquisitionType.DISCRIMINATION or
    AcquisitionType.INTEGRATION]: the right operand is an enum member,
    which is true. *)
Definition qunit_condition (options : ExecutionParameters) : bool :=
  match acquisition_type options with
  | DISCRIMINATION => true
  | _ => true
  end.

(** The part of the loop body of [play] before the accumulation: the
    destination DAC, the sample window and the samples of one pulse. *)
Definition render (qubits : gmap nat Qubit) (options : ExecutionParameters) (pulse : Pulse)
  : prog device_call Rendered :=
  qubit_ <~ prog_lift (dict_get qubits (qubit pulse));;
  let dac_ := ports_dac (channel pulse) in
  let rate := dac_sampling_rate device * 1e6 in
  let start_ := py_int (start pulse * 1e-9 * rate) in
  let end_ := py_int ((start pulse + duration pulse) * 1e-9 * rate) in
  let num_samples := (end_ - start_)%Z in
  match type pulse with
  | FLUX =>
      wfm <~ prog_lift (np_ones num_samples);;
      prog_ret (mkRendered dac_ start_ end_ wfm)
  | DRIVE =>
      dac_ <~ prog_lift (dict_get (drive_ports qubit_) (channel pulse));;
      let t := (fun i => IZR i / rate) <$> arange start_ end_ in
      let wfm := carrier sin pulse t in
      if String.eqb (name (shape pulse)) "DRAG"
      then
        let sigma := IZR num_samples / rel_sigma (shape pulse) in
        let beta_ := beta (shape pulse) in
        let real := gaussian num_samples sigma in
        ramp <~ prog_lift
          (broadcast Rmult
             ((fun i => - beta_ * (IZR i - IZR num_samples / 2)) <$> arange 0 num_samples)
             real);;
        let img := (fun x => x / sigma ^ 2) <$> ramp in
        wfm <~ prog_lift (broadcast_inplace Rmult wfm real);;
        quadrature <~ prog_lift (broadcast Rmult img (carrier cos pulse t));;
        wfm <~ prog_lift (broadcast_inplace Rplus wfm quadrature);;
        prog_ret (mkRendered dac_ start_ end_ wfm)
      else
        wfm <~ prog_lift (broadcast_inplace Rmult wfm (hamming (length wfm)));;
        prog_ret (mkRendered dac_ start_ end_ wfm)
  | READOUT =>
      let adc_ := ports_adc (channel pulse) in
      let start_ := 0%Z in
      let end_ := py_int (duration pulse * 1e-9 * rate) in
      let t := (fun i => IZR i / rate) <$> arange start_ end_ in
      let wfm := carrier sin pulse t in
      let delay_start_adc :=
        (py_int (IZR (np_ceil (adc_sampling_rate device * 1e6 * start pulse * 1e-9 / 8)) / 2)
         * 2)%Z in
      let delay_start_dac := py_int (IZR delay_start_adc * 1.5) in
      prog_call (set_dac_delay dac_ (delay_start_dac + channel_delay_offset_dac)) tt;;;
      prog_call (set_adc_delay adc_ (delay_start_adc + channel_delay_offset_adc)) tt;;;
      prog_call (set_adc_delay 0 (delay_start_adc + channel_delay_offset_adc)) tt;;;
      (if qunit_condition options
       then prog_call (program_qunit (frequency pulse) (duration pulse * 1e-9) (qubit pulse)) tt
       else prog_ret tt);;;
      prog_ret (mkRendered dac_ start_ end_ wfm)
  end.

(** [waveform_array[dac][start:end] += self.device.dac_max_amplitude * pulse.amplitude * wfm]
    and [dac_end_addr[dac] = max(end >> 4, dac_end_addr[dac])]. *)
Definition accumulate (w : Waveforms) (pulse : Pulse) (r : Rendered) : result Waveforms :=
  let samples := (fun x => dac_max_amplitude device * amplitude pulse * x) <$> rendered_wfm r in
  arr ← dict_get (waveform_array w) (rendered_dac r);
  arr' ← iadd_slice arr (rendered_start r) (rendered_end r) samples;
  addr ← dict_get (dac_end_addr w) (rendered_dac r);
  ok (mkWaveforms
        (<[rendered_dac r := arr']> (waveform_array w))
        (<[rendered_dac r := py_max (Z.shiftr (rendered_end r) 4) addr]> (dac_end_addr w))).

Definition play_pulse (qubits : gmap nat Qubit) (options : ExecutionParameters)
    (w : Waveforms) (pulse : Pulse) : prog device_call Waveforms :=
  r <~ render qubits options pulse;;
  prog_lift (accumulate w pulse r).

Fixpoint play_pulses (qubits : gmap nat Qubit) (options : ExecutionParameters)
    (w : Waveforms) (pulses : list Pulse) : prog device_call Waveforms :=
  match pulses with
  | [] => prog_ret w
  | pulse :: rest =>
      w' <~ play_pulse qubits options w pulse;;
      play_pulses qubits options w' rest
  end.

(** [{dac.id: np.zeros(dac.max_samples) for dac in self.device.dac}] and
    [{dac.id: 0 for dac in self.device.dac}]. *)
Definition initial_waveforms : Waveforms :=
  mkWaveforms
    (map_seq 0 ((fun max_samples => replicate max_samples 0) <$> dac device))
    (map_seq 0 ((fun _ => 0%Z) <$> dac device)).

(** The waveform arrays after the loop of [play] over [sequence.pulses]. *)
Definition compile (qubits : gmap nat Qubit) (options : ExecutionParameters)
    (pulses : list Pulse) : prog device_call Waveforms :=
  play_pulses qubits options initial_waveforms pulses.

(** [[(dac, wfm, dac_end_addr[dac]) for dac, wfm in waveform_array.items()
      if dac_end_addr[dac] != 0]] *)
Definition payload_of (w : Waveforms) : list (nat * list R * Z) :=
  omap (fun id =>
          match waveform_array w !! id, dac_end_addr w !! id with
          | Some wfm, Some addr => if (addr =? 0)%Z then None else Some (id, wfm, addr)
          | _, _ => None
          end)
       (seq 0 (length (dac device))).

Definition play (qubits : gmap nat Qubit) (pulses : list Pulse) (options : ExecutionParameters)
  : prog device_call unit :=
  w <~ compile qubits options pulses;;
  prog_call (upload_waveform (payload_of w)) tt.

End Play.

(** *** [RFSOC_RO.process_readout_signal] *)

(** Complex numbers as (real, imaginary) pairs. *)
Definition complex : Type := R * R.
Definition Cadd (a b : complex) : complex := (fst a + fst b, snd a + snd b).
Definition Cmul (a b : complex) : complex :=
  (fst a * fst b - snd a * snd b, fst a * snd b + snd a * fst b).
Definition of_real (x : R) : complex := (x, 0).
(** The literal [1j]. *)
Definition j : complex := (0, 1).

(** [np.mean] of a one-dimensional array. *)
Definition np_mean (l : list R) : R := foldr Rplus 0 l / INR (length l).

(** Modelled from the spec: the result containers [IntegratedResults] and
    [SampleResults] are imported from [qibolab.result], but the version of
    that file in the sources predates them.  They hold the IQ data of the
    glossary ("in-phase/quadrature pair from demodulated readout signal"),
    one complex voltage per shot, or discriminated shots; [average]
    reduces the shots of an [IntegratedResults] to their mean. *)
Inductive Results : Type :=
| IntegratedResults (voltage : list complex)
| AveragedIntegratedResults (voltage : complex)
| SampleResults (states : list Z).

(** Modelled from the spec: [IntegratedResults.average] (see [Results]). *)
Definition average (voltage : list complex) : Results :=
  AveragedIntegratedResults (np_mean (fst <$> voltage), np_mean (snd <$> voltage)).

(** The in-phase and quadrature components held by a result. *)
Definition voltage_i (r : Results) : list R :=
  match r with
  | IntegratedResults v => fst <$> v
  | AveragedIntegratedResults v => [fst v]
  | SampleResults _ => []
  end.

Definition voltage_q (r : Results) : list R :=
  match r with
  | IntegratedResults v => snd <$> v
  | AveragedIntegratedResults v => [snd v]
  | SampleResults _ => []
  end.

(** [np.dot] of a (shots x samples) array with a vector: one inner
    product per shot; [ValueError] on a shape mismatch. *)
Definition np_dot (m : list (list R)) (v : list R) : result (list R) :=
  mapM (fun row =>
          if decide (length row = length v)
          then ok (foldr Rplus 0 (zip_with Rmult row v))
          else raise ValueError) m.

Section Readout.

Variable device : Device.

(** [I + 1j * Q] for the two demodulation references of one readout
    pulse; the reference bound to the name [cos] is computed with
    [np.sin], as in the source. *)
Definition demodulate (raw_signal : list (list R)) (t : list R) (readout_pulse : Pulse)
  : result (list complex) :=
  let sin_ := (fun tk => sin (2 * PI * frequency readout_pulse * tk)) <$> t in
  let cos_ := (fun tk => sin (2 * PI * frequency readout_pulse * tk)) <$> t in
  I ← np_dot raw_signal cos_;
  Q ← np_dot raw_signal sin_;
  ok (zip_with (fun i q => Cadd (of_real i) (Cmul j (of_real q))) I Q).

(** One iteration of the loop over the readout pulses. *)
Definition process_readout_pulse (adc_raw_data : gmap nat (list (list R)))
    (qubits : gmap nat Qubit) (options : ExecutionParameters) (t : list R)
    (results : gmap (nat + string) Results) (readout_pulse : Pulse)
  : result (gmap (nat + string) Results) :=
  qubit_ ← dict_get qubits (qubit readout_pulse);
  let adc := snd (readout_ports qubit_) in
  raw_signal ← dict_get adc_raw_data adc;
  iq ← demodulate raw_signal t readout_pulse;
  let results := <[inl (qubit readout_pulse) := IntegratedResults iq]> results in
  match averaging_mode options with
  | SINGLESHOT =>
      ok (<[inr (serial readout_pulse) := IntegratedResults iq]> results)
  | _ =>
      ok (<[inr (serial readout_pulse) := average iq]>
            (<[inl (qubit readout_pulse) := average iq]> results))
  end.

Fixpoint process_readout_pulses (adc_raw_data : gmap nat (list (list R)))
    (qubits : gmap nat Qubit) (options : ExecutionParameters) (t : list R)
    (results : gmap (nat + string) Results) (sequence : list Pulse)
  : result (gmap (nat + string) Results) :=
  match sequence with
  | [] => ok results
  | readout_pulse :: rest =>
      results' ← process_readout_pulse adc_raw_data qubits options t results readout_pulse;
      process_readout_pulses adc_raw_data qubits options t results' rest
  end.

Definition process_readout_signal (adc_raw_data : gmap nat (list (list R)))
    (sequence : list Pulse) (qubits : gmap nat Qubit) (options : ExecutionParameters)
  : result (gmap (nat + string) Results) :=
  let rate := adc_sampling_rate device * 1e6 in
  let t := (fun k => INR k / rate) <$> seq 0 (adc_sample_size device) in
  process_readout_pulses adc_raw_data qubits options t ∅ sequence.

End Readout.

(** *** [RFSOC_RO.sweep] *)

Module Param.
(** [qibolab.sweeper.Parameter]. *)
Inductive t : Set :=
| frequency | amplitude | duration | relative_phase | start | attenuation | gain | bias.
End Param.

(** A [Sweeper]: the swept parameter, its values (the attribute [values]
    is a numpy array, as [len(sweeper.values)] and [sweep.values[0]] in
    the other drivers use it), and the pulses it refers to.  The pulses
    are the objects of the played sequence, given here by their positions
    in it. *)
Record Sweeper : Type := mkSweeper {
  parameter : Param.t;
  values : list R;
  pulses : list nat
}.

(** The tuple [sweeper] of the variadic parameter [*sweeper], as a Python
    object: its items are [Sweeper] instances. *)
Definition sweeper_tuple (sweeper : list Sweeper) : pyobj :=
  PyTuple (imap (fun i _ => PyObject i) sweeper).

(** The [attribute] dict of [sweep]: the pulse field a parameter names. *)
Definition attribute (p : Param.t) : result (Pulse -> R -> Pulse) :=
  match p with
  | Param.amplitude => ok (fun pulse v =>
      mkPulse (start pulse) (duration pulse) v (frequency pulse) (relative_phase pulse)
        (channel pulse) (type pulse) (shape pulse) (qubit pulse) (serial pulse))
  | Param.duration => ok (fun pulse v =>
      mkPulse (start pulse) v (amplitude pulse) (frequency pulse) (relative_phase pulse)
        (channel pulse) (type pulse) (shape pulse) (qubit pulse) (serial pulse))
  | Param.frequency => ok (fun pulse v =>
      mkPulse (start pulse) (duration pulse) (amplitude pulse) v (relative_phase pulse)
        (channel pulse) (type pulse) (shape pulse) (qubit pulse) (serial pulse))
  | Param.relative_phase => ok (fun pulse v =>
      mkPulse (start pulse) (duration pulse) (amplitude pulse) (frequency pulse) v
        (channel pulse) (type pulse) (shape pulse) (qubit pulse) (serial pulse))
  | Param.start => ok (fun pulse v =>
      mkPulse v (duration pulse) (amplitude pulse) (frequency pulse) (relative_phase pulse)
        (channel pulse) (type pulse) (shape pulse) (qubit pulse) (serial pulse))
  | _ => raise KeyError
  end.

(** What a sweep does to the outside: set the readout attenuator of a
    qubit, and play the sequence with its current pulse attributes. *)
Inductive sweep_call : Type :=
| set_attenuation (qubit : nat) (val : R)
| play_sequence (sequence : list Pulse).

Section Sweep.

(** The dict [self.play(qubits, sequence, options)] returns for a
    sequence, and the [+] of two result objects. *)
Variable play_result : list Pulse -> result (gmap (nat + string) Results).
Variable results_add : Results -> Results -> Results.

#[local] Open Scope prog_scope.

(** [for serial in dict_b: dict_a[serial] = dict_a[serial] + dict_b[serial]
    if serial in dict_a else dict_b[serial]] *)
Definition merge_sweep_results (dict_a dict_b : gmap (nat + string) Results)
  : gmap (nat + string) Results :=
  union_with (fun a b => Some (results_add a b)) dict_a dict_b.

(** [for pulse in sweep.pulses: setattr(pulse, attribute[sweep.parameter], val)] *)
Fixpoint set_attributes (set : Pulse -> R -> Pulse) (val : R) (positions : list nat)
    (sequence : list Pulse) : list Pulse :=
  match positions with
  | [] => sequence
  | i :: rest =>
      set_attributes set val rest
        (match sequence !! i with
         | Some pulse => <[i := set pulse val]> sequence
         | None => sequence
         end)
  end.

(** [sweep.parameter is Parameter.gain or Parameter.bias]: the right
    operand is an enum member, which is true. *)
Definition gain_or_bias (p : Param.t) : bool :=
  match p with
  | Param.gain => true
  | _ => true
  end.

(** The loop [for val in sweep.values(): ...]. *)
Fixpoint sweep_values (qubits : gmap nat Qubit) (sweep_ : Sweeper) (vals : list R)
    (sequence : list Pulse) (res : gmap (nat + string) Results)
  : prog sweep_call (gmap (nat + string) Results) :=
  match vals with
  | [] => prog_ret res
  | val :: rest =>
      sequence' <~
        (match parameter sweep_ with
         | Param.attenuation =>
             i <~ prog_lift (getitem (pulses sweep_) 0);;
             pulse <~ prog_lift (getitem sequence i);;
             _ <~ prog_lift (dict_get qubits (qubit pulse));;
             prog_call (set_attenuation (qubit pulse) val) sequence
         | p =>
             if gain_or_bias p then prog_raise NotImplementedError
             else
               set <~ prog_lift (attribute p);;
               prog_ret (set_attributes set val (pulses sweep_) sequence)
         end);;
      played <~ prog_call (play_sequence sequence') (play_result sequence');;
      b <~ prog_lift played;;
      sweep_values qubits sweep_ rest sequence' (merge_sweep_results res b)
  end.

(** [a()] on a numpy array: an [ndarray] is not callable. *)
Definition ndarray_call (a : list R) : result (list R) := raise TypeError.

(** The body of [sweep] after the guard: [sweep = sweeper[0]], then the
    loop, whose header calls [sweep.values()]. *)
Definition sweep_loop (qubits : gmap nat Qubit) (sequence : list Pulse)
    (sweeper : list Sweeper) : prog sweep_call (gmap (nat + string) Results) :=
  sweep_ <~ prog_lift (getitem sweeper 0);;
  vals <~ prog_lift (ndarray_call (values sweep_));;
  sweep_values qubits sweep_ vals sequence ∅.

Definition sweep (qubits : gmap nat Qubit) (sequence : list Pulse)
    (options : ExecutionParameters) (sweeper : list Sweeper)
  : prog sweep_call (gmap (nat + string) Results) :=
  guard <~ prog_lift (py_gt (sweeper_tuple sweeper) (PyInt 1));;
  n <~ prog_lift (py_len (PyBool guard));;
  if negb (n =? 0)%nat then prog_raise NotImplementedError
  else sweep_loop qubits sequence sweeper.

End Sweep.

(** *** [RFSOC_RO.play] *)

#[global] Instance PulseType_eq_dec : EqDecision PulseType.
Proof. solve_decision. Defined.

(** Commands [RFSOC_RO.play] sends to the board: those of [RFSOC.play],
    called through [super()], and the acquisition commands of its own. *)
Inductive readout_call : Type :=
| controller_call (c : device_call)
| set_adc_trigger_repetition_rate (rate : Z)
| set_adc_trigger_mode (mode : Z)
| arm_adc (adcs : list nat) (nshots : nat)
| device_result
| set_qunit_mode (mode : Z)
| start_qunit_acquisition (nshots : nat) (readout_qubits : option (gset nat)).

Definition is_controller_call (c : readout_call) : bool :=
  match c with
  | controller_call _ => true
  | _ => false
  end.

(** [I + 1j * Q] on two one-dimensional arrays, with numpy's
    broadcasting. *)
Definition iq_array (I Q : list R) : result (list complex) :=
  let iq := fun i q => Cadd (of_real i) (Cmul j (of_real q)) in
  if decide (length I = length Q) then ok (zip_with iq I Q)
  else
    match I, Q with
    | [i], _ => ok (iq i <$> Q)
    | _, [q] => ok ((fun i => iq i q) <$> I)
    | _, _ => raise ValueError
    end.

(** One item of the dict comprehension
    [{qubit: wrap(I + 1j * Q) for qubit, (I, Q) in raw.items()}]. *)
Definition integrated_item (wrap : list complex -> Results) (qubit : nat)
    (IQ : list R * list R) (res : result (gmap (nat + string) Results))
  : result (gmap (nat + string) Results) :=
  res ← res;
  iq ← iq_array IQ.1 IQ.2;
  ok (<[inl qubit := wrap iq]> res).

(** The two comprehensions of the [INTEGRATION] branch, chosen by
    [options.averaging_mode is not AveragingMode.SINGLESHOT]. *)
Definition integrated_results (options : ExecutionParameters)
    (raw : gmap nat (list R * list R)) : result (gmap (nat + string) Results) :=
  match averaging_mode options with
  | SINGLESHOT => map_fold (integrated_item IntegratedResults) (ok ∅) raw
  | _ => map_fold (integrated_item average) (ok ∅) raw
  end.

(** [{qubit: SampleResults(states) for qubit, states in raw.items()}] *)
Definition sample_results (raw : gmap nat (list Z)) : gmap (nat + string) Results :=
  kmap inl (SampleResults <$> raw).

(** [for ro_pulse in readout_pulses: res[ro_pulse.serial] = res[ro_pulse.qubit]] *)
Fixpoint alias_serials (res : gmap (nat + string) Results) (readout_pulses : list Pulse)
  : result (gmap (nat + string) Results) :=
  match readout_pulses with
  | [] => ok res
  | ro_pulse :: rest =>
      r ← dict_get res (inl (qubit ro_pulse));
      alias_serials (<[inr (serial ro_pulse) := r]> res) rest
  end.

Section ReadoutPlay.

Variable device : Device.
Variable ports_dac : string -> nat.
Variable ports_adc : string -> nat.
Variable channel_delay_offset_dac : Z.
Variable channel_delay_offset_adc : Z.
Variable gaussian : Z -> R -> list R.
Variable hamming : nat -> list R.
(** [self.adcs_to_read], and what the board answers: the raw ADC data of
    [device.result()], and the data of [device.start_qunit_acquisition]
    with and without the set of qubits to read. *)
Variable adcs_to_read : list nat.
Variable raw_adc_data : gmap nat (list (list R)).
Variable qunit_iq : nat -> gset nat -> gmap nat (list R * list R).
Variable qunit_states : nat -> gmap nat (list Z).

#[local] Open Scope prog_scope.

(** [super().play(qubits, sequence, options)] *)
Definition super_play (qubits : gmap nat Qubit) (sequence : list Pulse)
    (options : ExecutionParameters) : prog readout_call unit :=
  let '(t, r) := play device ports_dac ports_adc channel_delay_offset_dac
                   channel_delay_offset_adc gaussian hamming qubits sequence options in
  (controller_call <$> t, r).

(** [list(filter(lambda pulse: pulse.type is PulseType.READOUT, sequence.pulses))] *)
Definition readout_pulses_of (sequence : list Pulse) : list Pulse :=
  filter (fun pulse => type pulse = READOUT) sequence.

(** The body of [RFSOC_RO.play] after the call of [super().play]. *)
Definition acquire (qubits : gmap nat Qubit) (sequence : list Pulse)
    (options : ExecutionParameters) : prog readout_call (gmap (nat + string) Results) :=
  prog_call (set_adc_trigger_repetition_rate (py_int (relaxation_time options / 1e3))) tt;;;
  let readout_pulses := readout_pulses_of sequence in
  let readout_qubits : gset nat := list_to_set (qubit <$> readout_pulses) in
  match acquisition_type options with
  | RAW =>
      prog_call (set_adc_trigger_mode 0) tt;;;
      prog_call (arm_adc adcs_to_read (nshots options)) tt;;;
      raw <~ prog_call device_result raw_adc_data;;
      prog_lift (process_readout_signal device raw readout_pulses qubits options)
  | INTEGRATION =>
      prog_call (set_adc_trigger_mode 1) tt;;;
      prog_call (set_qunit_mode 0) tt;;;
      raw <~ prog_call (start_qunit_acquisition (nshots options) (Some readout_qubits))
               (qunit_iq (nshots options) readout_qubits);;
      res <~ prog_lift (integrated_results options raw);;
      prog_lift (alias_serials res readout_pulses)
  | DISCRIMINATION =>
      prog_call (set_adc_trigger_mode 1) tt;;;
      prog_call (set_qunit_mode 1) tt;;;
      raw <~ prog_call (start_qunit_acquisition (nshots options) None)
               (qunit_states (nshots options));;
      prog_lift (alias_serials (sample_results raw) readout_pulses)
  end.

Definition RFSOC_RO_play (qubits : gmap nat Qubit) (sequence : list Pulse)
    (options : ExecutionParameters) : prog readout_call (gmap (nat + string) Results) :=
  super_play qubits sequence options;;;
  acquire qubits sequence options.

End ReadoutPlay.

(** *** Properties of [play]: waveform accumulation *)

Lemma prog_bind_ok {call A B} (m : prog call A) (f : A -> prog call B) (b : B) :
  (prog_bind m f).2 = ok b <-> exists a, m.2 = ok a /\ (f a).2 = ok b.
Proof.
  destruct m as [t [e|a]]; simpl.
  - split; [discriminate | intros (a & H & _); discriminate].
  - destruct (f a) as [t' r] eqn:E. simpl. split.
    + intros H. exists a. rewrite E. auto.
    + intros (a' & [= <-] & H). rewrite E in H. exact H.
Qed.

Lemma dict_get_ok `{Countable K} {V} (d : gmap K V) (k : K) (v : V) :
  dict_get d k = ok v <-> d !! k = Some v.
Proof.
  unfold dict_get. destruct (d !! k); split; intros E; try discriminate.
  - now inversion E.
  - now inversion E.
Qed.

(** The window an operand adds to position [i]. *)
Definition operand_at (operand : option (nat * list R)) (i : nat) : R :=
  match operand with
  | Some (lo, v) =>
      if decide (lo <= i)%nat
      then match v !! (i - lo)%nat with
           | Some w => w
           | None => 0
           end
      else 0
  | None => 0
  end.

Definition add_operand (operand : option (nat * list R)) (arr : list R) : list R :=
  match operand with
  | Some (lo, v) => iadd_window arr lo v
  | None => arr
  end.

Lemma length_add_operand operand arr : length (add_operand operand arr) = length arr.
Proof.
  destruct operand as [[lo v]|]; [|reflexivity].
  unfold add_operand, iadd_window. apply length_imap.
Qed.

Lemma add_operand_lookup operand arr i :
  add_operand operand arr !! i = (fun x => x + operand_at operand i) <$> arr !! i.
Proof.
  destruct operand as [[lo v]|]; simpl.
  - unfold iadd_window. rewrite list_lookup_imap.
    destruct (arr !! i) as [x|]; simpl; [|reflexivity].
    destruct (decide (lo <= i)%nat); [|f_equal; lra].
    destruct (v !! (i - lo)%nat); f_equal; lra.
  - destruct (arr !! i) as [x|]; simpl; [f_equal; lra | reflexivity].
Qed.

(** Adding two operands one after the other into a zero array gives the
    element-wise sum of the arrays obtained by adding each alone. *)
Lemma add_operand_superpose o1 o2 (z : list R) :
  Forall (fun x => x = 0) z ->
  add_operand o2 (add_operand o1 z)
  = zip_with Rplus (add_operand o1 z) (add_operand o2 z).
Proof.
  intros Hz. apply list_eq. intros i.
  rewrite lookup_zip_with, !add_operand_lookup.
  destruct (z !! i) as [x|] eqn:E; simpl; [|reflexivity].
  assert (x = 0) as -> by exact (Forall_lookup_1 _ _ _ _ Hz E).
  f_equal. lra.
Qed.

Section PlayProperties.

Variable device : Device.
Variable ports_dac : string -> nat.
Variable ports_adc : string -> nat.
Variable channel_delay_offset_dac : Z.
Variable channel_delay_offset_adc : Z.
Variable gaussian : Z -> R -> list R.
Variable hamming : nat -> list R.

#[local] Abbreviation render := (render device ports_dac ports_adc
                      channel_delay_offset_dac channel_delay_offset_adc gaussian hamming).
#[local] Abbreviation compile := (compile device ports_dac ports_adc
                       channel_delay_offset_dac channel_delay_offset_adc gaussian hamming).
#[local] Abbreviation play_pulse := (play_pulse device ports_dac ports_adc
                          channel_delay_offset_dac channel_delay_offset_adc gaussian hamming).
#[local] Abbreviation w0 := (initial_waveforms device).

Lemma initial_waveform_zero d arr :
  waveform_array w0 !! d = Some arr -> Forall (fun x => x = 0) arr.
Proof.
  unfold initial_waveforms. simpl. rewrite lookup_map_seq_0, list_lookup_fmap.
  destruct (dac device !! d); simpl; [|discriminate].
  intros [= <-]. apply Forall_replicate. reflexivity.
Qed.

Lemma initial_addr_defined d arr :
  waveform_array w0 !! d = Some arr -> dac_end_addr w0 !! d = Some 0%Z.
Proof.
  unfold initial_waveforms. simpl. rewrite !lookup_map_seq_0, !list_lookup_fmap.
  destruct (dac device !! d); simpl; [reflexivity | discriminate].
Qed.

(** The scaled samples [accumulate] adds for a rendered pulse. *)
Definition samples (pulse : Pulse) (r : Rendered) : list R :=
  (fun x => dac_max_amplitude device * amplitude pulse * x) <$> rendered_wfm r.

Lemma accumulate_ok w pulse r w' :
  accumulate device w pulse r = ok w' <->
  exists arr operand addr,
    waveform_array w !! rendered_dac r = Some arr /\
    slice_operand (length arr) (rendered_start r) (rendered_end r) (samples pulse r)
      = ok operand /\
    dac_end_addr w !! rendered_dac r = Some addr /\
    w' = mkWaveforms
           (<[rendered_dac r := add_operand (Some operand) arr]> (waveform_array w))
           (<[rendered_dac r := py_max (Z.shiftr (rendered_end r) 4) addr]> (dac_end_addr w)).
Proof.
  unfold accumulate, iadd_slice. fold (samples pulse r). split.
  - intros E. apply bind_ok in E as (arr & Harr & E). apply dict_get_ok in Harr.
    apply bind_ok in E as (arr' & Harr' & E).
    apply bind_ok in Harr' as ([lo v] & Hop & [= <-]).
    apply bind_ok in E as (addr & Haddr & [= <-]). apply dict_get_ok in Haddr.
    exists arr, (lo, v), addr. auto.
  - intros (arr & [lo v] & addr & Harr & Hop & Haddr & ->).
    apply dict_get_ok in Harr, Haddr.
    rewrite Harr. simpl. rewrite Hop. simpl. rewrite Haddr. reflexivity.
Qed.

Lemma play_pulse_ok qubits options w pulse w' :
  (play_pulse qubits options w pulse).2 = ok w' <->
  exists r, (render qubits options pulse).2 = ok r /\ accumulate device w pulse r = ok w'.
Proof.
  exact (prog_bind_ok (render qubits options pulse)
           (fun r => prog_lift (accumulate device w pulse r)) w').
Qed.

Lemma play_pulses_cons_ok qubits options w pulse rest w' :
  (play_pulses device ports_dac ports_adc channel_delay_offset_dac
     channel_delay_offset_adc gaussian hamming qubits options w (pulse :: rest)).2 = ok w' <->
  exists w1,
    (play_pulse qubits options w pulse).2 = ok w1 /\
    (play_pulses device ports_dac ports_adc channel_delay_offset_dac
       channel_delay_offset_adc gaussian hamming qubits options w1 rest).2 = ok w'.
Proof.
  exact (prog_bind_ok (play_pulse qubits options w pulse)
           (fun w1 => play_pulses device ports_dac ports_adc channel_delay_offset_dac
                        channel_delay_offset_adc gaussian hamming qubits options w1 rest) w').
Qed.

Lemma compile_one_ok qubits options pulse w' :
  (compile qubits options [pulse]).2 = ok w' <->
  exists r, (render qubits options pulse).2 = ok r /\ accumulate device w0 pulse r = ok w'.
Proof.
  unfold RFSOC.compile. rewrite play_pulses_cons_ok. split.
  - intros (w1 & H & [= <-]). now apply play_pulse_ok.
  - intros H. exists w'. split; [now apply play_pulse_ok | reflexivity].
Qed.

Lemma compile_two_ok qubits options pulse1 pulse2 w' :
  (compile qubits options [pulse1; pulse2]).2 = ok w' <->
  exists r1 w1 r2,
    (render qubits options pulse1).2 = ok r1 /\ accumulate device w0 pulse1 r1 = ok w1 /\
    (render qubits options pulse2).2 = ok r2 /\ accumulate device w1 pulse2 r2 = ok w'.
Proof.
  unfold RFSOC.compile. rewrite play_pulses_cons_ok. split.
  - intros (w1 & H1 & H). apply play_pulses_cons_ok in H as (w2 & H2 & [= <-]).
    apply play_pulse_ok in H1 as (r1 & Hr1 & Ha1).
    apply play_pulse_ok in H2 as (r2 & Hr2 & Ha2).
    exists r1, w1, r2. repeat split; assumption.
  - intros (r1 & w1 & r2 & Hr1 & Ha1 & Hr2 & Ha2).
    exists w1. split; [apply play_pulse_ok; eauto|].
    apply play_pulses_cons_ok. exists w'. split; [apply play_pulse_ok; eauto | reflexivity].
Qed.

Lemma broadcast_inplace_length f a b c :
  broadcast_inplace f a b = ok c -> length c = length a.
Proof.
  unfold broadcast_inplace. destruct (decide (length a = length b)) as [E|E].
  - intros [= <-]. rewrite length_zip_with. lia.
  - destruct b as [|y [|? ?]]; try discriminate.
    intros [= <-]. now rewrite length_fmap.
Qed.

Lemma length_arange start stop : length (arange start stop) = Z.to_nat (stop - start).
Proof. unfold arange. now rewrite length_fmap, length_seq. Qed.

(** Every rendered pulse has exactly as many samples as its window. *)
Lemma render_length qubits options pulse r :
  (render qubits options pulse).2 = ok r ->
  length (rendered_wfm r) = Z.to_nat (rendered_end r - rendered_start r).
Proof.
  unfold RFSOC.render. intros H.
  apply prog_bind_ok in H as (qubit_ & _ & H). cbv zeta in H.
  destruct (type pulse).
  - repeat (apply prog_bind_ok in H as (? & _ & H)).
    injection H as <-. cbn [rendered_wfm rendered_end rendered_start].
    unfold carrier. now rewrite length_fmap, length_fmap, length_arange.
  - apply prog_bind_ok in H as (dac_ & _ & H).
    destruct (String.eqb _ _).
    + apply prog_bind_ok in H as (ramp & _ & H).
      apply prog_bind_ok in H as (wfm1 & H1 & H).
      apply prog_bind_ok in H as (quadrature & _ & H).
      apply prog_bind_ok in H as (wfm2 & H2 & H).
      injection H as <-. cbn [rendered_wfm rendered_end rendered_start].
      apply broadcast_inplace_length in H1, H2. rewrite H2, H1.
      unfold carrier. now rewrite length_fmap, length_fmap, length_arange.
    + apply prog_bind_ok in H as (wfm1 & H1 & H).
      injection H as <-. cbn [rendered_wfm rendered_end rendered_start].
      apply broadcast_inplace_length in H1. rewrite H1.
      unfold carrier. now rewrite length_fmap, length_fmap, length_arange.
  - apply prog_bind_ok in H as (wfm & Hw & H).
    injection H as <-. cbn [rendered_wfm rendered_end rendered_start].
    unfold prog_lift, np_ones in Hw. simpl in Hw.
    destruct (Z.ltb _ 0); [discriminate|]. injection Hw as <-.
    now rewrite length_replicate.
Qed.

(** The waveform of DAC [d] after accumulating two rendered pulses into
    the initial arrays, in terms of the operands added to it. *)
Lemma accumulate_twice pulse1 r1 pulse2 r2 w1 w2 :
  accumulate device w0 pulse1 r1 = ok w1 ->
  accumulate device w0 pulse2 r2 = ok w2 ->
  exists op1 op2 w12,
    accumulate device w1 pulse2 r2 = ok w12 /\
    forall d z, waveform_array w0 !! d = Some z ->
      let o1 := if decide (d = rendered_dac r1) then Some op1 else None in
      let o2 := if decide (d = rendered_dac r2) then Some op2 else None in
      waveform_array w1 !! d = Some (add_operand o1 z) /\
      waveform_array w2 !! d = Some (add_operand o2 z) /\
      waveform_array w12 !! d = Some (add_operand o2 (add_operand o1 z)).
Proof.
  intros H1 H2.
  apply accumulate_ok in H1 as (z1 & op1 & addr1 & Hz1 & Hop1 & Haddr1 & ->).
  apply accumulate_ok in H2 as (z2 & op2 & addr2 & Hz2 & Hop2 & Haddr2 & ->).
  remember (rendered_dac r1) as d1 eqn:Ed1.
  remember (rendered_dac r2) as d2 eqn:Ed2.
  set (arr := if decide (d2 = d1) then add_operand (Some op1) z1 else z2).
  assert (Harr : <[d1 := add_operand (Some op1) z1]> (waveform_array w0) !! d2 = Some arr).
  { unfold arr. destruct (decide (d2 = d1)) as [->|Hne].
    - apply lookup_insert_eq.
    - rewrite lookup_insert_ne by congruence. exact Hz2. }
  assert (Hlen : length arr = length z2).
  { unfold arr. destruct (decide (d2 = d1)) as [E|Hne]; [|reflexivity].
    rewrite length_add_operand. rewrite E in Hz2. congruence. }
  assert (Haddr : exists addr,
    <[d1 := py_max (Z.shiftr (rendered_end r1) 4) addr1]> (dac_end_addr w0) !! d2 = Some addr).
  { destruct (decide (d2 = d1)) as [->|Hne].
    - eexists. apply lookup_insert_eq.
    - exists addr2. rewrite lookup_insert_ne by congruence. exact Haddr2. }
  destruct Haddr as (addr & Haddr).
  exists op1, op2. eexists. split.
  - apply accumulate_ok. exists arr, op2, addr. simpl. rewrite <- Ed2.
    split; [exact Harr|]. split; [now rewrite Hlen|]. split; [exact Haddr | reflexivity].
  - clear Ed1 Ed2. intros d z Hz. cbv zeta. cbn [waveform_array].
    destruct (decide (d = d1)) as [E1|Hne1], (decide (d = d2)) as [E2|Hne2];
      cbn [add_operand].
    + subst d1 d2. rewrite !lookup_insert_eq.
      unfold arr. destruct (decide (d = d)); [|contradiction].
      assert (z1 = z) as -> by congruence. assert (z2 = z) as -> by congruence.
      auto.
    + subst d1.
      repeat (rewrite lookup_insert_eq || rewrite lookup_insert_ne by congruence).
      assert (z1 = z) as -> by congruence. rewrite Hz. auto.
    + subst d2.
      repeat (rewrite lookup_insert_eq || rewrite lookup_insert_ne by congruence).
      unfold arr. destruct (decide (d = d1)); [congruence|].
      assert (z2 = z) as -> by congruence. rewrite Hz. auto.
    + rewrite !lookup_insert_ne by congruence. rewrite Hz. auto.
Qed.

(** The array [arr] holds the scaled samples of the rendered pulse in the
    window [start:end], sample [k] at position [start + k], and zeros
    everywhere else. *)
Definition holds_pulse_only (arr : list R) (pulse : Pulse) (r : Rendered) : Prop :=
  (forall k x, rendered_wfm r !! k = Some x ->
     arr !! (Z.to_nat (rendered_start r) + k)%nat
     = Some (dac_max_amplitude device * amplitude pulse * x)) /\
  (forall i, (i < Z.to_nat (rendered_start r) \/ Z.to_nat (rendered_end r) <= i)%nat ->
     (i < length arr)%nat -> arr !! i = Some 0).

(** Accumulating one rendered pulse into the initial arrays writes its
    scaled samples into the window, when the window lies inside the
    array. *)
Lemma accumulate_window pulse r w1 arr1 :
  accumulate device w0 pulse r = ok w1 ->
  waveform_array w1 !! rendered_dac r = Some arr1 ->
  length (rendered_wfm r) = Z.to_nat (rendered_end r - rendered_start r) ->
  (0 <= rendered_start r <= rendered_end r)%Z ->
  (rendered_end r <= Z.of_nat (length arr1))%Z ->
  holds_pulse_only arr1 pulse r.
Proof.
  intros Ha Harr Hlen Hse Hend.
  apply accumulate_ok in Ha as (z & op & addr & Hz & Hop & _ & ->).
  assert (E : arr1 = add_operand (Some op) z).
  { cbn [waveform_array] in Harr. rewrite lookup_insert_eq in Harr.
    injection Harr as <-. reflexivity. }
  subst arr1. clear Harr. rewrite length_add_operand in Hend.
  pose proof (initial_waveform_zero _ _ Hz) as Hzero.
  assert (Eop : op = (Z.to_nat (rendered_start r), samples pulse r)).
  { unfold slice_operand, slice_index in Hop. cbv zeta in Hop.
    destruct (Z.ltb_spec (rendered_start r) 0); [lia|].
    destruct (Z.ltb_spec (rendered_end r) 0); [lia|].
    rewrite (Z.min_l (rendered_start r)), (Z.min_l (rendered_end r)) in Hop by lia.
    destruct (decide _) as [_|Hne] in Hop.
    - now injection Hop as <-.
    - exfalso. apply Hne. unfold samples. now rewrite length_fmap. }
  subst op.
  assert (Hz0 : forall i, (i < length z)%nat -> z !! i = Some 0).
  { intros i Hi. destruct (lookup_lt_is_Some_2 z i Hi) as [x Hx].
    rewrite Hx. f_equal. exact (Forall_lookup_1 _ _ _ _ Hzero Hx). }
  split.
  - intros k x Hk. pose proof (lookup_lt_Some _ _ _ Hk) as Hlt.
    rewrite add_operand_lookup, Hz0 by lia. cbn [fmap option_fmap option_map operand_at].
    destruct (decide _) as [_|Hn]; [|lia].
    replace (Z.to_nat (rendered_start r) + k - Z.to_nat (rendered_start r))%nat with k by lia.
    unfold samples. rewrite list_lookup_fmap, Hk. cbn [fmap option_fmap option_map].
    f_equal. lra.
  - intros i Hi Hlt. rewrite length_add_operand in Hlt.
    rewrite add_operand_lookup, Hz0 by exact Hlt.
    cbn [fmap option_fmap option_map operand_at].
    destruct (decide _) as [Hle|_]; [|f_equal; lra].
    destruct (samples pulse r !! (i - Z.to_nat (rendered_start r))%nat) as [y|] eqn:Ey;
      [|f_equal; lra].
    apply lookup_lt_Some in Ey. unfold samples in Ey. rewrite length_fmap in Ey. lia.
Qed.

(** C5. Compilation of the waveform arrays in [RFSOC.play] is additive.
    A pulse compiled alone leaves, on its DAC, its scaled rendered samples
    in its sample window and zeros elsewhere (for a window inside the DAC
    memory).  Whenever two pulses compile on their own, the two-pulse
    sequence compiles, and every DAC's waveform is the element-wise sum of
    the two single-pulse waveforms (in particular for pulses with
    non-overlapping windows on one DAC); when the pulses go to different
    DACs, each of the two DACs holds exactly its single-pulse waveform and
    the other pulse leaves it at its initial zeros. *)
Theorem compile_superposition (qubits : gmap nat Qubit) (options : ExecutionParameters)
    (pulse1 pulse2 : Pulse) (w1 w2 : Waveforms) :
  (compile qubits options [pulse1]).2 = ok w1 ->
  (compile qubits options [pulse2]).2 = ok w2 ->
  exists w12,
    (compile qubits options [pulse1; pulse2]).2 = ok w12 /\
    (forall d a1 a2,
        waveform_array w1 !! d = Some a1 -> waveform_array w2 !! d = Some a2 ->
        waveform_array w12 !! d = Some (zip_with Rplus a1 a2)) /\
    (forall r1 r2,
        (render qubits options pulse1).2 = ok r1 ->
        (render qubits options pulse2).2 = ok r2 ->
        rendered_dac r1 <> rendered_dac r2 ->
        waveform_array w12 !! rendered_dac r1 = waveform_array w1 !! rendered_dac r1 /\
        waveform_array w12 !! rendered_dac r2 = waveform_array w2 !! rendered_dac r2 /\
        waveform_array w1 !! rendered_dac r2 = waveform_array w0 !! rendered_dac r2 /\
        waveform_array w2 !! rendered_dac r1 = waveform_array w0 !! rendered_dac r1) /\
    (forall r1 arr1,
        (render qubits options pulse1).2 = ok r1 ->
        waveform_array w1 !! rendered_dac r1 = Some arr1 ->
        (0 <= rendered_start r1 <= rendered_end r1)%Z ->
        (rendered_end r1 <= Z.of_nat (length arr1))%Z ->
        holds_pulse_only arr1 pulse1 r1) /\
    (forall r2 arr2,
        (render qubits options pulse2).2 = ok r2 ->
        waveform_array w2 !! rendered_dac r2 = Some arr2 ->
        (0 <= rendered_start r2 <= rendered_end r2)%Z ->
        (rendered_end r2 <= Z.of_nat (length arr2))%Z ->
        holds_pulse_only arr2 pulse2 r2).
Proof.
  intros H1 H2.
  apply compile_one_ok in H1 as (r1 & Hr1 & Ha1).
  apply compile_one_ok in H2 as (r2 & Hr2 & Ha2).
  destruct (accumulate_twice _ _ _ _ _ _ Ha1 Ha2) as (op1 & op2 & w12 & Ha12 & Hw).
  pose proof Ha1 as Hd1. apply accumulate_ok in Hd1 as (z1 & _ & _ & Hz1 & _).
  pose proof Ha2 as Hd2. apply accumulate_ok in Hd2 as (z2 & _ & _ & Hz2 & _).
  exists w12. split; [|split; [|split; [|split]]].
  - apply compile_two_ok. exists r1, w1, r2. repeat split; assumption.
  - intros d a1 a2 E1 E2.
    destruct (waveform_array w0 !! d) as [z|] eqn:Hz.
    + destruct (Hw d z Hz) as (F1 & F2 & F12). cbv zeta in *.
      rewrite F1 in E1. rewrite F2 in E2. injection E1 as <-. injection E2 as <-.
      rewrite F12. f_equal. apply add_operand_superpose.
      now apply (initial_waveform_zero d).
    + exfalso. apply accumulate_ok in Ha1 as (z & op & addr & Hz' & _ & _ & ->).
      cbn [waveform_array] in E1. destruct (decide (d = rendered_dac r1)) as [->|Hne].
      * congruence.
      * rewrite lookup_insert_ne in E1 by congruence. congruence.
  - intros r1' r2' Hr1' Hr2' Hne.
    rewrite Hr1 in Hr1'. injection Hr1' as <-.
    rewrite Hr2 in Hr2'. injection Hr2' as <-.
    destruct (Hw _ _ Hz1) as (F1 & F2 & F12).
    destruct (Hw _ _ Hz2) as (G1 & G2 & G12). cbv zeta in *.
    destruct (decide (rendered_dac r1 = rendered_dac r1)); [|contradiction].
    destruct (decide (rendered_dac r2 = rendered_dac r2)); [|contradiction].
    destruct (decide (rendered_dac r1 = rendered_dac r2)); [contradiction|].
    destruct (decide (rendered_dac r2 = rendered_dac r1)); [congruence|].
    simpl in *. rewrite F12, F1, G12, G2, G1, F2, Hz1, Hz2. auto.
  - intros r1' arr1 Hr1' Harr Hse Hend.
    rewrite Hr1 in Hr1'. injection Hr1' as <-.
    apply (accumulate_window pulse1 r1 w1 arr1 Ha1 Harr); [|exact Hse|exact Hend].
    exact (render_length _ _ _ _ Hr1).
  - intros r2' arr2 Hr2' Harr Hse Hend.
    rewrite Hr2 in Hr2'. injection Hr2' as <-.
    apply (accumulate_window pulse2 r2 w2 arr2 Ha2 Harr); [|exact Hse|exact Hend].
    exact (render_length _ _ _ _ Hr2).
Qed.

Lemma Int_part_IZR (n : Z) : Int_part (IZR n) = n.
Proof.
  unfold Int_part. rewrite <- (tech_up (IZR n) (n + 1)).
  - lia.
  - rewrite plus_IZR. lra.
  - rewrite plus_IZR. lra.
Qed.

Lemma py_int_IZR (x : R) (n : Z) : x = IZR n -> py_int x = n.
Proof.
  intros ->. unfold py_int. destruct (Rle_dec 0 (IZR n)).
  - apply Int_part_IZR.
  - rewrite <- opp_IZR, Int_part_IZR. lia.
Qed.

(** Rendering of a flux pulse whose window is known. *)
Lemma render_flux qubits options pulse q s e :
  qubits !! qubit pulse = Some q ->
  type pulse = FLUX ->
  start pulse * 1e-9 * (dac_sampling_rate device * 1e6) = IZR s ->
  (start pulse + duration pulse) * 1e-9 * (dac_sampling_rate device * 1e6) = IZR e ->
  (s <= e)%Z ->
  (render qubits options pulse).2
  = ok (mkRendered (ports_dac (channel pulse)) s e (replicate (Z.to_nat (e - s)) 1)).
Proof.
  intros Hq Ht Hs He Hle. unfold RFSOC.render, dict_get. rewrite Hq, Ht.
  rewrite (py_int_IZR _ s Hs), (py_int_IZR _ e He).
  unfold np_ones. destruct (Z.ltb_spec (e - s) 0); [lia|]. reflexivity.
Qed.

End PlayProperties.

(** A board with two DACs of eight samples at 1000 MHz, one qubit, and
    flux pulses of unit amplitude, used to exercise the theorems. *)
Definition example_device : Device := mkDevice 1000 1000 [8%nat; 8%nat] 1 2.
Definition example_qubits : gmap nat Qubit := {[ 0%nat := mkQubit ∅ (0%nat, 0%nat) ]}.
Definition example_options : ExecutionParameters := mkExecutionParameters 1 0 RAW CYCLIC.
Definition example_ports (channel : string) : nat :=
  if String.eqb channel "flux-1" then 1%nat else 0%nat.
Definition flux_pulse (start duration : R) (channel : string) : Pulse :=
  mkPulse start duration 1 0 0 channel FLUX (mkPulseShape "Rectangular" 0 0) 0 "flux".

Lemma compile_superposition_witness :
  exists w1 w2 w12,
    (compile example_device example_ports example_ports 0 0 (fun _ _ => []) (fun _ => [])
       example_qubits example_options [flux_pulse 0 2 "flux-0"]).2 = ok w1 /\
    (compile example_device example_ports example_ports 0 0 (fun _ _ => []) (fun _ => [])
       example_qubits example_options [flux_pulse 2 2 "flux-0"]).2 = ok w2 /\
    (compile example_device example_ports example_ports 0 0 (fun _ _ => []) (fun _ => [])
       example_qubits example_options [flux_pulse 0 2 "flux-0"; flux_pulse 2 2 "flux-0"]).2
      = ok w12 /\
    (forall d a1 a2,
      waveform_array w1 !! d = Some a1 -> waveform_array w2 !! d = Some a2 ->
      waveform_array w12 !! d = Some (zip_with Rplus a1 a2)) /\
    exists arr1,
      waveform_array w1 !! 0%nat = Some arr1 /\
      arr1 !! 0%nat = Some (1 * 1 * 1) /\
      arr1 !! 1%nat = Some (1 * 1 * 1) /\
      arr1 !! 2%nat = Some 0.
Proof.
  assert (Hr : (render example_device example_ports example_ports 0 0 (fun _ _ => [])
                  (fun _ => []) example_qubits example_options (flux_pulse 0 2 "flux-0")).2
               = ok (mkRendered 0 0 2 (replicate 2 1))).
  { refine (render_flux example_device example_ports example_ports 0 0
              (fun _ _ => []) (fun _ => []) example_qubits example_options
              (flux_pulse 0 2 "flux-0") (mkQubit ∅ (0%nat, 0%nat)) 0%Z 2%Z _ _ _ _ _);
      [reflexivity | reflexivity | simpl; lra | simpl; lra | lia]. }
  assert (H1 : exists w1,
    (compile example_device example_ports example_ports 0 0 (fun _ _ => []) (fun _ => [])
       example_qubits example_options [flux_pulse 0 2 "flux-0"]).2 = ok w1).
  { eexists. apply compile_one_ok. eexists. split; [exact Hr | reflexivity]. }
  assert (H2 : exists w2,
    (compile example_device example_ports example_ports 0 0 (fun _ _ => []) (fun _ => [])
       example_qubits example_options [flux_pulse 2 2 "flux-0"]).2 = ok w2).
  { eexists. apply compile_one_ok. eexists. split.
    - apply (render_flux _ _ _ _ _ _ _ _ _ _ (mkQubit ∅ (0%nat, 0%nat)) 2%Z 4%Z);
        [reflexivity | reflexivity | simpl; lra | simpl; lra | lia].
    - reflexivity. }
  destruct H1 as (w1 & H1), H2 as (w2 & H2).
  destruct (compile_superposition _ _ _ _ _ _ _ _ _ _ _ w1 w2 H1 H2)
    as (w12 & H12 & Hsum & _ & Hpin & _).
  exists w1, w2, w12. repeat (split; [assumption|]).
  pose proof H1 as H1'. apply compile_one_ok in H1' as (r1 & Hr1 & Ha1).
  rewrite Hr in Hr1. injection Hr1 as <-.
  apply accumulate_ok in Ha1 as (z & op & addr & Hz & _ & _ & Hw1).
  assert (Hlen : length z = 8%nat).
  { cbn [rendered_dac] in Hz. unfold initial_waveforms in Hz. cbn [waveform_array] in Hz.
    rewrite lookup_map_seq_0 in Hz. injection Hz as <-. reflexivity. }
  assert (Harr : waveform_array w1 !! 0%nat = Some (add_operand (Some op) z)).
  { rewrite Hw1. apply lookup_insert_eq. }
  exists (add_operand (Some op) z). split; [exact Harr|].
  destruct (Hpin (mkRendered 0 0 2 (replicate 2 1)) _ Hr Harr) as [Hin Hout].
  - simpl. lia.
  - rewrite length_add_operand, Hlen. simpl. lia.
  - split; [exact (Hin 0%nat 1 eq_refl)|]. split; [exact (Hin 1%nat 1 eq_refl)|].
    apply Hout; [right; simpl; lia | rewrite length_add_operand, Hlen; lia].
Defined.

(** *** Properties of [process_readout_signal] *)

Definition iq_equal (results : gmap (nat + string) Results) : Prop :=
  map_Forall (fun _ r => voltage_i r = voltage_q r) results.

Lemma iq_of_equal_references (I : list R) :
  fst <$> zip_with (fun i q => Cadd (of_real i) (Cmul j (of_real q))) I I
  = snd <$> zip_with (fun i q => Cadd (of_real i) (Cmul j (of_real q))) I I.
Proof.
  induction I as [|x I IH]; [reflexivity|].
  simpl. f_equal; [lra | exact IH].
Qed.

Lemma demodulate_iq_equal raw_signal t readout_pulse iq :
  demodulate raw_signal t readout_pulse = ok iq -> fst <$> iq = snd <$> iq.
Proof.
  unfold demodulate. cbv zeta. intros H.
  apply bind_ok in H as (I & HI & H). apply bind_ok in H as (Q & HQ & [= <-]).
  rewrite HI in HQ. injection HQ as <-.
  apply iq_of_equal_references.
Qed.

Lemma process_readout_pulse_iq_equal adc_raw_data qubits options t results pulse results' :
  iq_equal results ->
  process_readout_pulse adc_raw_data qubits options t results pulse = ok results' ->
  iq_equal results'.
Proof.
  unfold process_readout_pulse, iq_equal. intros Hinv H.
  apply bind_ok in H as (q & _ & H). apply bind_ok in H as (raw & _ & H).
  apply bind_ok in H as (iq & Hiq & H). apply demodulate_iq_equal in Hiq.
  assert (Hraw : voltage_i (IntegratedResults iq) = voltage_q (IntegratedResults iq))
    by exact Hiq.
  assert (Havg : voltage_i (average iq) = voltage_q (average iq))
    by (simpl; now rewrite Hiq).
  destruct (averaging_mode options); injection H as <-;
    repeat (apply map_Forall_insert_2; [assumption|]); exact Hinv.
Qed.

Lemma process_readout_pulses_iq_equal adc_raw_data qubits options t sequence :
  forall results results',
    iq_equal results ->
    process_readout_pulses adc_raw_data qubits options t results sequence = ok results' ->
    iq_equal results'.
Proof.
  induction sequence as [|pulse rest IH]; intros results results' Hinv; simpl.
  - now intros [= <-].
  - intros H. apply bind_ok in H as (results1 & H1 & H).
    apply (IH results1); [|exact H].
    now apply (process_readout_pulse_iq_equal _ _ _ _ _ _ _ Hinv H1).
Qed.

(** C10. Whatever the raw ADC data and the readout pulses, every result
    returned by [process_readout_signal] has equal I and Q components:
    both demodulation references are [np.sin] of the same argument. *)
Theorem readout_iq_components_equal (device : Device)
    (adc_raw_data : gmap nat (list (list R))) (sequence : list Pulse)
    (qubits : gmap nat Qubit) (options : ExecutionParameters)
    (results : gmap (nat + string) Results) (key : nat + string) (r : Results) :
  process_readout_signal device adc_raw_data sequence qubits options = ok results ->
  results !! key = Some r ->
  voltage_i r = voltage_q r.
Proof.
  unfold process_readout_signal. cbv zeta. intros H Hkey.
  apply process_readout_pulses_iq_equal in H.
  - exact (H key r Hkey).
  - apply map_Forall_empty.
Qed.

Definition readout_pulse_example : Pulse :=
  mkPulse 0 2 1 1 0 "readout-0" READOUT (mkPulseShape "Rectangular" 0 0) 0 "ro".

Lemma readout_iq_components_equal_witness :
  exists results r,
    process_readout_signal example_device {[ 0%nat := [[1; 2]] ]}
      [readout_pulse_example] example_qubits example_options = ok results /\
    results !! inl 0%nat = Some r /\
    voltage_i r = voltage_q r.
Proof.
  eexists. eexists. split; [reflexivity|]. split; [reflexivity|].
  eapply (readout_iq_components_equal example_device {[ 0%nat := [[1; 2]] ]}
            [readout_pulse_example] example_qubits example_options _ (inl 0%nat));
    reflexivity.
Defined.

(** *** Properties of [sweep] *)

(** C8. Every call of [RFSOC_RO.sweep] raises [TypeError] from the guard
    [len(sweeper > 1)], before any sweep value is applied or any sequence
    is played; in particular the [NotImplementedError] branch is never
    reached. *)
Theorem sweep_raises_TypeError
    (play_result : list Pulse -> result (gmap (nat + string) Results))
    (results_add : Results -> Results -> Results)
    (qubits : gmap nat Qubit) (sequence : list Pulse) (options : ExecutionParameters)
    (sweeper : list Sweeper) :
  sweep play_result results_add qubits sequence options sweeper = ([], raise TypeError) /\
  (sweep play_result results_add qubits sequence options sweeper).2
    <> raise NotImplementedError.
Proof.
  assert (E : sweep play_result results_add qubits sequence options sweeper
              = ([], raise TypeError)).
  { unfold sweep, sweeper_tuple, prog_lift, prog_bind. reflexivity. }
  split; [exact E|]. rewrite E. discriminate.
Qed.

(** *** Further properties of [play] *)

Lemma prog_bind_trace {call A B} (m : prog call A) (f : A -> prog call B) :
  (prog_bind m f).1
  = m.1 ++ match m.2 with
           | inr a => (f a).1
           | inl _ => []
           end.
Proof.
  destruct m as [t [e|a]]; simpl.
  - now rewrite app_nil_r.
  - now destruct (f a).
Qed.

Lemma prog_bind_raise {call A B} (m : prog call A) (f : A -> prog call B) (e : exn) :
  (prog_bind m f).2 = raise e <->
  m.2 = raise e \/ exists a, m.2 = ok a /\ (f a).2 = raise e.
Proof.
  destruct m as [t [e'|a]]; simpl.
  - split.
    + intros [= ->]. now left.
    + intros [[= ->] | (a & H & _)]; [reflexivity | discriminate].
  - destruct (f a) as [t' r] eqn:E. simpl. split.
    + intros H. right. exists a. rewrite E. auto.
    + intros [H | (a' & [= <-] & H)]; [discriminate|]. rewrite E in H. exact H.
Qed.

Lemma omap_all_None {A B} (f : A -> option B) (l : list A) :
  (forall x, f x = None) -> omap f l = [].
Proof.
  intros H. induction l as [|x l IH]; [reflexivity|].
  simpl. now rewrite H.
Qed.

Definition is_upload (c : device_call) : bool :=
  match c with
  | upload_waveform _ => true
  | _ => false
  end.

Section MorePlayProperties.

Variable device : Device.
Variable ports_dac : string -> nat.
Variable ports_adc : string -> nat.
Variable channel_delay_offset_dac : Z.
Variable channel_delay_offset_adc : Z.
Variable gaussian : Z -> R -> list R.
Variable hamming : nat -> list R.

#[local] Abbreviation render := (render device ports_dac ports_adc
                      channel_delay_offset_dac channel_delay_offset_adc gaussian hamming).
#[local] Abbreviation compile := (compile device ports_dac ports_adc
                       channel_delay_offset_dac channel_delay_offset_adc gaussian hamming).
#[local] Abbreviation play_pulse := (play_pulse device ports_dac ports_adc
                          channel_delay_offset_dac channel_delay_offset_adc gaussian hamming).
#[local] Abbreviation play_pulses := (play_pulses device ports_dac ports_adc
                          channel_delay_offset_dac channel_delay_offset_adc gaussian hamming).
#[local] Abbreviation play := (play device ports_dac ports_adc
                          channel_delay_offset_dac channel_delay_offset_adc gaussian hamming).
#[local] Abbreviation w0 := (initial_waveforms device).

(** Induction over the loop of [play]: a property of the two dicts that
    holds initially and survives the accumulation of every rendered pulse
    holds when the loop ends. *)
Lemma play_pulses_invariant (P : Waveforms -> Prop) qubits options pulses :
  (forall w pulse r w',
      P w -> pulse ∈ pulses -> (render qubits options pulse).2 = ok r ->
      accumulate device w pulse r = ok w' -> P w') ->
  forall w w', P w -> (play_pulses qubits options w pulses).2 = ok w' -> P w'.
Proof.
  induction pulses as [|pulse rest IH]; intros Hstep w w' Hw H.
  - simpl in H. now injection H as <-.
  - apply play_pulses_cons_ok in H as (w1 & H1 & H).
    apply play_pulse_ok in H1 as (r & Hr & Ha).
    apply (IH (fun w p r w' HP Hin => Hstep w p r w' HP (list_elem_of_further _ _ _ Hin)) w1);
      [|exact H].
    apply (Hstep w pulse r w1 Hw); [left | exact Hr | exact Ha].
Qed.

(** Each DAC keeps its array of [max_samples] samples, and the two dicts
    keep the DAC ids as their keys, whatever pulses are compiled. *)
Theorem compile_preserves_shape (qubits : gmap nat Qubit) (options : ExecutionParameters)
    (pulses : list Pulse) (w : Waveforms) :
  (compile qubits options pulses).2 = ok w ->
  forall d,
    length <$> waveform_array w !! d = dac device !! d /\
    (is_Some (dac_end_addr w !! d) <-> is_Some (dac device !! d)).
Proof.
  unfold RFSOC.compile.
  apply (play_pulses_invariant
           (fun w => forall d,
                length <$> waveform_array w !! d = dac device !! d /\
                (is_Some (dac_end_addr w !! d) <-> is_Some (dac device !! d)))).
  - intros w1 pulse r w' Hinv _ _ Ha d.
    apply accumulate_ok in Ha as (arr & op & addr & Harr & _ & Haddr & ->).
    destruct (Hinv d) as [Hlen Hdom]. cbn [waveform_array dac_end_addr].
    destruct (decide (rendered_dac r = d)) as [<-|Hne].
    + rewrite !lookup_insert_eq. rewrite Harr in Hlen. split.
      * change (Some (length (add_operand (Some op) arr)) = dac device !! rendered_dac r).
        rewrite length_add_operand. exact Hlen.
      * rewrite <- Hdom, Haddr. split; eauto.
    + now rewrite !lookup_insert_ne.
  - intros d. unfold initial_waveforms. cbn [waveform_array dac_end_addr].
    rewrite !lookup_map_seq_0, !list_lookup_fmap.
    destruct (dac device !! d) as [n|]; simpl.
    + rewrite length_replicate. split; [reflexivity|]. split; eauto.
    + split; [reflexivity|]. split; intros [? ?]; discriminate.
Qed.

(** A DAC to which none of the pulses is rendered keeps its initial zeros
    and its end address 0. *)
Theorem compile_leaves_other_dacs (qubits : gmap nat Qubit) (options : ExecutionParameters)
    (pulses : list Pulse) (w : Waveforms) (d : nat) :
  (compile qubits options pulses).2 = ok w ->
  (forall pulse r, pulse ∈ pulses -> (render qubits options pulse).2 = ok r ->
                   rendered_dac r <> d) ->
  waveform_array w !! d = waveform_array w0 !! d /\
  dac_end_addr w !! d = dac_end_addr w0 !! d.
Proof.
  unfold RFSOC.compile. intros H Hother. revert H.
  apply (play_pulses_invariant
           (fun w => waveform_array w !! d = waveform_array w0 !! d /\
                     dac_end_addr w !! d = dac_end_addr w0 !! d)).
  - intros w1 pulse r w' [Hw He] Hin Hr Ha.
    apply accumulate_ok in Ha as (arr & op & addr & _ & _ & _ & ->).
    cbn [waveform_array dac_end_addr].
    pose proof (Hother pulse r Hin Hr).
    now rewrite !lookup_insert_ne.
  - split; reflexivity.
Qed.

(** A sequence all of whose pulses end before DAC sample 16 leaves every
    end address at 0, so that [play] uploads an empty payload: the end
    address is counted in blocks of 16 samples ([end >> 4]). *)
Theorem short_pulses_are_not_uploaded (qubits : gmap nat Qubit)
    (options : ExecutionParameters) (pulses : list Pulse) (w : Waveforms) :
  (compile qubits options pulses).2 = ok w ->
  (forall pulse r, pulse ∈ pulses -> (render qubits options pulse).2 = ok r ->
                   (rendered_end r < 16)%Z) ->
  payload_of device w = [].
Proof.
  unfold RFSOC.compile. intros H Hshort.
  assert (Hzero : forall d addr, dac_end_addr w !! d = Some addr -> addr = 0%Z).
  { revert H.
    apply (play_pulses_invariant
             (fun w => forall d addr, dac_end_addr w !! d = Some addr -> addr = 0%Z)).
    - intros w1 pulse r w' Hinv Hin Hr Ha d addr.
      apply accumulate_ok in Ha as (arr & op & addr1 & _ & _ & Haddr1 & ->).
      cbn [dac_end_addr].
      destruct (decide (rendered_dac r = d)) as [<-|Hne].
      + rewrite lookup_insert_eq. intros [= <-].
        rewrite (Hinv _ _ Haddr1). pose proof (Hshort pulse r Hin Hr) as Hlt.
        unfold py_max.
        assert (Z.shiftr (rendered_end r) 4 <= 0)%Z.
        { rewrite Z.shiftr_div_pow2 by lia. change (2 ^ 4)%Z with 16%Z.
          apply Z.lt_succ_r. apply Z.div_lt_upper_bound; lia. }
        destruct (Z.ltb_spec (Z.shiftr (rendered_end r) 4) 0); lia.
      + rewrite lookup_insert_ne by exact Hne. apply Hinv.
    - intros d addr. unfold initial_waveforms. cbn [dac_end_addr].
      rewrite lookup_map_seq_0, list_lookup_fmap.
      destruct (dac device !! d); simpl; [now intros [= <-] | discriminate]. }
  unfold payload_of. apply omap_all_None. intros id.
  destruct (waveform_array w !! id); [|reflexivity].
  destruct (dac_end_addr w !! id) as [addr|] eqn:E; [|reflexivity].
  now rewrite (Hzero id addr E).
Qed.

Lemma prog_bind_snd {call A B} (m : prog call A) (f : A -> prog call B) :
  (prog_bind m f).2
  = match m.2 with
    | inr a => (f a).2
    | inl e => inl e
    end.
Proof. destruct m as [t [e|a]]; simpl; [reflexivity | now destruct (f a)]. Qed.

Lemma prog_bind_Forall {call A B} (P : call -> Prop) (m : prog call A)
    (f : A -> prog call B) :
  Forall P m.1 -> (forall a, Forall P (f a).1) -> Forall P (prog_bind m f).1.
Proof.
  intros Hm Hf. rewrite prog_bind_trace. apply Forall_app. split; [exact Hm|].
  destruct m.2; [constructor | apply Hf].
Qed.

(** Rendering a pulse programs delays and the qunit at most; it never
    uploads. *)
Lemma render_no_upload qubits options pulse :
  Forall (fun c => is_upload c = false) (render qubits options pulse).1.
Proof.
  unfold RFSOC.render. apply prog_bind_Forall; [constructor | intros qubit_].
  cbv zeta. destruct (type pulse).
  - repeat (apply prog_bind_Forall; [repeat constructor | intros ?]).
    + destruct (qunit_condition options); repeat constructor.
    + constructor.
  - apply prog_bind_Forall; [constructor | intros dac_].
    destruct (String.eqb _ _);
      repeat (apply prog_bind_Forall; [constructor | intros ?]); constructor.
  - apply prog_bind_Forall; [constructor | intros wfm]. constructor.
Qed.

Lemma play_pulses_no_upload qubits options pulses : forall w,
  Forall (fun c => is_upload c = false) (play_pulses qubits options w pulses).1.
Proof.
  induction pulses as [|pulse rest IH]; intros w; simpl; [constructor|].
  apply prog_bind_Forall; [|intros w1; apply IH].
  unfold RFSOC.play_pulse. apply prog_bind_Forall; [apply render_no_upload|].
  intros r. constructor.
Qed.

(** [play] uploads exactly once, as its last device call, and only when
    the loop over the pulses has succeeded; when the loop raises, the
    exception propagates and nothing is uploaded. *)
Theorem play_uploads_once_at_the_end (qubits : gmap nat Qubit) (pulses : list Pulse)
    (options : ExecutionParameters) :
  Forall (fun c => is_upload c = false) (compile qubits options pulses).1 /\
  play qubits pulses options
  = match (compile qubits options pulses).2 with
    | inr w => ((compile qubits options pulses).1 ++ [upload_waveform (payload_of device w)],
                ok tt)
    | inl e => ((compile qubits options pulses).1, raise e)
    end.
Proof.
  split; [apply play_pulses_no_upload|].
  unfold RFSOC.play, prog_bind, prog_call.
  destruct (compile qubits options pulses) as [t [e|w]]; reflexivity.
Qed.

Lemma play_pulses_app_snd qubits options l1 l2 : forall w,
  (play_pulses qubits options w (l1 ++ l2)).2
  = match (play_pulses qubits options w l1).2 with
    | inr w1 => (play_pulses qubits options w1 l2).2
    | inl e => inl e
    end.
Proof.
  induction l1 as [|pulse l1 IH]; intros w; [reflexivity|].
  change ((prog_bind (play_pulse qubits options w pulse)
             (fun w' => play_pulses qubits options w' (l1 ++ l2))).2
          = match (prog_bind (play_pulse qubits options w pulse)
                     (fun w' => play_pulses qubits options w' l1)).2 with
            | inr w1 => (play_pulses qubits options w1 l2).2
            | inl e => inl e
            end).
  rewrite !prog_bind_snd.
  destruct (play_pulse qubits options w pulse).2; [reflexivity | apply IH].
Qed.

Lemma play_pulses_app_ok qubits options l1 l2 w w1 :
  (play_pulses qubits options w l1).2 = ok w1 ->
  (play_pulses qubits options w (l1 ++ l2)).2 = (play_pulses qubits options w1 l2).2.
Proof. intros H. now rewrite play_pulses_app_snd, H. Qed.

Lemma play_pulses_cons_snd qubits options w pulse rest :
  (play_pulses qubits options w (pulse :: rest)).2
  = match (render qubits options pulse).2 with
    | inr r =>
        match accumulate device w pulse r with
        | inr w1 => (play_pulses qubits options w1 rest).2
        | inl e => inl e
        end
    | inl e => inl e
    end.
Proof.
  change ((play_pulses qubits options w (pulse :: rest)).2)
    with ((prog_bind (play_pulse qubits options w pulse)
             (fun w' => play_pulses qubits options w' rest)).2).
  rewrite prog_bind_snd. unfold RFSOC.play_pulse. rewrite prog_bind_snd.
  destruct (render qubits options pulse).2; reflexivity.
Qed.

Lemma play_snd qubits pulses options :
  (play qubits pulses options).2
  = match (compile qubits options pulses).2 with
    | inr _ => ok tt
    | inl e => inl e
    end.
Proof. unfold RFSOC.play. rewrite prog_bind_snd. reflexivity. Qed.

(** A pulse that names a qubit missing from [qubits] makes [play] raise
    [KeyError], wherever it stands in the sequence, provided the pulses
    before it compile. *)
Theorem unknown_qubit_raises_KeyError (qubits : gmap nat Qubit) (options : ExecutionParameters)
    (pre post : list Pulse) (pulse : Pulse) (w : Waveforms) :
  (compile qubits options pre).2 = ok w ->
  qubits !! qubit pulse = None ->
  (play qubits (pre ++ pulse :: post) options).2 = raise KeyError.
Proof.
  intros Hpre Hq. rewrite play_snd. unfold RFSOC.compile in *.
  rewrite (play_pulses_app_ok _ _ _ _ _ _ Hpre), play_pulses_cons_snd.
  unfold RFSOC.render. rewrite prog_bind_snd. unfold prog_lift, dict_get. rewrite Hq.
  reflexivity.
Qed.

(** A slice that runs past the end of the array is clipped by numpy, so
    an operand of two or more samples no longer fits. *)
Lemma slice_operand_overrun (n : nat) (start stop : Z) (v : list R) :
  (0 <= start)%Z -> (Z.of_nat n < stop)%Z ->
  length v = Z.to_nat (stop - start) -> (2 <= length v)%nat ->
  slice_operand n start stop v = raise ValueError.
Proof.
  intros Hs He Hlen H2. unfold slice_operand, slice_index. cbv zeta.
  destruct (Z.ltb_spec start 0); [lia|]. destruct (Z.ltb_spec stop 0); [lia|].
  destruct (decide (length v = Z.to_nat (Z.min stop (Z.of_nat n) - Z.min start (Z.of_nat n))))
    as [E|E]; [lia|].
  destruct v as [|x [|y v]]; simpl in H2; [lia | lia | reflexivity].
Qed.

(** A pulse of two or more samples whose window starts inside the DAC
    memory or beyond and ends past it is not clipped: [play] raises
    [ValueError] from the slice assignment. *)
Theorem window_overrun_raises_ValueError (qubits : gmap nat Qubit)
    (options : ExecutionParameters) (pulse : Pulse) (r : Rendered) (max_samples : nat) :
  (render qubits options pulse).2 = ok r ->
  dac device !! rendered_dac r = Some max_samples ->
  (0 <= rendered_start r)%Z ->
  (rendered_start r + 2 <= rendered_end r)%Z ->
  (Z.of_nat max_samples < rendered_end r)%Z ->
  (play qubits [pulse] options).2 = raise ValueError.
Proof.
  intros Hr Hdac Hs H2 He.
  pose proof (render_length device ports_dac ports_adc channel_delay_offset_dac
                channel_delay_offset_adc gaussian hamming _ _ _ _ Hr) as Hlen.
  assert (Harr : waveform_array w0 !! rendered_dac r = Some (replicate max_samples 0)).
  { unfold initial_waveforms. cbn [waveform_array].
    now rewrite lookup_map_seq_0, list_lookup_fmap, Hdac. }
  assert (Hacc : accumulate device w0 pulse r = raise ValueError).
  { unfold accumulate, iadd_slice, dict_get. rewrite Harr.
    cbn [mbind result_bind ok].
    rewrite length_replicate, slice_operand_overrun; [reflexivity | lia | lia | |].
    - now rewrite length_fmap.
    - rewrite length_fmap, Hlen. lia. }
  rewrite play_snd. unfold RFSOC.compile. rewrite play_pulses_cons_snd, Hr.
  unfold ok. cbv beta iota. now rewrite Hacc.
Qed.

End MorePlayProperties.

(** The example board renders a flux pulse that starts at [s] ns and
    lasts [e - s] ns over the samples [s .. e - 1] (1000 MHz). *)
Lemma example_render_flux (s e : Z) (channel : string) :
  (s <= e)%Z ->
  (render example_device example_ports example_ports 0 0 (fun _ _ => []) (fun _ => [])
     example_qubits example_options (flux_pulse (IZR s) (IZR (e - s)) channel)).2
  = ok (mkRendered (example_ports channel) s e (replicate (Z.to_nat (e - s)) 1)).
Proof.
  intros Hle.
  apply (render_flux example_device example_ports example_ports 0 0
           (fun _ _ => []) (fun _ => []) example_qubits example_options
           (flux_pulse (IZR s) (IZR (e - s)) channel) (mkQubit ∅ (0%nat, 0%nat)) s e);
    [reflexivity | reflexivity | simpl; lra | simpl; rewrite minus_IZR; lra | exact Hle].
Qed.

Lemma compile_preserves_shape_witness :
  exists w,
    (compile example_device example_ports example_ports 0 0 (fun _ _ => []) (fun _ => [])
       example_qubits example_options [flux_pulse 0 2 "flux-0"]).2 = ok w /\
    length <$> waveform_array w !! 0%nat = Some 8%nat.
Proof.
  assert (H : exists w,
    (compile example_device example_ports example_ports 0 0 (fun _ _ => []) (fun _ => [])
       example_qubits example_options [flux_pulse 0 2 "flux-0"]).2 = ok w).
  { eexists. apply compile_one_ok. eexists. split.
    - apply (example_render_flux 0 2 "flux-0"). lia.
    - reflexivity. }
  destruct H as (w & H). exists w. split; [exact H|].
  exact (proj1 (compile_preserves_shape _ _ _ _ _ _ _ _ _ _ w H 0%nat)).
Defined.

Lemma compile_leaves_other_dacs_witness :
  exists w,
    (compile example_device example_ports example_ports 0 0 (fun _ _ => []) (fun _ => [])
       example_qubits example_options [flux_pulse 0 2 "flux-0"]).2 = ok w /\
    waveform_array w !! 1%nat = waveform_array (initial_waveforms example_device) !! 1%nat /\
    dac_end_addr w !! 1%nat = dac_end_addr (initial_waveforms example_device) !! 1%nat.
Proof.
  assert (H : exists w,
    (compile example_device example_ports example_ports 0 0 (fun _ _ => []) (fun _ => [])
       example_qubits example_options [flux_pulse 0 2 "flux-0"]).2 = ok w).
  { eexists. apply compile_one_ok. eexists. split.
    - apply (example_render_flux 0 2 "flux-0"). lia.
    - reflexivity. }
  destruct H as (w & H). exists w. split; [exact H|].
  apply (compile_leaves_other_dacs _ _ _ _ _ _ _ _ _ _ w 1%nat H).
  intros pulse r Hin Hr. apply list_elem_of_singleton in Hin. subst pulse.
  assert (E : ok r = ok (mkRendered 0 0 2 (replicate 2 1))).
  { rewrite <- Hr. apply (example_render_flux 0 2 "flux-0"). lia. }
  injection E as ->. simpl. lia.
Defined.

Lemma short_pulses_are_not_uploaded_witness :
  exists w,
    (compile example_device example_ports example_ports 0 0 (fun _ _ => []) (fun _ => [])
       example_qubits example_options [flux_pulse 0 2 "flux-0"]).2 = ok w /\
    payload_of example_device w = [].
Proof.
  assert (H : exists w,
    (compile example_device example_ports example_ports 0 0 (fun _ _ => []) (fun _ => [])
       example_qubits example_options [flux_pulse 0 2 "flux-0"]).2 = ok w).
  { eexists. apply compile_one_ok. eexists. split.
    - apply (example_render_flux 0 2 "flux-0"). lia.
    - reflexivity. }
  destruct H as (w & H). exists w. split; [exact H|].
  apply (short_pulses_are_not_uploaded _ _ _ _ _ _ _ _ _ _ w H).
  intros pulse r Hin Hr. apply list_elem_of_singleton in Hin. subst pulse.
  assert (E : ok r = ok (mkRendered 0 0 2 (replicate 2 1))).
  { rewrite <- Hr. apply (example_render_flux 0 2 "flux-0"). lia. }
  injection E as ->. simpl. lia.
Defined.

Lemma unknown_qubit_raises_KeyError_witness :
  (play example_device example_ports example_ports 0 0 (fun _ _ => []) (fun _ => [])
     example_qubits
     ([] ++ [mkPulse 0 2 1 0 0 "flux-0" FLUX (mkPulseShape "Rectangular" 0 0) 7 "flux"])
     example_options).2
  = raise KeyError.
Proof.
  apply (unknown_qubit_raises_KeyError example_device example_ports example_ports 0 0
           (fun _ _ => []) (fun _ => []) example_qubits example_options [] []
           (mkPulse 0 2 1 0 0 "flux-0" FLUX (mkPulseShape "Rectangular" 0 0) 7 "flux")
           (initial_waveforms example_device));
    reflexivity.
Defined.

Lemma window_overrun_raises_ValueError_witness :
  (play example_device example_ports example_ports 0 0 (fun _ _ => []) (fun _ => [])
     example_qubits [flux_pulse 6 4 "flux-0"] example_options).2
  = raise ValueError.
Proof.
  apply (window_overrun_raises_ValueError example_device example_ports example_ports 0 0
           (fun _ _ => []) (fun _ => []) example_qubits example_options
           (flux_pulse 6 4 "flux-0") (mkRendered 0 6 10 (replicate 4 1)) 8).
  - apply (example_render_flux 6 10 "flux-0"). lia.
  - reflexivity.
  - simpl. lia.
  - simpl. lia.
  - simpl. lia.
Defined.

(** *** Further properties of [process_readout_signal] *)

Lemma np_dot_is_ok (m : list (list R)) (v : list R) :
  (exists r, np_dot m v = ok r) <-> Forall (fun row => length row = length v) m.
Proof.
  unfold np_dot. induction m as [|row m IH]; simpl.
  - split; [constructor | eauto].
  - rewrite Forall_cons. destruct (decide (length row = length v)) as [E|E]; simpl.
    + destruct (mapM _ m) as [e|r] eqn:Em; simpl.
      * split; [intros (? & ?); discriminate|].
        intros [_ H]. apply IH in H as (? & ?). discriminate.
      * split; [|eauto]. intros _. split; [exact E|]. apply IH. eauto.
    + split; [intros (? & ?); discriminate | tauto].
Qed.

Lemma np_dot_raise (m : list (list R)) (v : list R) (e : exn) :
  np_dot m v = raise e -> e = ValueError.
Proof.
  unfold np_dot. revert e. induction m as [|row m IH]; intros e; simpl; [discriminate|].
  destruct (decide (length row = length v)); simpl; [|now intros [= <-]].
  destruct (mapM _ m) as [e'|r]; simpl; [|discriminate].
  intros [= <-]. now apply IH.
Qed.

Lemma demodulate_is_ok raw_signal t readout_pulse :
  (exists iq, demodulate raw_signal t readout_pulse = ok iq) <->
  Forall (fun row => length row = length t) raw_signal.
Proof.
  unfold demodulate. cbv zeta.
  rewrite <- (length_fmap (fun tk => sin (2 * PI * frequency readout_pulse * tk)) t).
  rewrite <- np_dot_is_ok. split.
  - intros (iq & H). apply bind_ok in H as (I & HI & _). eauto.
  - intros (I & HI). rewrite HI. simpl. eauto.
Qed.

Lemma demodulate_raise raw_signal t readout_pulse e :
  demodulate raw_signal t readout_pulse = raise e -> e = ValueError.
Proof.
  unfold demodulate. cbv zeta. intros H.
  apply bind_raise in H as [H | (I & _ & H)]; [now apply np_dot_raise in H|].
  apply bind_raise in H as [H | (Q & _ & H)]; [now apply np_dot_raise in H | discriminate].
Qed.

(** What one readout pulse needs to be processed: its qubit is known, the
    ADC of the qubit's readout line has raw data, and every shot of that
    data has [n] samples. *)
Definition readable (adc_raw_data : gmap nat (list (list R))) (qubits : gmap nat Qubit)
    (n : nat) (readout_pulse : Pulse) : Prop :=
  exists qubit_ raw_signal,
    qubits !! qubit readout_pulse = Some qubit_ /\
    adc_raw_data !! snd (readout_ports qubit_) = Some raw_signal /\
    Forall (fun row => length row = n) raw_signal.

Lemma dict_get_raise `{Countable K} {V} (d : gmap K V) (k : K) (e : exn) :
  dict_get d k = raise e -> e = KeyError.
Proof. unfold dict_get. destruct (d !! k); [discriminate | now intros [= <-]]. Qed.

(** One iteration stores one result under the pulse's qubit and under its
    serial: the per-shot voltages, or their average unless the averaging
    mode is [SINGLESHOT]. *)
Lemma process_readout_pulse_ok adc_raw_data qubits options t results pulse results' :
  process_readout_pulse adc_raw_data qubits options t results pulse = ok results' ->
  exists iq,
    results' = <[inr (serial pulse) :=
                   match averaging_mode options with
                   | SINGLESHOT => IntegratedResults iq
                   | _ => average iq
                   end]>
               (<[inl (qubit pulse) :=
                    match averaging_mode options with
                    | SINGLESHOT => IntegratedResults iq
                    | _ => average iq
                    end]> results).
Proof.
  unfold process_readout_pulse. intros H.
  apply bind_ok in H as (q & _ & H). apply bind_ok in H as (raw & _ & H).
  apply bind_ok in H as (iq & _ & H). exists iq.
  destruct (averaging_mode options); injection H as <-; [|reflexivity].
  now rewrite insert_insert_eq.
Qed.

Lemma process_readout_pulse_is_ok adc_raw_data qubits options t results pulse :
  (exists results', process_readout_pulse adc_raw_data qubits options t results pulse
                    = ok results') <->
  readable adc_raw_data qubits (length t) pulse.
Proof.
  unfold process_readout_pulse, readable. split.
  - intros (results' & H). apply bind_ok in H as (q & Hq & H).
    apply bind_ok in H as (raw & Hraw & H). apply bind_ok in H as (iq & Hiq & _).
    apply dict_get_ok in Hq, Hraw. exists q, raw. repeat split; try assumption.
    apply (demodulate_is_ok raw t pulse). eauto.
  - intros (q & raw & Hq & Hraw & Hrows).
    apply dict_get_ok in Hq, Hraw. rewrite Hq. cbn [mbind result_bind ok].
    rewrite Hraw. cbn [mbind result_bind ok].
    apply (demodulate_is_ok raw t pulse) in Hrows as (iq & ->). cbn [mbind result_bind ok].
    destruct (averaging_mode options); eauto.
Qed.

Lemma process_readout_pulse_raise adc_raw_data qubits options t results pulse e :
  process_readout_pulse adc_raw_data qubits options t results pulse = raise e ->
  e = KeyError \/ e = ValueError.
Proof.
  unfold process_readout_pulse. intros H.
  apply bind_raise in H as [H | (q & _ & H)]; [left; now apply dict_get_raise in H|].
  apply bind_raise in H as [H | (raw & _ & H)]; [left; now apply dict_get_raise in H|].
  apply bind_raise in H as [H | (iq & _ & H)]; [right; now apply demodulate_raise in H|].
  destruct (averaging_mode options); discriminate.
Qed.

Section MoreReadoutProperties.

Variable device : Device.
Variable adc_raw_data : gmap nat (list (list R)).
Variable qubits : gmap nat Qubit.
Variable options : ExecutionParameters.

Lemma process_readout_pulses_is_ok t sequence : forall results,
  (exists results', process_readout_pulses adc_raw_data qubits options t results sequence
                    = ok results') <->
  Forall (readable adc_raw_data qubits (length t)) sequence.
Proof.
  induction sequence as [|pulse rest IH]; intros results; simpl.
  - split; [constructor | eauto].
  - rewrite Forall_cons, <- (process_readout_pulse_is_ok _ _ options t results pulse). split.
    + intros (results' & H). apply bind_ok in H as (r1 & H1 & H).
      split; [eauto|]. apply (IH r1). eauto.
    + intros [(r1 & H1) H]. rewrite H1. cbn [mbind result_bind ok]. now apply IH.
Qed.

Lemma process_readout_pulses_raise t sequence e : forall results,
  process_readout_pulses adc_raw_data qubits options t results sequence = raise e ->
  e = KeyError \/ e = ValueError.
Proof.
  induction sequence as [|pulse rest IH]; intros results; simpl; [discriminate|].
  intros H. apply bind_raise in H as [H | (r1 & _ & H)].
  - now apply process_readout_pulse_raise in H.
  - now apply IH in H.
Qed.

(** [process_readout_signal] returns exactly when every readout pulse is
    readable with [adc_sample_size] samples per shot; otherwise it raises
    [KeyError] (unknown qubit, ADC without data) or [ValueError] (a shot of
    another length), and nothing else. *)
Theorem readout_succeeds_iff_readable (sequence : list Pulse) :
  ((exists results,
      process_readout_signal device adc_raw_data sequence qubits options = ok results) <->
   Forall (readable adc_raw_data qubits (adc_sample_size device)) sequence) /\
  (forall e,
      process_readout_signal device adc_raw_data sequence qubits options = raise e ->
      e = KeyError \/ e = ValueError).
Proof.
  unfold process_readout_signal. cbv zeta. split.
  - rewrite process_readout_pulses_is_ok. now rewrite length_fmap, length_seq.
  - intros e. apply process_readout_pulses_raise.
Qed.

Lemma process_readout_pulses_keys t sequence : forall results results',
  process_readout_pulses adc_raw_data qubits options t results sequence = ok results' ->
  forall key,
    is_Some (results' !! key) <->
    is_Some (results !! key) \/
    exists pulse, pulse ∈ sequence /\ (key = inl (qubit pulse) \/ key = inr (serial pulse)).
Proof.
  induction sequence as [|pulse rest IH]; intros results results'; simpl.
  - intros [= <-] key. split; [now left|].
    intros [H | (p & Hin & _)]; [exact H | inversion Hin].
  - intros H key. apply bind_ok in H as (r1 & H1 & H).
    rewrite (IH _ _ H key).
    apply process_readout_pulse_ok in H1 as (iq & ->).
    rewrite !lookup_insert_is_Some. split.
    + intros [[<- | [_ [<- | [_ Hs]]]] | (p & Hin & Hk)].
      * right. exists pulse. split; [left | now right].
      * right. exists pulse. split; [left | now left].
      * now left.
      * right. exists p. split; [now right | exact Hk].
    + intros [Hs | (p & Hin & Hk)].
      * left. destruct (decide (inr (serial pulse) = key)); [now left|].
        right. split; [assumption|].
        destruct (decide (inl (qubit pulse) = key)); [now left|]. right. auto.
      * apply elem_of_cons in Hin as [-> | Hin]; [|right; eauto].
        left. destruct Hk as [-> | ->]; [|now left].
        right. split; [discriminate | now left].
Qed.

(** The keys of the returned dict are exactly the qubits and the serials
    of the processed readout pulses. *)
Theorem readout_result_keys (sequence : list Pulse)
    (results : gmap (nat + string) Results) (key : nat + string) :
  process_readout_signal device adc_raw_data sequence qubits options = ok results ->
  (is_Some (results !! key) <->
   exists pulse, pulse ∈ sequence /\ (key = inl (qubit pulse) \/ key = inr (serial pulse))).
Proof.
  unfold process_readout_signal. cbv zeta. intros H.
  rewrite (process_readout_pulses_keys _ _ _ _ H key), lookup_empty. split.
  - intros [[? ?] | H']; [discriminate | exact H'].
  - now right.
Qed.

Lemma process_readout_pulses_later t sequence : forall results results' key,
  process_readout_pulses adc_raw_data qubits options t results sequence = ok results' ->
  Forall (fun pulse => key <> inl (qubit pulse) /\ key <> inr (serial pulse)) sequence ->
  results' !! key = results !! key.
Proof.
  induction sequence as [|pulse rest IH]; intros results results' key; simpl.
  - now intros [= <-].
  - intros H Hall. apply bind_ok in H as (r1 & H1 & H).
    apply Forall_cons in Hall as [[Hq Hs] Hall].
    rewrite (IH _ _ _ H Hall).
    apply process_readout_pulse_ok in H1 as (iq & ->).
    rewrite !lookup_insert_ne by congruence. reflexivity.
Qed.

Lemma process_readout_pulses_app t l1 l2 results results' :
  process_readout_pulses adc_raw_data qubits options t results (l1 ++ l2) = ok results' ->
  exists r1,
    process_readout_pulses adc_raw_data qubits options t results l1 = ok r1 /\
    process_readout_pulses adc_raw_data qubits options t r1 l2 = ok results'.
Proof.
  revert results. induction l1 as [|pulse l1 IH]; intros results; simpl.
  - eauto.
  - intros H. apply bind_ok in H as (r0 & H0 & H).
    destruct (IH _ H) as (r1 & H1 & H2). exists r1. rewrite H0. auto.
Qed.

(** A readout pulse whose qubit and serial are not used again by a later
    pulse of the sequence has the same result under its serial and under
    its qubit: per-shot voltages in [SINGLESHOT] mode, their average
    otherwise. *)
Theorem serial_and_qubit_share_result (pre post : list Pulse) (pulse : Pulse)
    (results : gmap (nat + string) Results) :
  process_readout_signal device adc_raw_data (pre ++ pulse :: post) qubits options
    = ok results ->
  Forall (fun later => qubit later <> qubit pulse /\ serial later <> serial pulse) post ->
  exists r,
    results !! inr (serial pulse) = Some r /\
    results !! inl (qubit pulse) = Some r /\
    match averaging_mode options with
    | SINGLESHOT => exists voltage, r = IntegratedResults voltage
    | _ => exists voltage, r = AveragedIntegratedResults voltage
    end.
Proof.
  unfold process_readout_signal. cbv zeta. intros H Hpost.
  apply process_readout_pulses_app in H as (r1 & _ & H). simpl in H.
  apply bind_ok in H as (r2 & H2 & H).
  apply process_readout_pulse_ok in H2 as (iq & ->).
  assert (Hs : Forall (fun later => inr (serial pulse) <> @inl nat string (qubit later) /\
                                    @inr nat string (serial pulse) <> inr (serial later)) post).
  { eapply Forall_impl; [exact Hpost|]. intros later [_ Hne]. split; congruence. }
  assert (Hq : Forall (fun later => @inl nat string (qubit pulse) <> inl (qubit later) /\
                                    inl (qubit pulse) <> @inr nat string (serial later)) post).
  { eapply Forall_impl; [exact Hpost|]. intros later [Hne _]. split; congruence. }
  rewrite (process_readout_pulses_later _ _ _ _ _ H Hs).
  rewrite (process_readout_pulses_later _ _ _ _ _ H Hq).
  rewrite lookup_insert_eq, lookup_insert_ne by discriminate. rewrite lookup_insert_eq.
  eexists. split; [reflexivity|]. split; [reflexivity|].
  destruct (averaging_mode options); unfold average; eauto.
Qed.

End MoreReadoutProperties.

Lemma readout_result_keys_witness :
  exists results,
    process_readout_signal example_device {[ 0%nat := [[1; 2]] ]}
      [readout_pulse_example] example_qubits example_options = ok results /\
    (is_Some (results !! inr "ro") <->
     exists pulse, pulse ∈ [readout_pulse_example] /\
                   (@inr nat string "ro" = inl (qubit pulse) \/
                    @inr nat string "ro" = inr (serial pulse))).
Proof.
  eexists. split; [reflexivity|].
  apply (readout_result_keys example_device {[ 0%nat := [[1; 2]] ]} example_qubits
           example_options [readout_pulse_example]).
  reflexivity.
Defined.

Lemma serial_and_qubit_share_result_witness :
  exists results r,
    process_readout_signal example_device {[ 0%nat := [[1; 2]] ]}
      ([] ++ readout_pulse_example :: []) example_qubits example_options = ok results /\
    results !! inr "ro" = Some r /\
    results !! inl 0%nat = Some r.
Proof.
  assert (H : exists results,
             process_readout_signal example_device {[ 0%nat := [[1; 2]] ]}
               ([] ++ readout_pulse_example :: []) example_qubits example_options
             = ok results) by (eexists; reflexivity).
  destruct H as [results H].
  destruct (serial_and_qubit_share_result example_device {[ 0%nat := [[1; 2]] ]}
              example_qubits example_options [] [] readout_pulse_example results H
              (List.Forall_nil _)) as (r & Hs & Hq & _).
  exists results, r. split; [exact H|]. split; [exact Hs | exact Hq].
Defined.

(** *** Further properties of [sweep]: the loop and the merge *)

Section MoreSweepProperties.

Variable play_result : list Pulse -> result (gmap (nat + string) Results).
Variable results_add : Results -> Results -> Results.

(** The body of [for serial in dict_b] of [merge_sweep_results], as the
    source writes it: the membership test, then one assignment. *)
Definition merge_serial (serial : nat + string) (b : Results)
    (dict_a : gmap (nat + string) Results) : gmap (nat + string) Results :=
  match dict_a !! serial with
  | Some a => <[serial := results_add a b]> dict_a
  | None => <[serial := b]> dict_a
  end.

(** The loop over the keys of [dict_b]. *)
Definition merge_sweep_results_loop (dict_a dict_b : gmap (nat + string) Results)
  : gmap (nat + string) Results :=
  map_fold merge_serial dict_a dict_b.

(** The loop of [merge_sweep_results] computes the key-wise union: a
    serial of both dicts holds the sum of the two results, a serial of one
    dict keeps that dict's result, and no other key appears. *)
Theorem merge_loop_is_keywise_sum (dict_a dict_b : gmap (nat + string) Results) :
  merge_sweep_results_loop dict_a dict_b = merge_sweep_results results_add dict_a dict_b /\
  forall serial,
    merge_sweep_results_loop dict_a dict_b !! serial =
    match dict_a !! serial, dict_b !! serial with
    | Some a, Some b => Some (results_add a b)
    | Some a, None => Some a
    | None, b => b
    end.
Proof.
  assert (E : merge_sweep_results_loop dict_a dict_b
              = merge_sweep_results results_add dict_a dict_b).
  { unfold merge_sweep_results_loop, merge_sweep_results.
    apply (map_fold_weak_ind
             (fun r m => r = union_with (fun a b => Some (results_add a b)) dict_a m)).
    - apply map_eq. intros k. rewrite lookup_union_with, lookup_empty.
      now destruct (dict_a !! k).
    - intros i x m r Hi ->. apply map_eq. intros k. unfold merge_serial.
      rewrite lookup_union_with, Hi.
      destruct (decide (i = k)) as [<- | Hne].
      + rewrite (lookup_union_with _ dict_a (<[i:=x]> m)), lookup_insert_eq.
        destruct (dict_a !! i) as [a|]; simpl; now rewrite lookup_insert_eq.
      + rewrite (lookup_union_with _ dict_a (<[i:=x]> m)), lookup_insert_ne by exact Hne.
        destruct (dict_a !! i) as [a|]; simpl;
          rewrite lookup_insert_ne by exact Hne; now rewrite lookup_union_with. }
  split; [exact E|]. intros serial. rewrite E. unfold merge_sweep_results.
  rewrite lookup_union_with.
  now destruct (dict_a !! serial), (dict_b !! serial).
Qed.

(** The body of [sweep] after its guard never reaches the loop body:
    without a sweeper the subscript [sweeper[0]] raises [IndexError], and
    otherwise the loop header calls the array [sweep.values], which
    raises [TypeError]; no attenuator is set and no sequence is played. *)
Theorem sweep_loop_header_raises (qubits : gmap nat Qubit) (sequence : list Pulse)
    (sweeper : list Sweeper) :
  sweep_loop play_result results_add qubits sequence sweeper
  = ([], raise match sweeper with
               | [] => IndexError
               | _ :: _ => TypeError
               end).
Proof.
  unfold sweep_loop. destruct sweeper as [|sweep_ rest]; reflexivity.
Qed.

End MoreSweepProperties.

(** *** Properties of [RFSOC_RO.play] *)

Lemma iq_array_raise (I Q : list R) (e : exn) : iq_array I Q = raise e -> e = ValueError.
Proof.
  unfold iq_array. cbv zeta. destruct (decide _); [discriminate|].
  destruct I as [|i [|i' I]]; destruct Q as [|q [|q' Q]];
    try discriminate; now intros [= <-].
Qed.

(** The comprehension over the items of [raw]: every item is converted,
    or the first failing conversion raises [ValueError]. *)
Lemma integrated_fold_spec (wrap : list complex -> Results)
    (raw : gmap nat (list R * list R)) :
  match map_fold (integrated_item wrap) (ok ∅) raw with
  | inl e => e = ValueError
  | inr res =>
      (forall q, raw !! q = None -> res !! inl q = None) /\
      (forall q IQ, raw !! q = Some IQ ->
         exists iq, iq_array IQ.1 IQ.2 = ok iq /\ res !! inl q = Some (wrap iq)) /\
      (forall s, res !! inr s = None)
  end.
Proof.
  apply (map_fold_weak_ind
           (fun r m =>
              match r with
              | inl e => e = ValueError
              | inr res =>
                  (forall q, m !! q = None -> res !! inl q = None) /\
                  (forall q IQ, m !! q = Some IQ ->
                     exists iq, iq_array IQ.1 IQ.2 = ok iq /\
                                res !! inl q = Some (wrap iq)) /\
                  (forall s, res !! inr s = None)
              end)).
  - split; [|split]; intros; try apply lookup_empty.
    rewrite lookup_empty in *. discriminate.
  - intros i x m [e|res] Hi H; [exact H|].
    destruct H as (Hnone & Hsome & Hser). unfold integrated_item.
    cbn [mbind result_bind ok].
    destruct (iq_array x.1 x.2) as [e|iq] eqn:E; cbn [mbind result_bind ok].
    + now apply iq_array_raise in E.
    + split; [|split].
      * intros q Hq. apply lookup_insert_None in Hq as [Hq Hne].
        rewrite lookup_insert_ne by congruence. now apply Hnone.
      * intros q IQ Hq. destruct (decide (i = q)) as [<- | Hne].
        -- rewrite lookup_insert_eq in Hq. injection Hq as <-.
           exists iq. split; [exact E | apply lookup_insert_eq].
        -- rewrite lookup_insert_ne in Hq by exact Hne.
           rewrite lookup_insert_ne by congruence. now apply Hsome.
      * intros s'. rewrite lookup_insert_ne by discriminate. apply Hser.
Qed.

Lemma integrated_results_raise options raw e :
  integrated_results options raw = raise e -> e = ValueError.
Proof.
  unfold integrated_results. intros H.
  destruct (averaging_mode options).
  - pose proof (integrated_fold_spec average raw) as S. rewrite H in S. exact S.
  - pose proof (integrated_fold_spec IntegratedResults raw) as S. rewrite H in S. exact S.
Qed.

Lemma integrated_results_ok options raw res :
  integrated_results options raw = ok res ->
  (forall q, raw !! q = None -> res !! inl q = None) /\
  (forall q IQ, raw !! q = Some IQ ->
     exists iq, iq_array IQ.1 IQ.2 = ok iq /\
                res !! inl q = Some (match averaging_mode options with
                                     | SINGLESHOT => IntegratedResults iq
                                     | _ => average iq
                                     end)) /\
  (forall s, res !! inr s = None).
Proof.
  unfold integrated_results. intros H.
  destruct (averaging_mode options).
  - pose proof (integrated_fold_spec average raw) as S. rewrite H in S. exact S.
  - pose proof (integrated_fold_spec IntegratedResults raw) as S. rewrite H in S. exact S.
Qed.

Lemma sample_results_lookup (raw : gmap nat (list Z)) :
  (forall q, sample_results raw !! inl q = SampleResults <$> raw !! q) /\
  (forall s, sample_results raw !! inr s = None).
Proof.
  unfold sample_results. split.
  - intros q. rewrite lookup_kmap; [apply lookup_fmap | apply _].
  - intros s'. apply lookup_kmap_None; [apply _|]. intros q [=].
Qed.

Lemma alias_serials_qubits readout_pulses : forall res res',
  alias_serials res readout_pulses = ok res' ->
  forall q, res' !! inl q = res !! inl q.
Proof.
  induction readout_pulses as [|p rest IH]; intros res res'; simpl.
  - now intros [= <-].
  - intros H q. apply bind_ok in H as (r & _ & H).
    rewrite (IH _ _ H q). now rewrite lookup_insert_ne by discriminate.
Qed.

Lemma alias_serials_is_ok readout_pulses : forall res,
  (exists res', alias_serials res readout_pulses = ok res') <->
  Forall (fun p => is_Some (res !! inl (qubit p))) readout_pulses.
Proof.
  induction readout_pulses as [|p rest IH]; intros res; simpl.
  - split; [constructor | eauto].
  - rewrite Forall_cons. split.
    + intros (res' & H). apply bind_ok in H as (r & Hr & H).
      apply dict_get_ok in Hr. split; [eauto|].
      assert (Hrest : Forall (fun p0 => is_Some (<[inr (serial p) := r]> res !! inl (qubit p0)))
                        rest) by (apply IH; eauto).
      eapply Forall_impl; [exact Hrest|]. intros p0. cbv beta.
      now rewrite lookup_insert_ne by discriminate.
    + intros [[r Hr] Hrest]. apply dict_get_ok in Hr. rewrite Hr.
      cbn [mbind result_bind ok]. apply IH.
      eapply Forall_impl; [exact Hrest|]. intros p0. cbv beta.
      now rewrite lookup_insert_ne by discriminate.
Qed.

Lemma alias_serials_raise readout_pulses e : forall res,
  alias_serials res readout_pulses = raise e -> e = KeyError.
Proof.
  induction readout_pulses as [|p rest IH]; intros res; simpl; [discriminate|].
  intros H. apply bind_raise in H as [H | (r & _ & H)].
  - now apply dict_get_raise in H.
  - now apply IH in H.
Qed.

Lemma alias_serials_serials readout_pulses : forall res res',
  alias_serials res readout_pulses = ok res' ->
  (forall p, p ∈ readout_pulses -> is_Some (res' !! inr (serial p))) /\
  (forall s r, res' !! inr s = Some r ->
     res !! inr s = Some r \/
     exists p, p ∈ readout_pulses /\ serial p = s /\ res' !! inl (qubit p) = Some r).
Proof.
  induction readout_pulses as [|p rest IH]; intros res res'; simpl.
  - intros [= <-]. split; [intros p Hin; inversion Hin | auto].
  - intros H. apply bind_ok in H as (r & Hr & H). apply dict_get_ok in Hr.
    destruct (IH _ _ H) as [Hall Hback].
    pose proof (alias_serials_qubits _ _ _ H) as Hq.
    split.
    + intros p0 Hin. apply elem_of_cons in Hin as [-> | Hin]; [|now apply Hall].
      destruct (res' !! inr (serial p)) as [r'|] eqn:E; [eauto|].
      exfalso.
      assert (Hkeep : forall l m m', alias_serials m l = ok m' ->
                forall k, is_Some (m !! k) -> is_Some (m' !! k)).
      { clear. induction l as [|p l IHl]; intros m m'; simpl.
        - now intros [= <-].
        - intros H k Hk. apply bind_ok in H as (r & _ & H).
          apply (IHl _ _ H). apply lookup_insert_is_Some'. now right. }
      destruct (Hkeep _ _ _ H (inr (serial p))) as [x Hx].
      * rewrite lookup_insert_eq. eauto.
      * congruence.
    + intros s' r' Hs. destruct (Hback _ _ Hs) as [Hin | (p0 & Hin & Hser & Hp0)].
      * destruct (decide (serial p = s')) as [<- | Hne].
        -- rewrite lookup_insert_eq in Hin. injection Hin as <-.
           right. exists p. split; [left|]. split; [reflexivity|].
           rewrite Hq. now rewrite lookup_insert_ne by discriminate.
        -- rewrite lookup_insert_ne in Hin by congruence. now left.
      * right. exists p0. split; [now right | auto].
Qed.

Lemma elem_of_readout_pulses_of (sequence : list Pulse) (pulse : Pulse) :
  pulse ∈ readout_pulses_of sequence <-> pulse ∈ sequence /\ type pulse = READOUT.
Proof. unfold readout_pulses_of. rewrite list_elem_of_filter. tauto. Qed.

Section ReadoutPlayProperties.

Variable device : Device.
Variable ports_dac : string -> nat.
Variable ports_adc : string -> nat.
Variable channel_delay_offset_dac : Z.
Variable channel_delay_offset_adc : Z.
Variable gaussian : Z -> R -> list R.
Variable hamming : nat -> list R.
Variable adcs_to_read : list nat.
Variable raw_adc_data : gmap nat (list (list R)).
Variable qunit_iq : nat -> gset nat -> gmap nat (list R * list R).
Variable qunit_states : nat -> gmap nat (list Z).

#[local] Abbreviation acquire :=
  (acquire device adcs_to_read raw_adc_data qunit_iq qunit_states).
#[local] Abbreviation RFSOC_RO_play :=
  (RFSOC_RO_play device ports_dac ports_adc channel_delay_offset_dac
     channel_delay_offset_adc gaussian hamming adcs_to_read raw_adc_data qunit_iq
     qunit_states).
#[local] Abbreviation play :=
  (play device ports_dac ports_adc channel_delay_offset_dac channel_delay_offset_adc
     gaussian hamming).

Lemma acquire_snd qubits sequence options :
  (acquire qubits sequence options).2
  = match acquisition_type options with
    | RAW =>
        process_readout_signal device raw_adc_data (readout_pulses_of sequence) qubits options
    | INTEGRATION =>
        res ← integrated_results options
                (qunit_iq (nshots options)
                   (list_to_set (qubit <$> readout_pulses_of sequence)));
        alias_serials res (readout_pulses_of sequence)
    | DISCRIMINATION =>
        alias_serials (sample_results (qunit_states (nshots options)))
          (readout_pulses_of sequence)
    end.
Proof.
  unfold RFSOC.acquire. rewrite prog_bind_snd. cbv zeta.
  change ((prog_call (set_adc_trigger_repetition_rate
                        (py_int (relaxation_time options / 1e3))) tt).2)
    with (@inr exn unit tt). cbv beta iota.
  destruct (acquisition_type options); rewrite !prog_bind_snd; try reflexivity.
  unfold prog_call, prog_lift, ok. cbn [snd]. rewrite prog_bind_snd. cbn [snd].
  destruct (integrated_results options _); reflexivity.
Qed.

(** With [AcquisitionType.RAW] the result of [RFSOC_RO.play] has keys for
    the qubits and serials of the pulses of type [READOUT] only: drive and
    flux pulses of the sequence never appear in it. *)
Theorem raw_acquisition_keys_are_readout_pulses (qubits : gmap nat Qubit)
    (sequence : list Pulse) (options : ExecutionParameters)
    (res : gmap (nat + string) Results) (key : nat + string) :
  acquisition_type options = RAW ->
  (acquire qubits sequence options).2 = ok res ->
  (is_Some (res !! key) <->
   exists pulse, pulse ∈ sequence /\ type pulse = READOUT /\
                 (key = inl (qubit pulse) \/ key = inr (serial pulse))).
Proof.
  intros Hacq. rewrite acquire_snd, Hacq. unfold process_readout_signal. cbv zeta.
  intros H. rewrite (process_readout_pulses_keys _ _ _ _ _ _ _ H key), lookup_empty.
  split.
  - intros [[? ?] | (p & Hin & Hk)]; [discriminate|].
    apply elem_of_readout_pulses_of in Hin as [Hin Ht]. eauto.
  - intros (p & Hin & Ht & Hk). right. exists p. split; [|exact Hk].
    apply elem_of_readout_pulses_of. auto.
Qed.

(** With the qunit ([INTEGRATION] or [DISCRIMINATION]) every pulse of type
    [READOUT] has a result under its qubit and under its serial, and every
    result stored under a serial is the result of the qubit of a readout
    pulse with that serial. *)
Theorem qunit_results_alias_readout_pulses (qubits : gmap nat Qubit)
    (sequence : list Pulse) (options : ExecutionParameters)
    (res : gmap (nat + string) Results) :
  acquisition_type options <> RAW ->
  (acquire qubits sequence options).2 = ok res ->
  (forall pulse, pulse ∈ sequence -> type pulse = READOUT ->
     is_Some (res !! inl (qubit pulse)) /\ is_Some (res !! inr (serial pulse))) /\
  (forall s r, res !! inr s = Some r ->
     exists pulse, pulse ∈ sequence /\ type pulse = READOUT /\ serial pulse = s /\
                   res !! inl (qubit pulse) = Some r).
Proof.
  intros Hacq. rewrite acquire_snd.
  assert (Hgen : forall res0,
            (forall s, res0 !! inr s = None) ->
            alias_serials res0 (readout_pulses_of sequence) = ok res ->
            (forall pulse, pulse ∈ sequence -> type pulse = READOUT ->
               is_Some (res !! inl (qubit pulse)) /\ is_Some (res !! inr (serial pulse))) /\
            (forall s r, res !! inr s = Some r ->
               exists pulse, pulse ∈ sequence /\ type pulse = READOUT /\ serial pulse = s /\
                             res !! inl (qubit pulse) = Some r)).
  { intros res0 Hser H. destruct (alias_serials_serials _ _ _ H) as [Hall Hback].
    pose proof (alias_serials_qubits _ _ _ H) as Hq.
    assert (Hok : Forall (fun p => is_Some (res0 !! inl (qubit p)))
                    (readout_pulses_of sequence)) by (apply alias_serials_is_ok; eauto).
    split.
    - intros pulse Hin Ht.
      assert (Hin' : pulse ∈ readout_pulses_of sequence)
        by (apply elem_of_readout_pulses_of; auto).
      split; [|now apply Hall]. rewrite Hq.
      exact (proj1 (Forall_forall _ _) Hok pulse Hin').
    - intros s' r Hs. destruct (Hback _ _ Hs) as [Hin | (p & Hin & Hp & Hr)].
      + rewrite Hser in Hin. discriminate.
      + apply elem_of_readout_pulses_of in Hin as [Hin Ht]. eauto 6. }
  destruct (acquisition_type options); [contradiction | |].
  - intros H. apply bind_ok in H as (res0 & H0 & H).
    apply (Hgen res0); [|exact H]. apply (integrated_results_ok _ _ _ H0).
  - apply Hgen. apply sample_results_lookup.
Qed.

(** With [AcquisitionType.DISCRIMINATION] the acquisition returns exactly
    when the board reports states for the qubit of every readout pulse,
    and raises [KeyError] otherwise; the result under a qubit is the
    [SampleResults] of the states the board reported for it. *)
Theorem discrimination_succeeds_iff_qubits_reported (qubits : gmap nat Qubit)
    (sequence : list Pulse) (options : ExecutionParameters) :
  acquisition_type options = DISCRIMINATION ->
  ((exists res, (acquire qubits sequence options).2 = ok res) <->
   forall pulse, pulse ∈ sequence -> type pulse = READOUT ->
                 is_Some (qunit_states (nshots options) !! qubit pulse)) /\
  (forall e, (acquire qubits sequence options).2 = raise e -> e = KeyError) /\
  (forall res q, (acquire qubits sequence options).2 = ok res ->
                 res !! inl q = SampleResults <$> qunit_states (nshots options) !! q).
Proof.
  intros Hacq. rewrite acquire_snd, Hacq.
  destruct (sample_results_lookup (qunit_states (nshots options))) as [Hq Hs].
  split; [|split].
  - rewrite alias_serials_is_ok, Forall_forall. split.
    + intros H pulse Hin Ht.
      assert (Hin' : pulse ∈ readout_pulses_of sequence)
        by (apply elem_of_readout_pulses_of; auto).
      specialize (H pulse Hin'). rewrite Hq in H. now apply fmap_is_Some in H.
    + intros H pulse Hin. apply elem_of_readout_pulses_of in Hin as [Hin Ht].
      rewrite Hq. apply fmap_is_Some. now apply H.
  - intros e. apply alias_serials_raise.
  - intros res q H. rewrite (alias_serials_qubits _ _ _ H q). apply Hq.
Qed.

(** With [AcquisitionType.INTEGRATION] the acquisition fails only with
    [ValueError] (I and Q of a qubit do not broadcast) or [KeyError] (no
    data for the qubit of a readout pulse); when it returns, each qubit
    the board reported holds [I + 1j * Q], averaged unless the averaging
    mode is [SINGLESHOT], and no other qubit has a result. *)
Theorem integration_results_per_qubit (qubits : gmap nat Qubit)
    (sequence : list Pulse) (options : ExecutionParameters) :
  acquisition_type options = INTEGRATION ->
  let raw := qunit_iq (nshots options) (list_to_set (qubit <$> readout_pulses_of sequence)) in
  (forall e, (acquire qubits sequence options).2 = raise e ->
             e = ValueError \/ e = KeyError) /\
  (forall res, (acquire qubits sequence options).2 = ok res ->
     (forall q, raw !! q = None -> res !! inl q = None) /\
     (forall q IQ, raw !! q = Some IQ ->
        exists iq, iq_array IQ.1 IQ.2 = ok iq /\
                   res !! inl q = Some (match averaging_mode options with
                                        | SINGLESHOT => IntegratedResults iq
                                        | _ => average iq
                                        end))).
Proof.
  intros Hacq raw. rewrite acquire_snd, Hacq. fold raw. split.
  - intros e H. apply bind_raise in H as [H | (res0 & _ & H)].
    + left. now apply integrated_results_raise in H.
    + right. now apply alias_serials_raise in H.
  - intros res H. apply bind_ok in H as (res0 & H0 & H).
    destruct (integrated_results_ok _ _ _ H0) as (Hnone & Hsome & _).
    pose proof (alias_serials_qubits _ _ _ H) as Hq.
    split.
    + intros q Hr. rewrite Hq. now apply Hnone.
    + intros q IQ Hr. rewrite Hq. now apply Hsome.
Qed.

(** [RFSOC_RO.play] first sends the commands of [RFSOC.play]; when that
    raises, the exception propagates and no acquisition command is sent.
    Otherwise it sets the trigger repetition rate and then the ADC trigger
    mode, 0 for [RAW] and 1 for the qunit, and sends no command of
    [RFSOC.play] any more. *)
Theorem acquisition_follows_play (qubits : gmap nat Qubit) (sequence : list Pulse)
    (options : ExecutionParameters) :
  (forall e, (play qubits sequence options).2 = raise e ->
     RFSOC_RO_play qubits sequence options
     = (controller_call <$> (play qubits sequence options).1, raise e)) /\
  ((play qubits sequence options).2 = ok tt ->
   exists rest,
     (RFSOC_RO_play qubits sequence options).1
     = (controller_call <$> (play qubits sequence options).1) ++
       set_adc_trigger_repetition_rate (py_int (relaxation_time options / 1e3)) ::
       set_adc_trigger_mode (match acquisition_type options with
                             | RAW => 0
                             | _ => 1
                             end) :: rest /\
     Forall (fun c => is_controller_call c = false) rest).
Proof.
  unfold RFSOC.RFSOC_RO_play, super_play.
  destruct (play qubits sequence options) as [t [e|[]]]; cbv beta iota; cbn [fst snd]; split.
  - intros e' [= <-]. reflexivity.
  - discriminate.
  - discriminate.
  - intros _. rewrite prog_bind_trace. cbn [fst snd].
    unfold RFSOC.acquire. rewrite prog_bind_trace. cbn [prog_call fst snd app]. cbv zeta.
    destruct (acquisition_type options); rewrite prog_bind_trace;
      cbn [prog_call fst snd app]; (eexists; split; [reflexivity|]);
      repeat (apply prog_bind_Forall; [repeat constructor | intros ?]);
      repeat constructor.
Qed.

End ReadoutPlayProperties.

Definition example_sequence : list Pulse :=
  [readout_pulse_example; flux_pulse 0 2 "flux-0"].
Definition discrimination_options : ExecutionParameters :=
  mkExecutionParameters 2 0 DISCRIMINATION CYCLIC.
Definition integration_options : ExecutionParameters :=
  mkExecutionParameters 2 0 INTEGRATION CYCLIC.

Lemma raw_acquisition_keys_are_readout_pulses_witness :
  exists res,
    (acquire example_device [0%nat] {[ 0%nat := [[1; 2]] ]} (fun _ _ => ∅) (fun _ => ∅)
       example_qubits example_sequence example_options).2 = ok res /\
    (is_Some (res !! inr "flux") <->
     exists pulse, pulse ∈ example_sequence /\ type pulse = READOUT /\
                   (@inr nat string "flux" = inl (qubit pulse) \/
                    @inr nat string "flux" = inr (serial pulse))).
Proof.
  eexists. split; [reflexivity|].
  apply (raw_acquisition_keys_are_readout_pulses example_device [0%nat]
           {[ 0%nat := [[1; 2]] ]} (fun _ _ => ∅) (fun _ => ∅) example_qubits
           example_sequence example_options); reflexivity.
Defined.

Lemma qunit_results_alias_readout_pulses_witness :
  exists res,
    (acquire example_device [0%nat] ∅ (fun _ _ => ∅) (fun _ => {[ 0%nat := [0%Z; 1%Z] ]})
       example_qubits example_sequence discrimination_options).2 = ok res /\
    forall s r, res !! inr s = Some r ->
      exists pulse, pulse ∈ example_sequence /\ type pulse = READOUT /\ serial pulse = s /\
                    res !! inl (qubit pulse) = Some r.
Proof.
  eexists. split; [reflexivity|].
  refine (proj2 (qunit_results_alias_readout_pulses example_device [0%nat] ∅
                   (fun _ _ => ∅) (fun _ => {[ 0%nat := [0%Z; 1%Z] ]}) example_qubits
                   example_sequence discrimination_options _ _ eq_refl)).
  discriminate.
Defined.

Lemma discrimination_succeeds_iff_qubits_reported_witness :
  (exists res,
     (acquire example_device [0%nat] ∅ (fun _ _ => ∅) (fun _ => {[ 0%nat := [0%Z; 1%Z] ]})
        example_qubits example_sequence discrimination_options).2 = ok res) <->
  forall pulse, pulse ∈ example_sequence -> type pulse = READOUT ->
                is_Some (({[ 0%nat := [0%Z; 1%Z] ]} : gmap nat (list Z)) !! qubit pulse).
Proof.
  exact (proj1 (discrimination_succeeds_iff_qubits_reported example_device [0%nat] ∅
                  (fun _ _ => ∅) (fun _ => {[ 0%nat := [0%Z; 1%Z] ]}) example_qubits
                  example_sequence discrimination_options eq_refl)).
Defined.

Lemma integration_results_per_qubit_witness :
  exists res iq,
    (acquire example_device [0%nat] ∅ (fun _ _ => {[ 0%nat := ([1; 2], [3; 4]) ]})
       (fun _ => ∅) example_qubits example_sequence integration_options).2 = ok res /\
    iq_array [1; 2] [3; 4] = ok iq /\
    res !! inl 0%nat = Some (average iq).
Proof.
  assert (H : exists res,
             (acquire example_device [0%nat] ∅ (fun _ _ => {[ 0%nat := ([1; 2], [3; 4]) ]})
                (fun _ => ∅) example_qubits example_sequence integration_options).2
             = ok res) by (eexists; reflexivity).
  destruct H as [res H].
  destruct (proj2 (integration_results_per_qubit example_device [0%nat] ∅
                     (fun _ _ => {[ 0%nat := ([1; 2], [3; 4]) ]}) (fun _ => ∅)
                     example_qubits example_sequence integration_options eq_refl) res H)
    as [_ Hsome].
  destruct (Hsome 0%nat ([1; 2], [3; 4]) eq_refl) as (iq & Hiq & Hres).
  exists res, iq. split; [exact H|]. split; [exact Hiq | exact Hres].
Defined.

End RFSOC.

(** ** The time grid of a pulse sequence ([PulseSequence.__init__]) *)

Module PulseSequence.

#[local] Open Scope R_scope.

(** [np.linspace(start, stop, num)] with the end point included: [num]
    equally spaced samples, the last one set to [stop]; [ValueError] for a
    negative [num]. *)
Definition np_linspace (start stop : R) (num : Z) : result (list R) :=
  if (num <? 0)%Z then raise ValueError
  else
    let div := (num - 1)%Z in
    let delta := stop - start in
    let y := INR <$> seq 0 (Z.to_nat num) in
    let y :=
      if (0 <? div)%Z then (fun x => x * (delta / IZR div) + start) <$> y
      else (fun x => x * delta + start) <$> y in
    ok (if (1 <? num)%Z then <[(Z.to_nat num - 1)%nat := stop]> y else y).

(** [a / b] on Python numbers: [ZeroDivisionError] for a zero divisor. *)
Definition py_truediv (a b : R) : result R :=
  if Req_EM_T b 0 then raise ZeroDivisionError else ok (a / b).

(** The fields of [experiment.static] (outside the sources) that
    [__init__] reads. *)
Record Static : Type := mkStatic {
  static_nchannels : nat;
  static_sample_size : Z;
  static_sampling_rate : R;
  static_readout_pulse_duration : R
}.

(** The attributes [__init__] computes. *)
Record t : Type := mkPulseSequence {
  nchannels : nat;
  sample_size : Z;
  sampling_rate : R;
  duration : R;
  time : list R
}.

(** [PulseSequence.__init__(self, pulses, duration=None)]; [ds] is the
    pair of [self.duration] and [self.sample_size] after the [if]. *)
Definition __init__ (static : Static) (duration : option R) : result t :=
  let nchannels := static_nchannels static in
  let sample_size := static_sample_size static in
  let sampling_rate := static_sampling_rate static in
  ds ← match duration with
       | None =>
           duration ← py_truediv (IZR sample_size) sampling_rate;
           ok (duration, sample_size)
       | Some duration => ok (duration, RFSOC.py_int (duration * sampling_rate))
       end;
  let end_ := static_readout_pulse_duration static + 1e-6 in
  time ← np_linspace (end_ - ds.1) end_ ds.2;
  ok (mkPulseSequence nchannels ds.2 sampling_rate ds.1 time).

(** [__init__] by cases: the division of the default branch, then the
    grid. *)
Lemma init_unfold (static : Static) (duration : option R) :
  __init__ static duration
  = match duration with
    | None =>
        if Req_EM_T (static_sampling_rate static) 0 then raise ZeroDivisionError
        else
          time ← np_linspace
                   (static_readout_pulse_duration static + 1e-6
                    - IZR (static_sample_size static) / static_sampling_rate static)
                   (static_readout_pulse_duration static + 1e-6)
                   (static_sample_size static);
          ok (mkPulseSequence (static_nchannels static) (static_sample_size static)
                (static_sampling_rate static)
                (IZR (static_sample_size static) / static_sampling_rate static) time)
    | Some d =>
        time ← np_linspace (static_readout_pulse_duration static + 1e-6 - d)
                 (static_readout_pulse_duration static + 1e-6)
                 (RFSOC.py_int (d * static_sampling_rate static));
        ok (mkPulseSequence (static_nchannels static)
              (RFSOC.py_int (d * static_sampling_rate static))
              (static_sampling_rate static) d time)
    end.
Proof.
  unfold __init__, py_truediv. destruct duration as [d|]; [reflexivity|].
  destruct (Req_EM_T (static_sampling_rate static) 0); reflexivity.
Qed.

Lemma np_linspace_raise start stop num e :
  np_linspace start stop num = raise e -> e = ValueError /\ (num < 0)%Z.
Proof.
  unfold np_linspace. destruct (num <? 0)%Z eqn:E; [|discriminate].
  intros [= <-]. split; [reflexivity | lia].
Qed.

Lemma np_linspace_grid (start stop : R) (n : nat) :
  exists y,
    np_linspace start stop (Z.of_nat (S (S n))) = ok y /\
    length y = S (S n) /\
    y !! 0%nat = Some start /\
    y !! S n = Some stop /\
    forall k, (k < S n)%nat ->
      exists a b, y !! k = Some a /\ y !! S k = Some b /\
                  b - a = (stop - start) / INR (S n).
Proof.
  unfold np_linspace.
  assert (E1 : (Z.of_nat (S (S n)) <? 0)%Z = false) by (apply Z.ltb_ge; lia).
  assert (E2 : (0 <? Z.of_nat (S (S n)) - 1)%Z = true) by (apply Z.ltb_lt; lia).
  assert (E3 : (1 <? Z.of_nat (S (S n)))%Z = true) by (apply Z.ltb_lt; lia).
  assert (E4 : IZR (Z.of_nat (S (S n)) - 1) = INR (S n)).
  { rewrite INR_IZR_INZ. f_equal. lia. }
  rewrite E1, E2, E3, E4, Nat2Z.id. cbv zeta.
  replace (S (S n) - 1)%nat with (S n) by lia.
  set (step := (stop - start) / INR (S n)).
  set (y := (fun x => x * step + start) <$> (INR <$> seq 0 (S (S n)))).
  assert (Hlen : length y = S (S n)).
  { unfold y. now rewrite !length_fmap, length_seq. }
  assert (Hy : forall k, (k < S (S n))%nat -> y !! k = Some (INR k * step + start)).
  { intros k Hk. unfold y. rewrite !list_lookup_fmap, lookup_seq_lt by exact Hk.
    reflexivity. }
  assert (Hpos : INR (S n) <> 0) by (apply not_0_INR; lia).
  eexists. split; [reflexivity|]. split; [now rewrite length_insert|].
  split; [|split].
  - rewrite list_lookup_insert_ne by lia. rewrite Hy by lia. f_equal. simpl. lra.
  - apply list_lookup_insert_eq. lia.
  - intros k Hk. exists (INR k * step + start).
    rewrite list_lookup_insert_ne by lia. rewrite Hy by lia.
    destruct (decide (S k = S n)) as [E | Hne].
    + exists stop. split; [reflexivity|]. split.
      * rewrite E. apply list_lookup_insert_eq. lia.
      * injection E as ->. unfold step. rewrite (S_INR n). field.
        rewrite <- S_INR. exact Hpos.
    + exists (INR (S k) * step + start). split; [reflexivity|]. split.
      * rewrite list_lookup_insert_ne by lia. apply Hy. lia.
      * rewrite (S_INR k). ring.
Qed.

Lemma linspace_sequence_outcome (static : Static) (end_ d : R) (samples : Z) :
  let r := (time ← np_linspace (end_ - d) end_ samples;
            ok (mkPulseSequence (static_nchannels static) samples
                  (static_sampling_rate static) d time)) in
  r <> raise ZeroDivisionError /\
  (r = raise ValueError <-> (samples < 0)%Z) /\
  ((exists sequence, r = ok sequence /\ sample_size sequence = samples /\
                     length (time sequence) = Z.to_nat samples)
   <-> (0 <= samples)%Z).
Proof.
  cbv zeta. unfold np_linspace. destruct (samples <? 0)%Z eqn:E.
  - cbn [mbind result_bind raise]. apply Z.ltb_lt in E.
    split; [discriminate|]. split.
    + split; [intros _; exact E | reflexivity].
    + split; [intros (? & [=] & _) | lia].
  - cbn [mbind result_bind ok]. apply Z.ltb_ge in E.
    split; [discriminate|]. split.
    + split; [discriminate | lia].
    + split; [intros _; exact E|]. intros _. eexists. split; [reflexivity|].
      split; [reflexivity|]. cbn [time].
      destruct (1 <? samples)%Z, (0 <? samples - 1)%Z;
        rewrite ?length_insert, !length_fmap, length_seq; reflexivity.
Qed.

(** The three outcomes of [__init__].  It raises [ZeroDivisionError]
    exactly when the duration is defaulted and the sampling rate is 0;
    otherwise it raises [ValueError] (from [np.linspace]) exactly when the
    number of samples is negative, and returns a sequence whose time grid
    has that many points exactly when it is not.  The number of samples
    is the configured sample size by default and
    [int(duration * sampling_rate)] for an explicit duration. *)
Theorem init_outcomes (static : Static) (duration : option R) :
  let samples :=
    match duration with
    | None => static_sample_size static
    | Some d => RFSOC.py_int (d * static_sampling_rate static)
    end in
  let divides_by_zero := duration = None /\ static_sampling_rate static = 0 in
  (__init__ static duration = raise ZeroDivisionError <-> divides_by_zero) /\
  (__init__ static duration = raise ValueError <->
   ~ divides_by_zero /\ (samples < 0)%Z) /\
  ((exists sequence, __init__ static duration = ok sequence /\
                     sample_size sequence = samples /\
                     length (time sequence) = Z.to_nat samples)
   <-> ~ divides_by_zero /\ (0 <= samples)%Z).
Proof.
  cbv zeta. rewrite init_unfold. destruct duration as [d|].
  - destruct (linspace_sequence_outcome static
                (static_readout_pulse_duration static + 1e-6) d
                (RFSOC.py_int (d * static_sampling_rate static))) as (Hz & Hv & Hok).
    cbv zeta in Hz, Hv, Hok. split; [|split].
    + split; [intros H; contradiction | intros [[=] _]].
    + rewrite Hv. split; [intros H; split; [intros [[=] _] | exact H] | tauto].
    + rewrite Hok. split; [intros H; split; [intros [[=] _] | exact H] | tauto].
  - destruct (Req_EM_T (static_sampling_rate static) 0) as [E|E].
    + split; [|split].
      * split; auto.
      * split; [discriminate | intros [H _]; exfalso; apply H; auto].
      * split; [intros (? & [=] & _) | intros [H _]; exfalso; apply H; auto].
    + destruct (linspace_sequence_outcome static
                  (static_readout_pulse_duration static + 1e-6)
                  (IZR (static_sample_size static) / static_sampling_rate static)
                  (static_sample_size static)) as (Hz & Hv & Hok).
      cbv zeta in Hz, Hv, Hok. split; [|split].
      * split; [intros H; contradiction | intros [_ H]; contradiction].
      * rewrite Hv. split; [intros H; split; [intros [_ H']; contradiction | exact H] | tauto].
      * rewrite Hok. split; [intros H; split; [intros [_ H']; contradiction | exact H] | tauto].
Qed.

Lemma linspace_sequence_grid (static : Static) (end_ d : R) (samples : Z) (sequence : t) :
  (time ← np_linspace (end_ - d) end_ samples;
   ok (mkPulseSequence (static_nchannels static) samples
         (static_sampling_rate static) d time)) = ok sequence ->
  (2 <= sample_size sequence)%Z ->
  length (time sequence) = Z.to_nat (sample_size sequence) /\
  time sequence !! 0%nat = Some (end_ - duration sequence) /\
  time sequence !! (Z.to_nat (sample_size sequence) - 1)%nat = Some end_ /\
  forall k, (k + 1 < Z.to_nat (sample_size sequence))%nat ->
    exists a b, time sequence !! k = Some a /\ time sequence !! S k = Some b /\
                b - a = duration sequence / IZR (sample_size sequence - 1).
Proof.
  intros H Hn.
  apply bind_ok in H as (y & Hy & H). injection H as <-. cbn [sample_size time duration] in *.
  destruct (Z.to_nat samples) as [|[|n]] eqn:En; try lia.
  assert (Es : samples = Z.of_nat (S (S n))) by lia.
  destruct (np_linspace_grid (end_ - d) end_ n) as (y' & Hy' & Hlen & H0 & Hlast & Hstep).
  rewrite <- Es in Hy'. rewrite Hy in Hy'. injection Hy' as <-.
  split; [exact Hlen|]. split; [exact H0|].
  replace (S (S n) - 1)%nat with (S n) by lia. split; [exact Hlast|].
  intros k Hk. destruct (Hstep k) as (a & b & Ha & Hb & Hd); [lia|].
  exists a, b. split; [exact Ha|]. split; [exact Hb|]. rewrite Hd.
  replace (end_ - (end_ - d)) with d by ring.
  f_equal. rewrite INR_IZR_INZ. f_equal. lia.
Qed.

(** With at least two samples the time grid has [sample_size] points,
    starts at [end - duration], ends at
    [end = readout_pulse_duration + 1e-6], and consecutive points are
    [duration / (sample_size - 1)] apart. *)
Theorem time_grid_spans_duration (static : Static) (duration_ : option R) (sequence : t) :
  __init__ static duration_ = ok sequence ->
  (2 <= sample_size sequence)%Z ->
  let end_ := static_readout_pulse_duration static + 1e-6 in
  length (time sequence) = Z.to_nat (sample_size sequence) /\
  time sequence !! 0%nat = Some (end_ - duration sequence) /\
  time sequence !! (Z.to_nat (sample_size sequence) - 1)%nat = Some end_ /\
  forall k, (k + 1 < Z.to_nat (sample_size sequence))%nat ->
    exists a b, time sequence !! k = Some a /\ time sequence !! S k = Some b /\
                b - a = duration sequence / IZR (sample_size sequence - 1).
Proof.
  intros H Hn end_. rewrite init_unfold in H.
  destruct duration_ as [d|].
  - exact (linspace_sequence_grid static end_ d _ sequence H Hn).
  - destruct (Req_EM_T (static_sampling_rate static) 0) as [?|_]; [discriminate|].
    exact (linspace_sequence_grid static end_ _ _ sequence H Hn).
Qed.

(** With the default duration [sample_size / sampling_rate] the grid step
    is not the sampling period: times the sampling rate it is
    [sample_size / (sample_size - 1)], because [np.linspace] includes the
    end point. *)
Theorem default_grid_step_exceeds_sampling_period (static : Static) (sequence : t) :
  0 < static_sampling_rate static ->
  (2 <= static_sample_size static)%Z ->
  __init__ static None = ok sequence ->
  duration sequence * sampling_rate sequence = IZR (sample_size sequence) /\
  forall k a b,
    time sequence !! k = Some a -> time sequence !! S k = Some b ->
    (b - a) * sampling_rate sequence
    = IZR (sample_size sequence) / IZR (sample_size sequence - 1) /\
    1 / sampling_rate sequence < b - a.
Proof.
  intros Hrate Hn H.
  assert (Hs : sample_size sequence = static_sample_size static /\
               sampling_rate sequence = static_sampling_rate static /\
               duration sequence
               = IZR (static_sample_size static) / static_sampling_rate static).
  { rewrite init_unfold in H.
    destruct (Req_EM_T (static_sampling_rate static) 0) as [?|_]; [discriminate|].
    apply bind_ok in H as (y & _ & H). injection H as <-. auto. }
  destruct Hs as (Es & Er & Ed).
  assert (Hn' : (2 <= sample_size sequence)%Z) by (rewrite Es; exact Hn).
  assert (H' := H). rewrite init_unfold in H'.
  destruct (Req_EM_T (static_sampling_rate static) 0) as [?|_]; [discriminate|].
  destruct (linspace_sequence_grid static _ _ _ sequence H' Hn')
    as (Hlen & _ & _ & Hstep).
  assert (Hm : 0 < IZR (sample_size sequence - 1)) by (apply IZR_lt; lia).
  assert (Hgt : IZR (sample_size sequence - 1) < IZR (sample_size sequence))
    by (apply IZR_lt; lia).
  split.
  - rewrite Ed, Er, Es. field. lra.
  - intros k a b Ha Hb.
    assert (Hk : (k + 1 < Z.to_nat (sample_size sequence))%nat).
    { apply lookup_lt_Some in Hb. lia. }
    destruct (Hstep k Hk) as (a' & b' & Ha' & Hb' & Hd).
    rewrite Ha in Ha'. rewrite Hb in Hb'. injection Ha' as <-. injection Hb' as <-.
    rewrite Hd, Ed, Er, Es in *.
    set (n := IZR (static_sample_size static)) in *.
    set (m := IZR (static_sample_size static - 1)) in *.
    set (r := static_sampling_rate static) in *.
    split; [field; lra|].
    replace (n / r / m) with ((n / m) * (1 / r)) by (field; lra).
    assert (Hr : 0 < 1 / r) by (apply Rdiv_lt_0_compat; lra).
    assert (Hq : 1 < n / m).
    { apply (Rmult_lt_reg_r m); [exact Hm|]. replace (n / m * m) with n by (field; lra).
      lra. }
    nra.
Qed.

Lemma init_example : exists sequence, __init__ (mkStatic 1 3 1 0) None = ok sequence.
Proof.
  rewrite init_unfold. cbn [static_sampling_rate].
  destruct (Req_EM_T 1 0) as [E|_]; [exfalso; lra|].
  eexists. reflexivity.
Qed.

Lemma init_example_sample_size (sequence : t) :
  __init__ (mkStatic 1 3 1 0) None = ok sequence -> sample_size sequence = 3%Z.
Proof.
  rewrite init_unfold. cbn [static_sampling_rate].
  destruct (Req_EM_T 1 0) as [E|_]; [intros _; exfalso; lra|].
  intros H. apply bind_ok in H as (y & _ & H). injection H as <-. reflexivity.
Qed.

Lemma time_grid_spans_duration_witness :
  exists sequence,
    __init__ (mkStatic 1 3 1 0) None = ok sequence /\
    time sequence !! 0%nat = Some (0 + 1e-6 - duration sequence) /\
    time sequence !! 2%nat = Some (0 + 1e-6).
Proof.
  destruct init_example as [sequence H]. exists sequence. split; [exact H|].
  pose proof (init_example_sample_size sequence H) as E.
  assert (Hn : (2 <= sample_size sequence)%Z) by (rewrite E; lia).
  destruct (time_grid_spans_duration (mkStatic 1 3 1 0) None sequence H Hn)
    as (_ & H0 & Hlast & _).
  rewrite E in Hlast. split; [exact H0 | exact Hlast].
Defined.

Lemma default_grid_step_exceeds_sampling_period_witness :
  exists sequence,
    __init__ (mkStatic 1 3 1 0) None = ok sequence /\
    duration sequence * sampling_rate sequence = IZR (sample_size sequence).
Proof.
  destruct init_example as [sequence H]. exists sequence. split; [exact H|].
  apply (default_grid_step_exceeds_sampling_period (mkStatic 1 3 1 0) sequence);
    [simpl; lra | simpl; lia | exact H].
Defined.

End PulseSequence.
